(** * M0NARQ animation system: the island navigator, the scramble effect,
      the boot sequence, the counter widget and the scroll reveal.

    A shallow embedding of the JavaScript of [animations.js] (v6.0, with the
    v4.0 island where the two drafts differ) and the properties of its
    specification.

    Conventions of the embedding.
    - A JavaScript string is the list of its code units ([jsstring]); only
      [length], indexing, concatenation and [substring] are used by the code.
    - A JavaScript number is an exact rational extended with the two
      infinities and NaN ([jsnum]); rounding of doubles is not modelled,
      except for the reveal test of the scramble run, which is stated up to
      the rounding and evaluated on doubles for the run of the navigator.
    - [Math.random()] is an oracle [rng : nat -> Q], read in order; the world
      counts the draws made so far.
    - Timers live in a table keyed by their handle.  Handles are positive
      integers, never reused, as in a browser; a handle field of the
      navigator state is therefore truthy exactly when it is not [null].
    - A tween request to the animation library that only changes the look of
      an element (width, opacity, scale) is not recorded; scroll requests,
      the progress width and the class toggles are. *)

From Stdlib Require Import Floats.
From Stdlib Require Import ZArith QArith Qabs Qround Lia Lqa List Ascii String Bool.
From Stdlib Require Import DecimalString.
From stdpp Require Import base option list gmap.

Local Open Scope nat_scope.

(** ** JavaScript strings *)

Definition jsstring := list ascii.

Definition lit (s : string) : jsstring := list_ascii_of_string s.

(** [s[i]] for an integer index: [undefined] outside the string. *)
Definition js_at (s : jsstring) (i : Z) : option ascii :=
  if (i <? 0)%Z then None else nth_error s (Z.to_nat i).

(** [out += s[i]]: string concatenation converts [undefined] to its name. *)
Definition js_append_at (out s : jsstring) (i : Z) : jsstring :=
  match js_at s i with
  | Some c => out ++ [c]
  | None => out ++ lit "undefined"
  end.

(** [out += s[i] || ""] *)
Definition js_append_at_or_empty (out s : jsstring) (i : Z) : jsstring :=
  match js_at s i with
  | Some c => out ++ [c]
  | None => out
  end.

(** [s.substring(0, n)] for [n >= 0]. *)
Definition substring0 (n : nat) (s : jsstring) : jsstring := firstn n s.

Definition upper_ascii (c : ascii) : ascii :=
  let n := nat_of_ascii c in
  if (97 <=? n) && (n <=? 122) then ascii_of_nat (n - 32) else c.

(** [s.toUpperCase()] on the code units of the ASCII range. *)
Definition toUpperCase (s : jsstring) : jsstring := List.map upper_ascii s.

(** ** JavaScript numbers *)

Inductive jsnum :=
| JFin (q : Q)
| JPosInf
| JNegInf
| JNaN.

Definition Qltb (a b : Q) : bool := negb (Qle_bool b a).

Definition js_of_nat (n : nat) : jsnum := JFin (inject_Z (Z.of_nat n)).

Definition js_div (a b : jsnum) : jsnum :=
  match a, b with
  | JFin x, JFin y =>
      if Qeq_bool y 0 then
        (if Qeq_bool x 0 then JNaN else if Qltb 0 x then JPosInf else JNegInf)
      else JFin (x / y)
  | JFin _, (JPosInf | JNegInf) => JFin 0
  | JPosInf, JFin y => if Qltb y 0 then JNegInf else JPosInf
  | JNegInf, JFin y => if Qltb y 0 then JPosInf else JNegInf
  | _, _ => JNaN
  end.

Definition js_mul (a b : jsnum) : jsnum :=
  match a, b with
  | JFin x, JFin y => JFin (x * y)
  | JFin x, JPosInf | JPosInf, JFin x =>
      if Qeq_bool x 0 then JNaN else if Qltb 0 x then JPosInf else JNegInf
  | JFin x, JNegInf | JNegInf, JFin x =>
      if Qeq_bool x 0 then JNaN else if Qltb 0 x then JNegInf else JPosInf
  | JPosInf, JPosInf | JNegInf, JNegInf => JPosInf
  | JPosInf, JNegInf | JNegInf, JPosInf => JNegInf
  | _, _ => JNaN
  end.

(** [a < b]; every comparison with NaN is false. *)
Definition js_lt (a b : jsnum) : bool :=
  match a, b with
  | JFin x, JFin y => Qltb x y
  | JFin _, JPosInf | JNegInf, JFin _ | JNegInf, JPosInf => true
  | _, _ => false
  end.

(** [Math.floor(x)] of a finite number. *)
Definition js_floor (x : Q) : Z := Qfloor x.

(** ** Timers *)

Inductive timer :=
| ScrambleInterval (newText : jsstring) (maxLength : nat) (totalFrames : Q) (frame : nat)
| GlitchInterval (currentText : jsstring) (glitchCount : nat)
| MorphTimeout (delay : Q)
| UnlockTimeout
| CollapseTimeout.

Definition is_scramble (t : timer) : bool :=
  match t with ScrambleInterval _ _ _ _ => true | _ => false end.

Definition is_morph (t : timer) : bool :=
  match t with MorphTimeout _ => true | _ => false end.

Definition is_glitch (t : timer) : bool :=
  match t with GlitchInterval _ _ => true | _ => false end.

(** ** The world of the navigator *)

Inductive scroll_request :=
| LenisScrollTo (section : Z)
| ScrollIntoView (section : Z)
| GsapScrollTo (section : Z).

(** [this.state] of [DynamicIslandNav]. *)
Record nav_state := {
  currentIndex : Z;
  isExpanded : bool;
  isMenuOpen : bool;
  isAnimating : bool;
  idleTimeout : option positive;
  scrambleInterval : option positive;
  morphTimeout : option positive
}.

(** The part of the document the navigator writes.  [activeSection] is the
    section that carries the class [active] after the navigator has removed
    it from all sections and added it to one. *)
Record dom := {
  textContent : jsstring;
  glitching : bool;
  expandedClass : bool;
  menuOpenClass : bool;
  activeSection : option nat;
  progressWidth : option jsnum
}.

(** The navigator, its part of the document and the host: the timer table,
    the next free handle and the number of draws of [Math.random()] made.
    [scrolls] records the scroll requests in the order they were issued and
    [glitchStarts] counts the calls of [glitchText]. *)
Record world := {
  st : nav_state;
  page : dom;
  timers : gmap positive timer;
  nextTimer : positive;
  drawn : nat;
  scrolls : list scroll_request;
  glitchStarts : nat
}.

(** What the constructor finds in the document and the host. *)
Record config := {
  titles : list jsstring;
  hasMenuButton : bool;
  hasMenuPanel : bool;
  hasProgressBar : bool;
  smoothScroll : bool;
  rng : nat -> Q
}.

Definition with_st (f : nav_state -> nav_state) (w : world) : world :=
  {| st := f (st w); page := page w; timers := timers w; nextTimer := nextTimer w;
     drawn := drawn w; scrolls := scrolls w; glitchStarts := glitchStarts w |}.

Definition with_page (f : dom -> dom) (w : world) : world :=
  {| st := st w; page := f (page w); timers := timers w; nextTimer := nextTimer w;
     drawn := drawn w; scrolls := scrolls w; glitchStarts := glitchStarts w |}.

Definition with_timers (f : gmap positive timer -> gmap positive timer) (w : world) : world :=
  {| st := st w; page := page w; timers := f (timers w); nextTimer := nextTimer w;
     drawn := drawn w; scrolls := scrolls w; glitchStarts := glitchStarts w |}.

Definition set_drawn (n : nat) (w : world) : world :=
  {| st := st w; page := page w; timers := timers w; nextTimer := nextTimer w;
     drawn := n; scrolls := scrolls w; glitchStarts := glitchStarts w |}.

Definition push_scroll (r : scroll_request) (w : world) : world :=
  {| st := st w; page := page w; timers := timers w; nextTimer := nextTimer w;
     drawn := drawn w; scrolls := scrolls w ++ [r]; glitchStarts := glitchStarts w |}.

Definition count_glitch (w : world) : world :=
  {| st := st w; page := page w; timers := timers w; nextTimer := nextTimer w;
     drawn := drawn w; scrolls := scrolls w; glitchStarts := S (glitchStarts w) |}.

Definition set_text (s : jsstring) : dom -> dom := fun d =>
  {| textContent := s; glitching := glitching d; expandedClass := expandedClass d;
     menuOpenClass := menuOpenClass d; activeSection := activeSection d;
     progressWidth := progressWidth d |}.

Definition set_glitching (b : bool) : dom -> dom := fun d =>
  {| textContent := textContent d; glitching := b; expandedClass := expandedClass d;
     menuOpenClass := menuOpenClass d; activeSection := activeSection d;
     progressWidth := progressWidth d |}.

Definition set_expandedClass (b : bool) : dom -> dom := fun d =>
  {| textContent := textContent d; glitching := glitching d; expandedClass := b;
     menuOpenClass := menuOpenClass d; activeSection := activeSection d;
     progressWidth := progressWidth d |}.

Definition set_menuOpenClass (b : bool) : dom -> dom := fun d =>
  {| textContent := textContent d; glitching := glitching d; expandedClass := expandedClass d;
     menuOpenClass := b; activeSection := activeSection d;
     progressWidth := progressWidth d |}.

Definition set_activeSection (a : option nat) : dom -> dom := fun d =>
  {| textContent := textContent d; glitching := glitching d; expandedClass := expandedClass d;
     menuOpenClass := menuOpenClass d; activeSection := a;
     progressWidth := progressWidth d |}.

Definition set_progressWidth (p : option jsnum) : dom -> dom := fun d =>
  {| textContent := textContent d; glitching := glitching d; expandedClass := expandedClass d;
     menuOpenClass := menuOpenClass d; activeSection := activeSection d;
     progressWidth := p |}.

Definition set_currentIndex (i : Z) : nav_state -> nav_state := fun s =>
  {| currentIndex := i; isExpanded := isExpanded s; isMenuOpen := isMenuOpen s;
     isAnimating := isAnimating s; idleTimeout := idleTimeout s;
     scrambleInterval := scrambleInterval s; morphTimeout := morphTimeout s |}.

Definition set_isExpanded (b : bool) : nav_state -> nav_state := fun s =>
  {| currentIndex := currentIndex s; isExpanded := b; isMenuOpen := isMenuOpen s;
     isAnimating := isAnimating s; idleTimeout := idleTimeout s;
     scrambleInterval := scrambleInterval s; morphTimeout := morphTimeout s |}.

Definition set_isMenuOpen (b : bool) : nav_state -> nav_state := fun s =>
  {| currentIndex := currentIndex s; isExpanded := isExpanded s; isMenuOpen := b;
     isAnimating := isAnimating s; idleTimeout := idleTimeout s;
     scrambleInterval := scrambleInterval s; morphTimeout := morphTimeout s |}.

Definition set_isAnimating (b : bool) : nav_state -> nav_state := fun s =>
  {| currentIndex := currentIndex s; isExpanded := isExpanded s; isMenuOpen := isMenuOpen s;
     isAnimating := b; idleTimeout := idleTimeout s;
     scrambleInterval := scrambleInterval s; morphTimeout := morphTimeout s |}.

Definition set_idleTimeout (h : option positive) : nav_state -> nav_state := fun s =>
  {| currentIndex := currentIndex s; isExpanded := isExpanded s; isMenuOpen := isMenuOpen s;
     isAnimating := isAnimating s; idleTimeout := h;
     scrambleInterval := scrambleInterval s; morphTimeout := morphTimeout s |}.

Definition set_scrambleInterval (h : option positive) : nav_state -> nav_state := fun s =>
  {| currentIndex := currentIndex s; isExpanded := isExpanded s; isMenuOpen := isMenuOpen s;
     isAnimating := isAnimating s; idleTimeout := idleTimeout s;
     scrambleInterval := h; morphTimeout := morphTimeout s |}.

Definition set_morphTimeout (h : option positive) : nav_state -> nav_state := fun s =>
  {| currentIndex := currentIndex s; isExpanded := isExpanded s; isMenuOpen := isMenuOpen s;
     isAnimating := isAnimating s; idleTimeout := idleTimeout s;
     scrambleInterval := scrambleInterval s; morphTimeout := h |}.

(** [setTimeout] and [setInterval]: the callback's closure stored in the
    table under a fresh handle, which is the value returned. *)
Definition alloc_timer (t : timer) (w : world) : world :=
  {| st := st w; page := page w; timers := <[nextTimer w := t]> (timers w);
     nextTimer := Pos.succ (nextTimer w); drawn := drawn w; scrolls := scrolls w;
     glitchStarts := glitchStarts w |}.

Definition set_timer (t : timer) (w : world) : positive * world :=
  (nextTimer w, alloc_timer t w).

(** [clearTimeout(h)] and [clearInterval(h)] share one table of handles. *)
Definition clear_timer (h : positive) (w : world) : world :=
  with_timers (delete h) w.

(** [if (field) clearTimeout(field)] *)
Definition clear_if_set (field : option positive) (w : world) : world :=
  match field with
  | Some h => clear_timer h w
  | None => w
  end.

(** ** ScrambleText (v6.0) *)

(** [this.chars] *)
Definition chars : jsstring := lit "!#$%&'()*+,-./:;<=>?@[]^_`{|}~".

(** [Math.floor(Math.random() * len)] with the draw number [r]. *)
Definition random_index (cfg : config) (r len : nat) : Z :=
  js_floor (rng cfg r * inject_Z (Z.of_nat len)).

(** [i < newText.length * progress] *)
Definition revealed (newLen : nat) (progress : jsnum) (i : nat) : bool :=
  js_lt (js_of_nat i) (js_mul (js_of_nat newLen) progress).

(** One turn of the [for] loop of the interval callback: the string built so
    far and the number of draws made. *)
Definition scramble_char (cfg : config) (newText : jsstring) (progress : jsnum)
    (maxLength : nat) (acc : jsstring * nat) (i : nat) : jsstring * nat :=
  let '(scrambled, r) := acc in
  if revealed (length newText) progress i then
    (js_append_at scrambled newText (Z.of_nat i), r)
  else if i <? maxLength then
    (js_append_at scrambled chars (random_index cfg r (length chars)), S r)
  else (scrambled, r).

Definition scramble_frame (cfg : config) (newText : jsstring) (progress : jsnum)
    (maxLength r : nat) : jsstring * nat :=
  fold_left (scramble_char cfg newText progress maxLength) (seq 0 maxLength) ([], r).

(** [frame / totalFrames] after [frame++]. *)
Definition progress_of (frame : nat) (totalFrames : Q) : jsnum :=
  js_div (js_of_nat frame) (JFin totalFrames).

(** [frame >= totalFrames] *)
Definition frames_done (frame : nat) (totalFrames : Q) : bool :=
  Qle_bool totalFrames (inject_Z (Z.of_nat frame)).

(** The callback given to [setInterval] by [scramble], for the interval [h]
    whose closure holds [frame]. *)
Definition scramble_tick (cfg : config) (h : positive) (newText : jsstring)
    (maxLength : nat) (totalFrames : Q) (frame : nat) (w : world) : world :=
  let frame' := S frame in
  let progress := progress_of frame' totalFrames in
  let '(scrambled, r) := scramble_frame cfg newText progress maxLength (drawn w) in
  let w1 := with_page (set_text (substring0 maxLength scrambled)) (set_drawn r w) in
  if frames_done frame' totalFrames then
    with_page (set_text newText) (clear_timer h w1)
  else
    with_timers (<[h := ScrambleInterval newText maxLength totalFrames frame']>) w1.

(** [scramble(newText, duration)] on the existing text node; the returned
    handle is [scrambleInterval]. *)
Definition scramble (newText : jsstring) (duration : Q) (w : world) : positive * world :=
  let oldText := textContent (page w) in
  let maxLength := Nat.max (length oldText) (length newText) in
  let scrambleDuration := (duration * (8 # 10))%Q in
  let totalFrames := (scrambleDuration * 60)%Q in
  set_timer (ScrambleInterval newText maxLength totalFrames 0) w.

(** ** DynamicIslandNav (v6.0) *)

Definition startIdleAnimation (cfg : config) (w : world) : world :=
  let w1 := clear_if_set (morphTimeout (st w)) w in
  if negb (isExpanded (st w1)) && negb (isMenuOpen (st w1)) then
    let delay := (3000 + rng cfg (drawn w1) * 2000)%Q in
    let '(h, w2) := set_timer (MorphTimeout delay) (set_drawn (S (drawn w1)) w1) in
    with_st (set_morphTimeout (Some h)) w2
  else w1.

Definition glitchChars : jsstring := lit "!@#$%^&*()_+".

Definition glitchText (w : world) : world :=
  let currentText := textContent (page w) in
  let w1 := with_page (set_glitching true) w in
  count_glitch (snd (set_timer (GlitchInterval currentText 0) w1)).

Definition glitch_char (cfg : config) (currentText : jsstring)
    (acc : jsstring * nat) (i : nat) : jsstring * nat :=
  let '(glitched, r) := acc in
  if Qltb (rng cfg r) (1 # 10) then
    (js_append_at glitched glitchChars (random_index cfg (S r) (length glitchChars)), S (S r))
  else (js_append_at glitched currentText (Z.of_nat i), S r).

(** The callback of the 50 ms interval of [glitchText]. *)
Definition glitch_tick (cfg : config) (h : positive) (currentText : jsstring)
    (glitchCount : nat) (w : world) : world :=
  if glitchCount <? 5 then
    let '(glitched, r) :=
      fold_left (glitch_char cfg currentText) (seq 0 (length currentText)) ([], drawn w) in
    with_timers (<[h := GlitchInterval currentText (S glitchCount)]>)
      (with_page (set_text glitched) (set_drawn r w))
  else
    with_page (set_glitching false) (with_page (set_text currentText) (clear_timer h w)).

(** The callback of the timeout armed by [startIdleAnimation]. *)
Definition morph_fire (cfg : config) (w : world) : world :=
  if negb (isExpanded (st w)) && negb (isMenuOpen (st w)) then
    startIdleAnimation cfg (glitchText w)
  else w.

Definition updateText (cfg : config) (newText : jsstring) (w : world) : world :=
  if isAnimating (st w) then w
  else
    let w1 := with_st (set_isAnimating true) w in
    let w2 := clear_if_set (scrambleInterval (st w1)) w1 in
    let w3 := clear_if_set (morphTimeout (st w2)) w2 in
    let '(h, w4) := scramble (toUpperCase newText) (6 # 10) w3 in
    let w5 := with_st (set_scrambleInterval (Some h)) w4 in
    snd (set_timer UnlockTimeout w5).

(** The callback of the 600 ms timeout of [updateText]. *)
Definition unlock_fire (cfg : config) (w : world) : world :=
  let w1 := with_st (set_isAnimating false) w in
  if negb (isExpanded (st w1)) then startIdleAnimation cfg w1 else w1.

Definition resetIdleTimer (w : world) : world :=
  let w1 := clear_if_set (idleTimeout (st w)) w in
  if isExpanded (st w1) then
    let '(h, w2) := set_timer CollapseTimeout w1 in
    with_st (set_idleTimeout (Some h)) w2
  else w1.

Definition toggleExpanded (cfg : config) (shouldExpand : bool) (w : world) : world :=
  let w1 := with_st (set_isExpanded shouldExpand) w in
  if shouldExpand then
    let w2 := with_page (set_expandedClass true) w1 in
    let w3 := resetIdleTimer w2 in
    clear_if_set (morphTimeout (st w3)) w3
  else
    let w2 := with_page (set_expandedClass false) w1 in
    let w3 := clear_if_set (idleTimeout (st w2)) w2 in
    startIdleAnimation cfg w3.

(** [toggleMenu(force = null)]: [None] is the call without argument. *)
Definition toggleMenu (cfg : config) (force : option bool) (w : world) : world :=
  if negb (hasMenuPanel cfg) || negb (hasMenuButton cfg) then w
  else
    let shouldOpen :=
      match force with Some b => b | None => negb (isMenuOpen (st w)) end in
    with_page (set_menuOpenClass shouldOpen) (with_st (set_isMenuOpen shouldOpen) w).

(** [Math.max(0, Math.min(this.sections.length - 1, index))] *)
Definition clamp_index (cfg : config) (index : Z) : Z :=
  Z.max 0 (Z.min (Z.of_nat (length (titles cfg)) - 1) index).

Definition navigateToSection (cfg : config) (index : Z) (w : world) : world :=
  if isAnimating (st w) then w
  else
    let clampedIndex := clamp_index cfg index in
    if (clampedIndex =? currentIndex (st w))%Z then w
    else if smoothScroll cfg then push_scroll (LenisScrollTo clampedIndex) w
    else push_scroll (ScrollIntoView clampedIndex) w.

Definition updateProgress (cfg : config) (w : world) : world :=
  if negb (hasProgressBar cfg) then w
  else
    let progress :=
      js_mul (js_div (JFin (inject_Z (currentIndex (st w) + 1)))
                     (js_of_nat (length (titles cfg))))
             (JFin 100) in
    with_page (set_progressWidth (Some progress)) w.

Definition updateCurrentSection (cfg : config) (index : nat) (w : world) : world :=
  let w1 := with_st (set_currentIndex (Z.of_nat index)) w in
  match titles cfg !! index with
  | None => w1
  | Some title =>
      let w2 := updateText cfg title w1 in
      let w3 := with_page (set_activeSection (Some index)) w2 in
      updateProgress cfg w3
  end.

(** One entry of the IntersectionObserver callback: [isIntersecting] and the
    [data-index] of its target. *)
Definition observe_entry (cfg : config) (w : world) (entry : bool * nat) : world :=
  let '(isIntersecting, index) := entry in
  if isIntersecting then
    if negb (Z.of_nat index =? currentIndex (st w))%Z then updateCurrentSection cfg index w
    else w
  else w.

Definition destroy (w : world) : world :=
  let w1 := clear_if_set (idleTimeout (st w)) w in
  let w2 := clear_if_set (morphTimeout (st w1)) w1 in
  clear_if_set (scrambleInterval (st w2)) w2.

(** ** Events *)

Inductive key := ArrowUp | ArrowLeft | ArrowDown | ArrowRight | Escape | OtherKey.

Inductive event :=
| Fire (h : positive)
| ClickIsland
| ClickMenuButton
| ClickPrev
| ClickNext
| ClickOutside
| KeyDown (k : key)
| Swipe (diff : Q)
| Observe (entries : list (bool * nat))
| Destroy.

(** The callback of the timer [h], if it is still in the table.  A timeout
    leaves the table when it fires; an interval stays until it is cleared. *)
Definition fire (cfg : config) (h : positive) (w : world) : world :=
  match timers w !! h with
  | None => w
  | Some (ScrambleInterval newText maxLength totalFrames frame) =>
      scramble_tick cfg h newText maxLength totalFrames frame w
  | Some (GlitchInterval currentText glitchCount) =>
      glitch_tick cfg h currentText glitchCount w
  | Some (MorphTimeout _) => morph_fire cfg (clear_timer h w)
  | Some UnlockTimeout => unlock_fire cfg (clear_timer h w)
  | Some CollapseTimeout => toggleExpanded cfg false (clear_timer h w)
  end.

(** [init] installs the listeners and the observer only when the document
    has sections. *)
Definition listening (cfg : config) : bool :=
  match titles cfg with [] => false | _ => true end.

(** The listeners of [setupEventListeners] and the observer. *)
Definition on_event (cfg : config) (e : event) (w : world) : world :=
  match e with
  | Fire _ | Destroy => w
  | ClickIsland => toggleExpanded cfg (negb (isExpanded (st w))) w
  | ClickMenuButton => if hasMenuButton cfg then toggleMenu cfg None w else w
  | ClickPrev => resetIdleTimer (navigateToSection cfg (currentIndex (st w) - 1) w)
  | ClickNext => resetIdleTimer (navigateToSection cfg (currentIndex (st w) + 1) w)
  | ClickOutside =>
      if hasMenuButton cfg then toggleMenu cfg (Some false) (toggleExpanded cfg false w)
      else w
  | KeyDown (ArrowUp | ArrowLeft) => navigateToSection cfg (currentIndex (st w) - 1) w
  | KeyDown (ArrowDown | ArrowRight) => navigateToSection cfg (currentIndex (st w) + 1) w
  | KeyDown Escape => toggleMenu cfg (Some false) (toggleExpanded cfg false w)
  | KeyDown OtherKey => w
  | Swipe diff =>
      if Qltb 50 (Qabs diff) then
        navigateToSection cfg
          (currentIndex (st w) + (if Qltb 0 diff then 1 else -1)) w
      else w
  | Observe entries => fold_left (observe_entry cfg) entries w
  end.

Definition handle (cfg : config) (e : event) (w : world) : world :=
  match e with
  | Fire h => fire cfg h w
  | Destroy => destroy w
  | _ => if listening cfg then on_event cfg e w else w
  end.

Definition run (cfg : config) (evs : list event) (w : world) : world :=
  fold_left (fun w e => handle cfg e w) evs w.

(** The world a page load leaves: the constructor and [init], for a document
    that has the island and its text node (without them the constructor
    returns before it sets anything up). *)
Definition blank (initialText : jsstring) : world :=
  {| st := {| currentIndex := 0; isExpanded := false; isMenuOpen := false;
              isAnimating := false; idleTimeout := None; scrambleInterval := None;
              morphTimeout := None |};
     page := {| textContent := initialText; glitching := false; expandedClass := false;
                menuOpenClass := false; activeSection := None; progressWidth := None |};
     timers := ∅; nextTimer := 1%positive; drawn := 0; scrolls := [];
     glitchStarts := 0 |}.

Definition boot (cfg : config) (initialText : jsstring) : world :=
  match titles cfg with
  | [] => blank initialText
  | firstTitle :: _ =>
      startIdleAnimation cfg
        (with_page (set_text (toUpperCase firstTitle))
           (updateProgress cfg (blank initialText)))
  end.

(** The handle of the run started by [scramble] and the ticks it needs:
    the first [frame >= 1] with [frame >= totalFrames]. *)
Definition total_frames (duration : Q) : Q := (duration * (8 # 10) * 60)%Q.

Definition ticks_needed (totalFrames : Q) : nat :=
  Nat.max 1 (Z.to_nat (Qceiling totalFrames)).

Definition fires (cfg : config) (h : positive) (n : nat) (w : world) : world :=
  Nat.iter n (fire cfg h) w.

(** ** Notions used by the properties of the navigator *)

(** [i < newLength * p] for a finite progress [p]. *)
Definition reveals (newLen : nat) (p : Q) (i : nat) : bool :=
  Qltb (inject_Z (Z.of_nat i)) (inject_Z (Z.of_nat newLen) * p).

(** The draws the loop of one frame has made before it reaches position [i]:
    one for every earlier position that is not revealed. *)
Definition hidden_before (newLen : nat) (p : Q) (i : nat) : nat :=
  length (List.filter (fun j => negb (reveals newLen p j)) (seq 0 i)).

(** [this.chars[Math.floor(Math.random() * this.chars.length)]] with the
    draw number [r]. *)
Definition random_char (cfg : config) (r : nat) : option ascii :=
  js_at chars (random_index cfg r (length chars)).

(** The reveal rule in the words of the specification: position [i] shows
    the target once the progress exceeds [i / max(oldLength, newLength)]. *)
Definition spec_reveals (oldLen newLen : nat) (p : Q) (i : nat) : bool :=
  Qltb (inject_Z (Z.of_nat i) / inject_Z (Z.of_nat (Nat.max oldLen newLen))) p.

(** The text shown after the [k]-th tick of a run from [oldText] to
    [newText], and the specification's description of it. *)
Definition shown_at (cfg : config) (oldText newText : jsstring) (duration : Q)
    (k : nat) : jsstring :=
  let run := scramble newText duration (blank oldText) in
  textContent (page (fires cfg (fst run) k (snd run))).

Definition shows_as_specified (cfg : config) (oldText newText : jsstring)
    (duration : Q) (k : nat) : Prop :=
  let p := (inject_Z (Z.of_nat k) / total_frames duration)%Q in
  forall i, i < Nat.max (length oldText) (length newText) ->
    if spec_reveals (length oldText) (length newText) p i
    then nth_error (shown_at cfg oldText newText duration k) i = nth_error newText i
    else exists c, nth_error (shown_at cfg oldText newText duration k) i = Some c
                   /\ In c chars.

(** Every scramble interval in the table is the one the navigator holds in
    [scrambleInterval], and that handle has been handed out already. *)
Definition scramble_tracked (w : world) : Prop :=
  (forall h t, timers w !! h = Some t -> is_scramble t = true ->
     scrambleInterval (st w) = Some h)
  /\ (forall h, scrambleInterval (st w) = Some h -> (h < nextTimer w)%positive).

Definition one_scramble (w : world) : Prop :=
  forall h1 h2 t1 t2,
    timers w !! h1 = Some t1 -> is_scramble t1 = true ->
    timers w !! h2 = Some t2 -> is_scramble t2 = true -> h1 = h2.

Definition no_scramble (w : world) : Prop :=
  forall h t, timers w !! h = Some t -> is_scramble t = false.

(** The requests for a neighbouring section: the arrows of the island, the
    arrow keys and a swipe. *)
Definition directional (e : event) : bool :=
  match e with
  | ClickPrev | ClickNext | Swipe _ => true
  | KeyDown (ArrowUp | ArrowLeft | ArrowDown | ArrowRight) => true
  | _ => false
  end.

(** The section of the last entry of the observer that was intersecting. *)
Definition confirmed_entry (acc : option nat) (entry : bool * nat) : option nat :=
  if fst entry then Some (snd entry) else acc.

Definition confirmed_by (acc : option nat) (e : event) : option nat :=
  match e with
  | Observe entries => fold_left confirmed_entry entries acc
  | _ => acc
  end.

Definition last_confirmed (evs : list event) : option nat :=
  fold_left confirmed_by evs None.

(** What a request leaves alone: the section state of the navigator. *)
Definition same_section (w w' : world) : Prop :=
  currentIndex (st w') = currentIndex (st w)
  /\ activeSection (page w') = activeSection (page w)
  /\ progressWidth (page w') = progressWidth (page w).

(** The idle timeouts in the table. *)
Definition idle_armed (w : world) : list (positive * timer) :=
  List.filter (fun ht => is_morph (snd ht)) (map_to_list (timers w)).

(** A step that starts no scramble interval and keeps the handle the
    navigator holds. *)
Definition keeps_scrambles (w w' : world) : Prop :=
  scrambleInterval (st w') = scrambleInterval (st w)
  /\ (nextTimer w <= nextTimer w')%positive
  /\ forall h t, timers w' !! h = Some t -> is_scramble t = true ->
       exists t0, timers w !! h = Some t0 /\ is_scramble t0 = true.

Definition index_after (i0 : Z) (acc : option nat) : Z :=
  match acc with Some k => Z.of_nat k | None => i0 end.

(** * The island of the v4.0 draft

    The earlier draft of the same file keeps the interval handle inside
    [ScrambleText] ([this._id]) and names the navigation request [go]. *)

Module V4.

Inductive timer :=
| ScrambleInterval (newText : jsstring) (maxLength : nat) (frames : Z) (f : nat).

Record nav_state := {
  idx : Z;
  expanded : bool;
  menu : bool;
  isAnimating : bool;
  idleTimeout : option positive;
  morphTimeout : option positive
}.

Record world := {
  st : nav_state;
  textContent : jsstring;
  _id : option positive;
  timers : gmap positive timer;
  nextTimer : positive;
  drawn : nat;
  scrolls : list scroll_request
}.

Record config := {
  sections : nat;
  lenis : bool;
  rng : nat -> Q
}.

Definition set_text (s : jsstring) (w : world) : world :=
  {| st := st w; textContent := s; _id := _id w; timers := timers w;
     nextTimer := nextTimer w; drawn := drawn w; scrolls := scrolls w |}.

Definition set_drawn (n : nat) (w : world) : world :=
  {| st := st w; textContent := textContent w; _id := _id w; timers := timers w;
     nextTimer := nextTimer w; drawn := n; scrolls := scrolls w |}.

Definition with_timers (f : gmap positive timer -> gmap positive timer) (w : world) : world :=
  {| st := st w; textContent := textContent w; _id := _id w; timers := f (timers w);
     nextTimer := nextTimer w; drawn := drawn w; scrolls := scrolls w |}.

Definition push_scroll (r : scroll_request) (w : world) : world :=
  {| st := st w; textContent := textContent w; _id := _id w; timers := timers w;
     nextTimer := nextTimer w; drawn := drawn w; scrolls := scrolls w ++ [r] |}.

(** [clearInterval(this._id)]; clearing [undefined] does nothing. *)
Definition clear_id (w : world) : world :=
  match _id w with
  | Some h => with_timers (delete h) w
  | None => w
  end.

(** [Math.round(x)] *)
Definition js_round (x : Q) : Z := Qfloor (x + (1 # 2)).

(** [i / maxLength < f / frames] *)
Definition revealed (maxLength : nat) (f : nat) (frames : Z) (i : nat) : bool :=
  js_lt (js_div (js_of_nat i) (js_of_nat maxLength))
        (js_div (js_of_nat f) (JFin (inject_Z frames))).

Definition scramble_char (cfg : config) (newText : jsstring) (maxLength f : nat)
    (frames : Z) (acc : jsstring * nat) (i : nat) : jsstring * nat :=
  let '(out, r) := acc in
  if revealed maxLength f frames i then
    (js_append_at_or_empty out newText (Z.of_nat i), r)
  else
    (js_append_at out chars
       (js_floor (rng cfg r * inject_Z (Z.of_nat (length chars)))), S r).

(** The callback given to [setInterval] by [scramble]. *)
Definition scramble_tick (cfg : config) (newText : jsstring) (maxLength : nat)
    (frames : Z) (f : nat) (h : positive) (w : world) : world :=
  let f' := S f in
  let '(out, r) :=
    fold_left (scramble_char cfg newText maxLength f' frames) (seq 0 maxLength)
              ([], drawn w) in
  let w1 := set_text out (set_drawn r w) in
  if (frames <=? Z.of_nat f')%Z then set_text newText (clear_id w1)
  else with_timers (<[h := ScrambleInterval newText maxLength frames f']>) w1.

Definition scramble (newText : jsstring) (duration : Q) (w : world) : world :=
  let oldText := textContent w in
  let maxLength := Nat.max (length oldText) (length newText) in
  let frames := js_round (duration * 60) in
  let w1 := clear_id w in
  let h := nextTimer w1 in
  {| st := st w1; textContent := textContent w1; _id := Some h;
     timers := <[h := ScrambleInterval newText maxLength frames 0]> (timers w1);
     nextTimer := Pos.succ h; drawn := drawn w1; scrolls := scrolls w1 |}.

Definition fire (cfg : config) (h : positive) (w : world) : world :=
  match timers w !! h with
  | None => w
  | Some (ScrambleInterval newText maxLength frames f) =>
      scramble_tick cfg newText maxLength frames f h w
  end.

Definition fires (cfg : config) (h : positive) (n : nat) (w : world) : world :=
  Nat.iter n (fire cfg h) w.

Definition ticks_needed (frames : Z) : nat := Nat.max 1 (Z.to_nat frames).

(** [go(i)] *)
Definition go (cfg : config) (i : Z) (w : world) : world :=
  if isAnimating (st w) then w
  else
    let clampedIndex := Z.max 0 (Z.min (Z.of_nat (sections cfg) - 1) i) in
    if (clampedIndex =? idx (st w))%Z then w
    else if lenis cfg then push_scroll (LenisScrollTo clampedIndex) w
    else push_scroll (GsapScrollTo clampedIndex) w.

(** The calls of [scramble] and the ticks of the intervals, in any order. *)
Inductive event :=
| Scramble (newText : jsstring) (duration : Q)
| Tick (h : positive).

Definition handle (cfg : config) (e : event) (w : world) : world :=
  match e with
  | Scramble newText duration => scramble newText duration w
  | Tick h => fire cfg h w
  end.

Definition run (cfg : config) (evs : list event) (w : world) : world :=
  fold_left (fun w e => handle cfg e w) evs w.

(** A fresh [ScrambleText] on a node that shows [text]. *)
Definition fresh (text : jsstring) : world :=
  {| st := {| idx := 0; expanded := false; menu := false; isAnimating := false;
              idleTimeout := None; morphTimeout := None |};
     textContent := text; _id := None; timers := ∅; nextTimer := 1%positive;
     drawn := 0; scrolls := [] |}.

(** [i / maxLength < p] for a finite progress [p]. *)
Definition reveals (maxLength : nat) (p : Q) (i : nat) : bool :=
  Qltb (inject_Z (Z.of_nat i) / inject_Z (Z.of_nat maxLength)) p.

Definition random_char (cfg : config) (r : nat) : option ascii :=
  js_at chars (js_floor (rng cfg r * inject_Z (Z.of_nat (length chars)))).

(** Every interval in the table is the one held in [_id]. *)
Definition tracked (w : world) : Prop :=
  (forall h t, timers w !! h = Some t -> _id w = Some h)
  /\ (forall h, _id w = Some h -> (h < nextTimer w)%positive).

End V4.

(** * The boot sequence of [M0NARQAnimations] (v6.0)

    [init] is followed as far as it touches the document and the two
    libraries.  A call into a library that is present succeeds and its
    completion callback runs; a free reference to a missing global throws.
    The registration of the scroll-linked effects is only scheduled here: it
    runs later, from the idle callback. *)

Module Boot.

(** What the page offers when the script starts. *)
Record env := {
  gsap : bool;
  ScrollTrigger : bool;
  Lenis : bool;
  loaders : nat;
  criticalImages : nat;
  imagesSettle : bool;
  island : bool;
  islandThrows : bool;
  menuToggle : bool;
  menuOverlay : bool;
  heroTitle : bool;
  heroImage : bool;
  heroSubtitle : bool;
  heroStats : bool;
  aboveFold : nat
}.

Record document := {
  htmlLoaded : bool;
  bodyLoaded : bool;
  bodyStyleVisible : bool;
  loadersLeft : nat;
  tweens : nat;
  lenisCreated : bool;
  islandCreated : bool;
  menuWired : bool;
  deferredScheduled : bool;
  resizeWired : bool;
  criticalImagesLoaded : bool;
  isInitialized : bool
}.

(** How an [async] function ends: its promise resolves, rejects, or waits
    for a promise that never settles. *)
Inductive outcome :=
| Resolved (d : document)
| Rejected (d : document)
| Pending (d : document).

Definition final (r : outcome) : document :=
  match r with Resolved d | Rejected d | Pending d => d end.

Definition andThen (r : outcome) (k : document -> outcome) : outcome :=
  match r with
  | Resolved d => k d
  | _ => r
  end.

Notation "r >>= k" := (andThen r k) (at level 50, left associativity).

Definition mark_loaded (d : document) : document :=
  {| htmlLoaded := true; bodyLoaded := true; bodyStyleVisible := bodyStyleVisible d;
     loadersLeft := loadersLeft d; tweens := tweens d; lenisCreated := lenisCreated d;
     islandCreated := islandCreated d; menuWired := menuWired d;
     deferredScheduled := deferredScheduled d; resizeWired := resizeWired d;
     criticalImagesLoaded := criticalImagesLoaded d; isInitialized := isInitialized d |}.

Definition remove_loaders (d : document) : document :=
  {| htmlLoaded := htmlLoaded d; bodyLoaded := bodyLoaded d;
     bodyStyleVisible := bodyStyleVisible d;
     loadersLeft := 0; tweens := tweens d; lenisCreated := lenisCreated d;
     islandCreated := islandCreated d; menuWired := menuWired d;
     deferredScheduled := deferredScheduled d; resizeWired := resizeWired d;
     criticalImagesLoaded := criticalImagesLoaded d; isInitialized := isInitialized d |}.

Definition tween (n : nat) (d : document) : document :=
  {| htmlLoaded := htmlLoaded d; bodyLoaded := bodyLoaded d;
     bodyStyleVisible := bodyStyleVisible d;
     loadersLeft := loadersLeft d; tweens := tweens d + n; lenisCreated := lenisCreated d;
     islandCreated := islandCreated d; menuWired := menuWired d;
     deferredScheduled := deferredScheduled d; resizeWired := resizeWired d;
     criticalImagesLoaded := criticalImagesLoaded d; isInitialized := isInitialized d |}.

Definition create_lenis (d : document) : document :=
  {| htmlLoaded := htmlLoaded d; bodyLoaded := bodyLoaded d;
     bodyStyleVisible := bodyStyleVisible d;
     loadersLeft := loadersLeft d; tweens := tweens d; lenisCreated := true;
     islandCreated := islandCreated d; menuWired := menuWired d;
     deferredScheduled := deferredScheduled d; resizeWired := resizeWired d;
     criticalImagesLoaded := criticalImagesLoaded d; isInitialized := isInitialized d |}.

Definition create_island (d : document) : document :=
  {| htmlLoaded := htmlLoaded d; bodyLoaded := bodyLoaded d;
     bodyStyleVisible := bodyStyleVisible d;
     loadersLeft := loadersLeft d; tweens := tweens d; lenisCreated := lenisCreated d;
     islandCreated := true; menuWired := menuWired d;
     deferredScheduled := deferredScheduled d; resizeWired := resizeWired d;
     criticalImagesLoaded := criticalImagesLoaded d; isInitialized := isInitialized d |}.

Definition wire_menu (d : document) : document :=
  {| htmlLoaded := htmlLoaded d; bodyLoaded := bodyLoaded d;
     bodyStyleVisible := bodyStyleVisible d;
     loadersLeft := loadersLeft d; tweens := tweens d; lenisCreated := lenisCreated d;
     islandCreated := islandCreated d; menuWired := true;
     deferredScheduled := deferredScheduled d; resizeWired := resizeWired d;
     criticalImagesLoaded := criticalImagesLoaded d; isInitialized := isInitialized d |}.

Definition schedule_deferred (d : document) : document :=
  {| htmlLoaded := htmlLoaded d; bodyLoaded := bodyLoaded d;
     bodyStyleVisible := bodyStyleVisible d;
     loadersLeft := loadersLeft d; tweens := tweens d; lenisCreated := lenisCreated d;
     islandCreated := islandCreated d; menuWired := menuWired d;
     deferredScheduled := true; resizeWired := resizeWired d;
     criticalImagesLoaded := criticalImagesLoaded d; isInitialized := isInitialized d |}.

Definition wire_resize (d : document) : document :=
  {| htmlLoaded := htmlLoaded d; bodyLoaded := bodyLoaded d;
     bodyStyleVisible := bodyStyleVisible d;
     loadersLeft := loadersLeft d; tweens := tweens d; lenisCreated := lenisCreated d;
     islandCreated := islandCreated d; menuWired := menuWired d;
     deferredScheduled := deferredScheduled d; resizeWired := true;
     criticalImagesLoaded := criticalImagesLoaded d; isInitialized := isInitialized d |}.

Definition images_loaded (d : document) : document :=
  {| htmlLoaded := htmlLoaded d; bodyLoaded := bodyLoaded d;
     bodyStyleVisible := bodyStyleVisible d;
     loadersLeft := loadersLeft d; tweens := tweens d; lenisCreated := lenisCreated d;
     islandCreated := islandCreated d; menuWired := menuWired d;
     deferredScheduled := deferredScheduled d; resizeWired := resizeWired d;
     criticalImagesLoaded := true; isInitialized := isInitialized d |}.

Definition initialized (d : document) : document :=
  {| htmlLoaded := htmlLoaded d; bodyLoaded := bodyLoaded d;
     bodyStyleVisible := bodyStyleVisible d;
     loadersLeft := loadersLeft d; tweens := tweens d; lenisCreated := lenisCreated d;
     islandCreated := islandCreated d; menuWired := menuWired d;
     deferredScheduled := deferredScheduled d; resizeWired := resizeWired d;
     criticalImagesLoaded := criticalImagesLoaded d; isInitialized := true |}.

(** The [catch] of [init]:
    [document.body.classList.add('loaded')] and the inline style. *)
Definition fallback (d : document) : document :=
  {| htmlLoaded := htmlLoaded d; bodyLoaded := true; bodyStyleVisible := true;
     loadersLeft := loadersLeft d; tweens := tweens d; lenisCreated := lenisCreated d;
     islandCreated := islandCreated d; menuWired := menuWired d;
     deferredScheduled := deferredScheduled d; resizeWired := resizeWired d;
     criticalImagesLoaded := criticalImagesLoaded d; isInitialized := isInitialized d |}.

Definition removeLoaderAnimated (e : env) (d : document) : outcome :=
  if loadersLeft d =? 0 then Resolved (mark_loaded d)
  else if gsap e then Resolved (mark_loaded (remove_loaders (tween 1 d)))
  else Resolved (mark_loaded (remove_loaders d)).

(** v6.0 only warns. *)
Definition validateDependencies (e : env) (d : document) : outcome := Resolved d.

(** [gsap.registerPlugin(ScrollTrigger)] names the global [ScrollTrigger]. *)
Definition initGSAP (e : env) (d : document) : outcome :=
  if negb (gsap e) then Resolved d
  else if negb (ScrollTrigger e) then Rejected d
  else Resolved d.

Definition initScrollSystem (e : env) (d : document) : outcome :=
  if negb (Lenis e) then Resolved d else Resolved (create_lenis d).

Definition preloadCriticalImages (e : env) (d : document) : outcome :=
  if criticalImages e =? 0 then Resolved (images_loaded d)
  else if imagesSettle e then Resolved (images_loaded d)
  else Pending d.

(** The constructor of the island runs inside [try]/[catch]. *)
Definition initDynamicIsland (e : env) (d : document) : outcome :=
  if island e then
    if islandThrows e then Resolved d else Resolved (create_island d)
  else Resolved d.

Definition initNavigation (e : env) (d : document) : outcome :=
  if negb (menuToggle e) || negb (menuOverlay e) then Resolved d
  else Resolved (wire_menu d).

Definition count (b : bool) : nat := if b then 1 else 0.

Definition animateHero (e : env) (d : document) : outcome :=
  if negb (heroTitle e) && negb (heroImage e) then Resolved d
  else if negb (gsap e) then Resolved d
  else Resolved (tween (count (heroImage e) + count (heroTitle e)
                        + count (heroSubtitle e) + count (heroStats e)) d).

(** [animateElement] returns at once without the animation library. *)
Definition animateAboveFold (e : env) (d : document) : outcome :=
  if negb (gsap e) then Resolved d else Resolved (tween (aboveFold e) d).

Definition initCriticalAnimations (e : env) (d : document) : outcome :=
  animateHero e d >>= animateAboveFold e.

Definition initDeferredAnimations (e : env) (d : document) : outcome :=
  Resolved (schedule_deferred d).

Definition initResizeHandler (e : env) (d : document) : outcome :=
  Resolved (wire_resize d).

(** The body of the [try] of [init]. *)
Definition init_body (e : env) (d : document) : outcome :=
  removeLoaderAnimated e d
  >>= validateDependencies e
  >>= initGSAP e
  >>= initScrollSystem e
  >>= preloadCriticalImages e
  >>= initDynamicIsland e
  >>= initNavigation e
  >>= initCriticalAnimations e
  >>= initDeferredAnimations e
  >>= initResizeHandler e
  >>= (fun d => Resolved (initialized d)).

Definition init (e : env) (d : document) : outcome :=
  match init_body e d with
  | Rejected d' => Resolved (fallback d')
  | r => r
  end.

(** The document before the script runs: hidden, its loaders in place. *)
Definition start (e : env) : document :=
  {| htmlLoaded := false; bodyLoaded := false; bodyStyleVisible := false;
     loadersLeft := loaders e; tweens := 0; lenisCreated := false;
     islandCreated := false; menuWired := false; deferredScheduled := false;
     resizeWired := false; criticalImagesLoaded := false; isInitialized := false |}.

(** The first two steps of [init] in the v5.0 draft: [removeLoader] shows
    the page at once, [validateDependencies] throws, and [init] has no
    [try]. *)
Definition removeLoader_v5 (d : document) : document :=
  {| htmlLoaded := true; bodyLoaded := bodyLoaded d; bodyStyleVisible := true;
     loadersLeft := 0; tweens := tweens d; lenisCreated := lenisCreated d;
     islandCreated := islandCreated d; menuWired := menuWired d;
     deferredScheduled := deferredScheduled d; resizeWired := resizeWired d;
     criticalImagesLoaded := criticalImagesLoaded d; isInitialized := isInitialized d |}.

Definition validateDependencies_v5 (e : env) (d : document) : outcome :=
  if gsap e && ScrollTrigger e && Lenis e then Resolved d else Rejected d.

Definition init_v5_head (e : env) (d : document) : outcome :=
  Resolved (removeLoader_v5 d) >>= validateDependencies_v5 e.

(** The behaviour in the words of the specification: with a library absent
    [init] completes, nothing is animated and the document is loaded. *)
Definition boots_as_specified (e : env) : Prop :=
  gsap e = false \/ Lenis e = false ->
  (exists d, init e (start e) = Resolved d)
  /\ tweens (final (init e (start e))) = 0
  /\ bodyLoaded (final (init e (start e))) = true.

End Boot.

(** * The counter widget ([initStatsCounters], v6.0)

    [parseFloat] and [toLocaleString] belong to the host.  They are modelled
    on exact decimals: [parseFloat] reads a decimal literal with an optional
    sign, fraction and exponent (the literal [Infinity] is left out), and
    [toLocaleString('en-US', ...)] is given for the case the code uses, the
    same minimum and maximum number of fraction digits. *)

Module Counter.

Definition is_digit (c : ascii) : bool :=
  let n := nat_of_ascii c in (48 <=? n) && (n <=? 57).

Definition digit_value (c : ascii) : Z := Z.of_nat (nat_of_ascii c - 48).

Definition is_space (c : ascii) : bool :=
  let n := nat_of_ascii c in (n =? 32) || ((9 <=? n) && (n <=? 13)).

Fixpoint skip_space (s : jsstring) : jsstring :=
  match s with
  | c :: t => if is_space c then skip_space t else s
  | [] => []
  end.

(** A run of digits: its value on top of [acc], its length, the rest. *)
Fixpoint read_digits (s : jsstring) (acc : Z) (n : nat) : Z * nat * jsstring :=
  match s with
  | c :: t =>
      if is_digit c then read_digits t (acc * 10 + digit_value c) (S n)
      else (acc, n, s)
  | [] => (acc, n, [])
  end.

Definition read_sign (s : jsstring) : bool * jsstring :=
  match s with
  | "-"%char :: t => (true, t)
  | "+"%char :: t => (false, t)
  | _ => (false, s)
  end.

Definition read_exponent (s : jsstring) : Z :=
  match s with
  | ("e" | "E")%char :: t =>
      let '(neg, t1) := read_sign t in
      let '(ev, ne, _) := read_digits t1 0 0 in
      if ne =? 0 then 0%Z else if neg then (- ev)%Z else ev
  | _ => 0%Z
  end.

(** [parseFloat(s)]; [None] is [NaN]. *)
Definition parseFloat (s : jsstring) : option Q :=
  let '(neg, s1) := read_sign (skip_space s) in
  let '(ip, ni, s2) := read_digits s1 0 0 in
  let '(fp, nf, s3) :=
    match s2 with
    | "."%char :: t => read_digits t 0 0
    | _ => (0%Z, 0, s2)
    end in
  if ni + nf =? 0 then None
  else
    let mantissa :=
      (inject_Z (ip * 10 ^ Z.of_nat nf + fp) / inject_Z (10 ^ Z.of_nat nf))%Q in
    let v := (mantissa * Qpower 10 (read_exponent s3))%Q in
    Some (Qred (if neg then - v else v)%Q).

(** [s.includes('.')] *)
Definition includes_dot (s : jsstring) : bool :=
  existsb (Ascii.eqb ".") s.

Fixpoint until_dot (s : jsstring) : jsstring :=
  match s with
  | c :: t => if Ascii.eqb "." c then [] else c :: until_dot t
  | [] => []
  end.

Fixpoint after_dot (s : jsstring) : jsstring :=
  match s with
  | c :: t => if Ascii.eqb "." c then t else after_dot t
  | [] => []
  end.

(** [hasDecimals ? s.split('.')[1].length : 0] *)
Definition decimals_of (s : jsstring) : nat :=
  if includes_dot s then length (until_dot (after_dot s)) else 0.

Definition digits (n : Z) : jsstring :=
  lit (DecimalString.NilZero.string_of_uint (N.to_uint (Z.to_N n))).

(** A comma before every group of three digits, counted from the right. *)
Fixpoint group_rev (ds : jsstring) (k : nat) : jsstring :=
  match ds with
  | [] => []
  | c :: t =>
      if k =? 3 then ","%char :: c :: group_rev t 1
      else c :: group_rev t (S k)
  end.

Definition group3 (ds : jsstring) : jsstring := rev (group_rev (rev ds) 0).

Definition pad_zeros (d : nat) (ds : jsstring) : jsstring :=
  repeat "0"%char (d - length ds) ++ ds.

(** [v.toLocaleString('en-US', { minimumFractionDigits: d,
    maximumFractionDigits: d })] *)
Definition toLocaleString (v : Q) (d : nat) : jsstring :=
  let unit := (10 ^ Z.of_nat d)%Z in
  let scaled := Qfloor (Qabs v * inject_Z unit + (1 # 2)) in
  (if Qltb v 0 then ["-"%char] else [])
  ++ group3 (digits (scaled / unit))
  ++ (if d =? 0 then [] else "."%char :: pad_zeros d (digits (scaled mod unit))).

(** The ease ['power2.out']. *)
Definition power2_out (p : Q) : Q := (1 - (1 - p) * (1 - p))%Q.

(** The values [obj.value] takes at the updates of
    [gsap.to(obj, { value: target, ... })]: the eased values at the
    sampled progresses, then the end value. *)
Definition tween_values (target : Q) (samples : list Q) : list Q :=
  List.map (fun p => (target * power2_out p)%Q) samples ++ [target].

Record counter_element := {
  counter : jsstring;
  suffix : option jsstring;
  text : jsstring
}.

(** [el.dataset.suffix || ''] *)
Definition suffix_or_empty (el : counter_element) : jsstring :=
  match suffix el with Some s => s | None => [] end.

(** [onUpdate] *)
Definition onUpdate (d : nat) (el : counter_element) (v : Q) : counter_element :=
  {| counter := counter el; suffix := suffix el;
     text := toLocaleString v d ++ suffix_or_empty el |}.

(** The element after the trigger of [initStatsCounters] has fired, with the
    animation library present, and the tween has made its updates. *)
Definition animate_counter (hasScrollTrigger : bool) (samples : list Q)
    (el : counter_element) : counter_element :=
  if negb hasScrollTrigger then el
  else
    match parseFloat (counter el) with
    | None => el
    | Some target =>
        fold_left (onUpdate (decimals_of (counter el))) (tween_values target samples) el
    end.

End Counter.

(** * The scroll-linked reveal ([initScrollAnimations], v6.0)

    [ScrollTrigger.batch(selector, { onEnter, once: true })] belongs to the
    animation library.  Its contract is modelled: one trigger for every
    element the selector matches; the elements whose triggers are crossed
    together are handed to [onEnter] as one batch; with [once: true] a
    trigger is removed when it has fired. *)

Module Reveal.

Record element := {
  dataAnimate : bool;
  projectCard : bool
}.

Record state := {
  animated : gset nat;
  revealLive : gset nat;
  cardLive : gset nat;
  revealTweens : list (list nat);
  cardTweens : list (list nat);
  waiting : list (list nat)
}.

Inductive event :=
| EnterReveal (els : gset nat)
| EnterCards (els : gset nat)
| TweenStart (k : nat).

Definition matching (p : element -> bool) (els : list element) : gset nat :=
  list_to_set (List.filter (fun i => match els !! i with Some e => p e | None => false end)
                 (seq 0 (length els))).

(** The two registrations of [initScrollAnimations]. *)
Definition initScrollAnimations (hasScrollTrigger : bool) (els : list element) : state :=
  if negb hasScrollTrigger then
    {| animated := ∅; revealLive := ∅; cardLive := ∅;
       revealTweens := []; cardTweens := []; waiting := [] |}
  else
    {| animated := ∅; revealLive := matching dataAnimate els;
       cardLive := matching projectCard els;
       revealTweens := []; cardTweens := []; waiting := [] |}.

(** [onEnter] of the ['[data-animate]'] batch: the tween is created for
    the whole batch; its [onStart] will flag the elements. *)
Definition reveal_onEnter (batch : list nat) (s : state) : state :=
  {| animated := animated s; revealLive := revealLive s; cardLive := cardLive s;
     revealTweens := revealTweens s ++ [batch]; cardTweens := cardTweens s;
     waiting := waiting s ++ [batch] |}.

(** [onEnter] of the ['.project-card'] batch: flagged elements are left
    out. *)
Definition card_onEnter (batch : list nat) (s : state) : state :=
  let toAnimate := List.filter (fun el => negb (bool_decide (el ∈ animated s))) batch in
  if length toAnimate =? 0 then s
  else
    {| animated := animated s; revealLive := revealLive s; cardLive := cardLive s;
       revealTweens := revealTweens s; cardTweens := cardTweens s ++ [toAnimate];
       waiting := waiting s ++ [toAnimate] |}.

(** The library: the crossed triggers that are still alive make the batch
    and are removed. *)
Definition enter_reveal (els : gset nat) (s : state) : state :=
  let batch := elements (els ∩ revealLive s) in
  if length batch =? 0 then s
  else
    reveal_onEnter batch
      {| animated := animated s; revealLive := revealLive s ∖ els;
         cardLive := cardLive s; revealTweens := revealTweens s;
         cardTweens := cardTweens s; waiting := waiting s |}.

Definition enter_cards (els : gset nat) (s : state) : state :=
  let batch := elements (els ∩ cardLive s) in
  if length batch =? 0 then s
  else
    card_onEnter batch
      {| animated := animated s; revealLive := revealLive s;
         cardLive := cardLive s ∖ els; revealTweens := revealTweens s;
         cardTweens := cardTweens s; waiting := waiting s |}.

(** [onStart] of the [k]-th tween that has not started yet:
    [el.dataset.animated = 'true'] for its elements. *)
Definition tween_start (k : nat) (s : state) : state :=
  match waiting s !! k with
  | None => s
  | Some batch =>
      {| animated := animated s ∪ list_to_set batch; revealLive := revealLive s;
         cardLive := cardLive s; revealTweens := revealTweens s;
         cardTweens := cardTweens s; waiting := delete k (waiting s) |}
  end.

Definition handle (e : event) (s : state) : state :=
  match e with
  | EnterReveal els => enter_reveal els s
  | EnterCards els => enter_cards els s
  | TweenStart k => tween_start k s
  end.

Definition run (evs : list event) (s : state) : state :=
  fold_left (fun s e => handle e s) evs s.

(** How many tweens of a list animate the element [el]. *)
Definition times_in (el : nat) (tweens : list (list nat)) : nat :=
  length (List.filter (fun batch => bool_decide (el ∈ batch)) tweens).


Definition card_count (el : nat) (s : state) : nat := times_in el (cardTweens s).


End Reveal.

(** ** Sample documents *)

Definition demo : config :=
  {| titles := [lit "Home"; lit "About"]; hasMenuButton := true; hasMenuPanel := true;
     hasProgressBar := true; smoothScroll := true; rng := fun _ => 0%Q |}.

Definition demo_v4 : V4.config :=
  {| V4.sections := 2; V4.lenis := true; V4.rng := fun _ => 0%Q |}.

Definition demo_env : Boot.env :=
  {| Boot.gsap := false; Boot.ScrollTrigger := false; Boot.Lenis := false;
     Boot.loaders := 1; Boot.criticalImages := 1; Boot.imagesSettle := true;
     Boot.island := true; Boot.islandThrows := false;
     Boot.menuToggle := true; Boot.menuOverlay := true;
     Boot.heroTitle := true; Boot.heroImage := true; Boot.heroSubtitle := true;
     Boot.heroStats := true; Boot.aboveFold := 2 |}.

Definition demo_page : list Reveal.element :=
  [ {| Reveal.dataAnimate := true; Reveal.projectCard := false |};
    {| Reveal.dataAnimate := true; Reveal.projectCard := true |};
    {| Reveal.dataAnimate := false; Reveal.projectCard := true |} ].

Definition busy_v4 : V4.world :=
  {| V4.st := {| V4.idx := 0; V4.expanded := false; V4.menu := false;
                 V4.isAnimating := true; V4.idleTimeout := None;
                 V4.morphTimeout := None |};
     V4.textContent := []; V4._id := None; V4.timers := ∅; V4.nextTimer := 1%positive;
     V4.drawn := 0; V4.scrolls := [] |}.

Definition native_scroll_env : Boot.env :=
  {| Boot.gsap := true; Boot.ScrollTrigger := true; Boot.Lenis := false;
     Boot.loaders := 1; Boot.criticalImages := 0; Boot.imagesSettle := true;
     Boot.island := true; Boot.islandThrows := false;
     Boot.menuToggle := true; Boot.menuOverlay := true;
     Boot.heroTitle := true; Boot.heroImage := false; Boot.heroSubtitle := false;
     Boot.heroStats := false; Boot.aboveFold := 0 |}.

(** * Further notions for the navigator

    The discipline of the timer table: a handle field of the navigator state
    is for one kind of timer; the table never holds a timer of that kind
    under another handle. *)

Definition is_collapse (t : timer) : bool :=
  match t with CollapseTimeout => true | _ => false end.

Definition is_unlock (t : timer) : bool :=
  match t with UnlockTimeout => true | _ => false end.

(** Every handle in the table has been handed out. *)
Definition table_fresh (m : gmap positive timer) (n : positive) : Prop :=
  forall h t, m !! h = Some t -> (h < n)%positive.

(** The field holds a handle that was handed out; a timer under that handle
    is of the kind of the field; and every timer of that kind is under that
    handle. *)
Definition field_wf (kind : timer -> bool) (field : option positive)
    (m : gmap positive timer) (n : positive) : Prop :=
  (forall h, field = Some h -> (h < n)%positive)
  /\ (forall h t, field = Some h -> m !! h = Some t -> kind t = true)
  /\ (forall h t, m !! h = Some t -> kind t = true -> field = Some h).

Definition none_of (kind : timer -> bool) (m : gmap positive timer) : Prop :=
  forall h t, m !! h = Some t -> kind t = false.

(** [isAnimating] is set exactly while the timeout that resets it is
    pending, and there is one such timeout at most. *)
Definition lock_ok (animating : bool) (m : gmap positive timer) : Prop :=
  (animating = true <-> exists h, m !! h = Some UnlockTimeout)
  /\ (forall h1 h2, m !! h1 = Some UnlockTimeout -> m !! h2 = Some UnlockTimeout ->
        h1 = h2).

Definition table_wf (w : world) : Prop :=
  table_fresh (timers w) (nextTimer w)
  /\ field_wf is_collapse (idleTimeout (st w)) (timers w) (nextTimer w)
  /\ field_wf is_scramble (scrambleInterval (st w)) (timers w) (nextTimer w)
  /\ field_wf is_morph (morphTimeout (st w)) (timers w) (nextTimer w)
  /\ lock_ok (isAnimating (st w)) (timers w).

(** No idle timeout is pending while the island is expanded. *)
Definition quiet_when_expanded (w : world) : Prop :=
  isExpanded (st w) = true -> none_of is_morph (timers w).

Definition timers_wf (w : world) : Prop := table_wf w /\ quiet_when_expanded w.

(** A step that neither expands the island nor arms an idle timeout while
    the island is expanded. *)
Definition keeps_quiet (w w' : world) : Prop :=
  isExpanded (st w') = isExpanded (st w)
  /\ (isExpanded (st w) = true -> none_of is_morph (timers w) ->
      none_of is_morph (timers w')).

(** At most one timer of a kind. *)
Definition at_most_one (kind : timer -> bool) (w : world) : Prop :=
  forall h1 h2 t1 t2,
    timers w !! h1 = Some t1 -> kind t1 = true ->
    timers w !! h2 = Some t2 -> kind t2 = true -> h1 = h2.

(** The section a scroll request asks for. *)
Definition scroll_target (r : scroll_request) : Z :=
  match r with
  | LenisScrollTo k | ScrollIntoView k | GsapScrollTo k => k
  end.

Definition scrolls_in_range (cfg : config) (w : world) : Prop :=
  Forall (fun r => (0 <= scroll_target r < Z.of_nat (length (titles cfg)))%Z) (scrolls w).

(** * PerformanceManager (v6.0; [observe], [debounce] and [throttleRAF] are
    the same in the v5.0 draft)

    Functions are compared by identity in the [Set] of [throttleRAF]; a
    function object is therefore a positive number here, handed out anew each
    time a function expression is evaluated.  Timers are as in the navigator:
    a table keyed by handles that are never reused. *)

Module Perf.

(** ** [debounce(func, wait)]

    The closure [debounce] returns holds [timeout]; [pending] is the part of
    the host's timer table with the timeouts this closure has set, each with
    the arguments its [later] will pass on, and [invoked] lists the calls of
    [func] made so far. *)

Section Debounce.
Variable A : Type.

Record debounced := {
  timeout : option positive;
  pending : gmap positive A;
  nextHandle : positive;
  invoked : list A
}.

(** [clearTimeout(timeout)]: nothing happens for [undefined] and for a
    handle that is not in the table. *)
Definition clearTimeout (t : option positive) (m : gmap positive A) : gmap positive A :=
  match t with
  | Some h => delete h m
  | None => m
  end.

(** [executedFunction(...args)] *)
Definition executedFunction (args : A) (s : debounced) : debounced :=
  {| timeout := Some (nextHandle s);
     pending := <[nextHandle s := args]> (clearTimeout (timeout s) (pending s));
     nextHandle := Pos.succ (nextHandle s);
     invoked := invoked s |}.

(** [later] of the call with [args] *)
Definition later (args : A) (s : debounced) : debounced :=
  {| timeout := timeout s;
     pending := clearTimeout (timeout s) (pending s);
     nextHandle := nextHandle s;
     invoked := invoked s ++ [args] |}.

(** The host runs the timeout [h], if it is still in the table. *)
Definition expire (h : positive) (s : debounced) : debounced :=
  match pending s !! h with
  | None => s
  | Some args =>
      later args {| timeout := timeout s; pending := delete h (pending s);
                    nextHandle := nextHandle s; invoked := invoked s |}
  end.

Inductive call :=
| Invoke (args : A)
| Expire (h : positive).

Definition step (s : debounced) (e : call) : debounced :=
  match e with
  | Invoke args => executedFunction args s
  | Expire h => expire h s
  end.

Definition steps (es : list call) (s : debounced) : debounced := fold_left step es s.

(** The closure as [debounce] returns it. *)
Definition debounce : debounced :=
  {| timeout := None; pending := ∅; nextHandle := 1%positive; invoked := [] |}.

(** Every timeout of the closure that is still in the table is the one the
    closure holds, and its handle has been handed out. *)
Definition single_slot (s : debounced) : Prop :=
  (forall h args, pending s !! h = Some args -> timeout s = Some h)
  /\ (forall h, timeout s = Some h -> (h < nextHandle s)%positive).

End Debounce.

Arguments timeout {A} _.
Arguments pending {A} _.
Arguments nextHandle {A} _.
Arguments invoked {A} _.
Arguments executedFunction {A} _ _.
Arguments later {A} _ _.
Arguments expire {A} _ _.
Arguments Invoke {A} _.
Arguments Expire {A} _.
Arguments step {A} _ _.
Arguments steps {A} _ _.
Arguments single_slot {A} _.

(** ** [throttleRAF(callback)]

    [frameQueue] holds the callbacks given to [requestAnimationFrame] for the
    next frame, in the order of the requests; [ran] lists the calls of
    throttled callbacks made so far. *)

Record raf := {
  rafCallbacks : gset positive;
  frameQueue : list positive;
  ran : list positive
}.

Definition throttleRAF (callback : positive) (s : raf) : raf :=
  if bool_decide (callback ∈ rafCallbacks s) then s
  else
    {| rafCallbacks := rafCallbacks s ∪ {[callback]};
       frameQueue := frameQueue s ++ [callback];
       ran := ran s |}.

(** The function given to [requestAnimationFrame]: [callback()], then
    [this.rafCallbacks.delete(callback)]. *)
Definition run_callback (s : raf) (callback : positive) : raf :=
  {| rafCallbacks := rafCallbacks s ∖ {[callback]};
     frameQueue := frameQueue s;
     ran := ran s ++ [callback] |}.

(** A frame: the host runs the callbacks queued for it. *)
Definition frame (s : raf) : raf :=
  fold_left run_callback (frameQueue s)
    {| rafCallbacks := rafCallbacks s; frameQueue := []; ran := ran s |}.

Inductive raf_event :=
| Throttle (callback : positive)
| Frame.

Definition raf_step (s : raf) (e : raf_event) : raf :=
  match e with
  | Throttle callback => throttleRAF callback s
  | Frame => frame s
  end.

Definition raf_steps (es : list raf_event) (s : raf) : raf := fold_left raf_step es s.

Definition idle : raf := {| rafCallbacks := ∅; frameQueue := []; ran := [] |}.

(** The set holds the callbacks that wait for the frame, each once. *)
Definition queue_is_set (s : raf) : Prop :=
  NoDup (frameQueue s) /\ forall callback, callback ∈ rafCallbacks s <-> callback ∈ frameQueue s.

(** ** [initBloomEffects]: the [onUpdate] of one trigger

    [progress] is [self.progress], which the library sets before it calls
    [onUpdate]; the arrow function passed to [throttleRAF] is evaluated at
    every call of [onUpdate] and reads [self.progress] when it runs;
    [brightness] is the factor it writes into [el.style.filter] and [writes]
    counts these writes. *)

Record bloom := {
  progress : Q;
  brightness : option Q;
  writes : nat;
  perf : raf;
  nextClosure : positive
}.

Definition onUpdate (p : Q) (b : bloom) : bloom :=
  {| progress := p; brightness := brightness b; writes := writes b;
     perf := throttleRAF (nextClosure b) (perf b);
     nextClosure := Pos.succ (nextClosure b) |}.

Definition bloom_callback (b : bloom) (callback : positive) : bloom :=
  {| progress := progress b;
     brightness := Some (1 + progress b * (2 # 10))%Q;
     writes := S (writes b);
     perf := run_callback (perf b) callback;
     nextClosure := nextClosure b |}.

Definition bloom_frame (b : bloom) : bloom :=
  fold_left bloom_callback (frameQueue (perf b))
    {| progress := progress b; brightness := brightness b; writes := writes b;
       perf := {| rafCallbacks := rafCallbacks (perf b); frameQueue := [];
                  ran := ran (perf b) |};
       nextClosure := nextClosure b |}.

Definition updates (ps : list Q) (b : bloom) : bloom :=
  fold_left (fun b p => onUpdate p b) ps b.

(** Closures still to be made are not in the set. *)
Definition closures_fresh (b : bloom) : Prop :=
  forall callback, callback ∈ rafCallbacks (perf b) -> (callback < nextClosure b)%positive.

(** ** [isInViewport(element, threshold)] *)

Record rect := {
  top : Q;
  left : Q;
  width : Q;
  height : Q
}.

Record window := {
  innerHeight : Q;
  innerWidth : Q;
  clientHeight : Q;
  clientWidth : Q
}.

(** [a || b] on numbers: [0] is falsy. *)
Definition or_else (a b : Q) : Q := if Qeq_bool a 0 then b else a.

Definition isInViewport (element : option rect) (threshold : Q) (v : window) : bool :=
  match element with
  | None => false
  | Some r =>
      let windowHeight := or_else (innerHeight v) (clientHeight v) in
      let windowWidth := or_else (innerWidth v) (clientWidth v) in
      let vertInView := Qle_bool (top r) windowHeight && Qle_bool 0 (top r + height r) in
      let horInView := Qle_bool (left r) windowWidth && Qle_bool 0 (left r + width r) in
      vertInView && horInView
  end.

(** The point [(x, y)] lies in the rectangle and in the viewport. *)
Definition shared_point (r : rect) (v : window) (x y : Q) : Prop :=
  (left r <= x /\ x <= left r + width r /\ top r <= y /\ y <= top r + height r
   /\ 0 <= x /\ x <= or_else (innerWidth v) (clientWidth v)
   /\ 0 <= y /\ y <= or_else (innerHeight v) (clientHeight v))%Q.

(** ** [observe(element, callback, options)]

    The observers are cached under [JSON.stringify(options)]; [K] is the
    type of these keys.  An observer is the callback it was constructed with
    and the elements it observes. *)

Section Observe.
Context {K : Type} {EqK : EqDecision K} {CountK : Countable K}.

Record observer := {
  callback : positive;
  observed : gset positive
}.

Definition add_element (element : positive) (o : observer) : observer :=
  {| callback := callback o; observed := observed o ∪ {[element]} |}.

Definition observe (observers : gmap K observer) (c : positive * positive * K)
    : gmap K observer :=
  let '(element, cb, key) := c in
  let observers1 :=
    match observers !! key with
    | None => <[key := {| callback := cb; observed := ∅ |}]> observers
    | Some _ => observers
    end in
  alter (add_element element) key observers1.

(** The callback of the first call with the key, and the elements of all
    calls with it. *)
Definition first_callback (key : K) (calls : list (positive * positive * K))
    : option positive :=
  match List.filter (fun c => bool_decide (snd c = key)) calls with
  | c :: _ => Some (snd (fst c))
  | [] => None
  end.

Definition elements_of (key : K) (calls : list (positive * positive * K)) : gset positive :=
  list_to_set (List.map (fun c => fst (fst c))
                 (List.filter (fun c => bool_decide (snd c = key)) calls)).

End Observe.

End Perf.

(** * Hover effects ([initHoverEffects], v6.0)

    The two delegated listeners.  An event carries the closest card and the
    closest button of its target, if any; for [mouseout] each comes with
    whether it contains the related target.  [hovering] is the set of
    elements whose [dataset.hovering] is set and [calls] lists the calls of
    [handleCardHover] and [handleButtonHover]. *)

Module Hover.

Inductive kind := Card | Button.

Record state := {
  hovering : gset positive;
  calls : list (kind * positive * bool)
}.

Definition over_one (k : kind) (target : option positive) (s : state) : state :=
  match target with
  | None => s
  | Some el =>
      if bool_decide (el ∈ hovering s) then s
      else {| hovering := hovering s ∪ {[el]}; calls := calls s ++ [(k, el, true)] |}
  end.

Definition out_one (k : kind) (target : option (positive * bool)) (s : state) : state :=
  match target with
  | None => s
  | Some (el, containsRelated) =>
      if bool_decide (el ∈ hovering s) && negb containsRelated then
        {| hovering := hovering s ∖ {[el]}; calls := calls s ++ [(k, el, false)] |}
      else s
  end.

Inductive event :=
| MouseOver (card button : option positive)
| MouseOut (card button : option (positive * bool)).

Definition handle (s : state) (e : event) : state :=
  match e with
  | MouseOver card button => over_one Button button (over_one Card card s)
  | MouseOut card button => out_one Button button (out_one Card card s)
  end.

Definition run (evs : list event) (s : state) : state := fold_left handle evs s.

Definition init : state := {| hovering := ∅; calls := [] |}.

(** The calls made for one element: entering or leaving. *)
Definition calls_for (el : positive) (s : state) : list bool :=
  List.map snd (List.filter (fun c => bool_decide (snd (fst c) = el)) (calls s)).

(** A list of calls that alternates, and the call expected next: [None] if
    it does not alternate from [next]. *)
Fixpoint alternates (next : bool) (l : list bool) : option bool :=
  match l with
  | [] => Some next
  | b :: t => if Bool.eqb b next then alternates (negb next) t else None
  end.

(** The calls for every element alternate, the first being an entry, and
    the element is flagged exactly when the last was an entry. *)
Definition in_step (s : state) : Prop :=
  forall el, alternates true (calls_for el s)
             = Some (negb (bool_decide (el ∈ hovering s))).

End Hover.

(** * Page transitions ([transitionToPage], v5.0)

    [fetch] and the reading of the response belong to the host: for a URL
    they settle with the title and, if it has one, the [.page-content] of
    the document fetched, or reject.  The timelines of [animatePageExit] and
    [animatePageEnter] complete, the library being present whenever the
    transitions are installed: [shown] is whether the content is at the
    opacity the last of them left. *)

Module Transition.

Record fetched := {
  newTitle : jsstring;
  newContent : option jsstring
}.

Record doc := {
  isTransitioning : bool;
  content : option jsstring;
  title : jsstring;
  history : list jsstring;
  shown : bool;
  reinitialized : nat
}.

Inductive outcome :=
| Resolved (d : doc)
| Rejected (d : doc).

Definition final (r : outcome) : doc :=
  match r with Resolved d | Rejected d => d end.

Definition set_transitioning (b : bool) (d : doc) : doc :=
  {| isTransitioning := b; content := content d; title := title d;
     history := history d; shown := shown d; reinitialized := reinitialized d |}.

Definition set_shown (b : bool) (d : doc) : doc :=
  {| isTransitioning := isTransitioning d; content := content d; title := title d;
     history := history d; shown := b; reinitialized := reinitialized d |}.

Definition animatePageExit (d : doc) : doc := set_shown false d.

Definition animatePageEnter (d : doc) : doc := set_shown true d.

(** Phases 3 and 4 for a document that has the content on both sides. *)
Definition swap (url : jsstring) (updateHistory : bool) (f : fetched) (c : jsstring)
    (d : doc) : doc :=
  {| isTransitioning := isTransitioning d; content := Some c; title := newTitle f;
     history := if updateHistory then history d ++ [url] else history d;
     shown := shown d; reinitialized := S (reinitialized d) |}.

Definition transitionToPage (fetch : jsstring -> option fetched) (url : jsstring)
    (updateHistory : bool) (d : doc) : outcome :=
  if isTransitioning d then Resolved d
  else
    let d1 := animatePageExit (set_transitioning true d) in
    match fetch url with
    | None => Rejected d1
    | Some f =>
        let d2 :=
          match newContent f, content d1 with
          | Some c, Some _ => animatePageEnter (swap url updateHistory f c d1)
          | _, _ => d1
          end in
        Resolved (set_transitioning false d2)
    end.

(** [href.startsWith(p)] *)
Fixpoint startsWith (p s : jsstring) : bool :=
  match p, s with
  | [], _ => true
  | a :: p', b :: s' => Ascii.eqb a b && startsWith p' s'
  | _ :: _, [] => false
  end.

(** The click listener of [initPageTransitions] for a click inside a link:
    [None] when the listener returns before [preventDefault], so that the
    browser follows the link. *)
Definition click_link (fetch : jsstring -> option fetched) (href : jsstring) (d : doc)
    : option outcome :=
  if startsWith (lit "http") href || startsWith (lit "#") href then None
  else Some (transitionToPage fetch href true d).

End Transition.

(** * The resize listener of the v4.0 draft ([handleResize])

    [ticking] is the variable of the closure, [requested] the number of
    callbacks given to [requestAnimationFrame] that have not run yet and
    [refreshes] the number of calls of [ScrollTrigger.refresh()]. *)

Module Resize.

Record state := {
  ticking : bool;
  requested : nat;
  refreshes : nat
}.

(** The listener of [resize]. *)
Definition on_resize (s : state) : state :=
  if ticking s then s
  else {| ticking := true; requested := S (requested s); refreshes := refreshes s |}.

(** The function given to [requestAnimationFrame]. *)
Definition callback (s : state) : state :=
  {| ticking := false; requested := requested s; refreshes := S (refreshes s) |}.

(** A frame: the host runs the callbacks requested for it. *)
Definition frame (s : state) : state :=
  Nat.iter (requested s) callback
    {| ticking := ticking s; requested := 0; refreshes := refreshes s |}.

Inductive event := ResizeEvent | Frame.

Definition handle (s : state) (e : event) : state :=
  match e with
  | ResizeEvent => on_resize s
  | Frame => frame s
  end.

Definition run (evs : list event) (s : state) : state := fold_left handle evs s.

Definition init : state := {| ticking := false; requested := 0; refreshes := 0 |}.

Definition frames (evs : list event) : nat :=
  length (List.filter (fun e => match e with Frame => true | ResizeEvent => false end) evs).

End Resize.
(** * Rounding

    The code computes with doubles, the embedding with exact rationals.  The
    statements about the reveal test of [ScrambleText] compare two quantities
    only when they differ by more than the rounding of the doubles that
    produced them: the two literals and the two products of
    [duration * 0.8 * 60], the quotient [frame / totalFrames] and the product
    [newText.length * progress] are each correct to one part in [2^53]; the
    allowance is one part in [2^50]. *)

Definition rounding : Q := 1 # 1125899906842624.

(** [a] is below [b] by more than the allowance (for [a >= 0]). *)
Definition clearly_below (a b : Q) : bool := Qltb (a * (1 + rounding)) b.

(** The draw [u] gives the index [k] of [n] by
    [Math.floor(Math.random() * n)], up to the rounding of the product. *)
Definition selects (n : nat) (k : Z) (u : Q) : Prop :=
  (inject_Z k <= u * inject_Z (Z.of_nat n) * (1 + rounding)
   /\ u * inject_Z (Z.of_nat n) < inject_Z (k + 1) * (1 + rounding))%Q.

(** The same tests on doubles, for the run that [updateText] starts with
    [scramble(newText.toUpperCase(), 0.6)]. *)
Set Warnings "-inexact-float".

Definition labelDuration : float := 0.6%float.

Definition double_of_nat (n : nat) : float :=
  PrimFloat.of_uint63 (Uint63.of_Z (Z.of_nat n)).

(** [scrambleDuration * 60] with [scrambleDuration = duration * 0.8] *)
Definition totalFrames_double (duration : float) : float :=
  (duration * 0.8 * 60)%float.

(** [i < newText.length * progress] with [progress = frame / totalFrames] *)
Definition revealed_double (duration : float) (newLen frame i : nat) : bool :=
  let progress := (double_of_nat frame / totalFrames_double duration)%float in
  PrimFloat.ltb (double_of_nat i) (double_of_nat newLen * progress)%float.

(** [frame >= totalFrames] *)
Definition frames_done_double (duration : float) (frame : nat) : bool :=
  PrimFloat.leb (totalFrames_double duration) (double_of_nat frame).

(** The doubles decide a position as the rationals do wherever the
    rationals are clear. *)
Definition double_agrees (duration : float) (total : Q) (newLen frame i : nat) : bool :=
  let x := (inject_Z (Z.of_nat newLen) * (inject_Z (Z.of_nat frame) / total))%Q in
  let at_i := inject_Z (Z.of_nat i) in
  (if clearly_below at_i x then revealed_double duration newLen frame i else true)
  && (if clearly_below x at_i then negb (revealed_double duration newLen frame i) else true).

(** * A second title while a run is in flight *)

(** The code units of the ASCII range, on which [toUpperCase] above is the
    [toUpperCase] of the language. *)
Definition ascii_only (s : jsstring) : bool :=
  forallb (fun c => nat_of_ascii c <? 128) s.

(** The specification's account of two titles given to [updateText] one
    after the other on the state [w]: the call for the second cancels the
    interval of the run to the first, and when the interval the navigator
    then holds has run its ticks the node shows the second title. *)
Definition last_write_wins (cfg : config) (w : world) (first second : jsstring) : Prop :=
  let w1 := updateText cfg first w in
  let w2 := updateText cfg second w1 in
  (forall h t, timers w1 !! h = Some t -> is_scramble t = true -> timers w2 !! h = None)
  /\ (forall h, scrambleInterval (st w2) = Some h ->
        textContent (page (fires cfg h (ticks_needed (total_frames (6 # 10))) w2))
        = toUpperCase second).

(** * The entrance of the marked elements

    [initCriticalAnimations] calls [animateAboveFold], which tweens the
    marked elements that are in the viewport at load with [animateElement];
    the idle callback of [initDeferredAnimations] then calls
    [initScrollAnimations], which registers the two batches on the same
    document. *)

Module Entrance.

Record element := {
  marks : Reveal.element;
  dataAnimateDefer : bool;
  inViewport : bool
}.

(** The elements tweened at load, in order, and the state of the batches. *)
Record state := {
  aboveFoldTweens : list nat;
  scroll : Reveal.state
}.

(** [animateElement(element, immediate)]: one [gsap.fromTo] on the element,
    nothing without the animation library.  [dataset.animated] is neither
    read nor written. *)
Definition animateElement (hasGsap : bool) (el : nat) : list nat :=
  if negb hasGsap then [] else [el].

(** [animateAboveFold]: the elements matching
    ['[data-animate]:not([data-animate-defer])'] that [isInViewport]
    accepts. *)
Definition animateAboveFold (hasGsap : bool) (els : list element) : list nat :=
  flat_map (fun i =>
              match els !! i with
              | Some e =>
                  if Reveal.dataAnimate (marks e) && negb (dataAnimateDefer e)
                  then if inViewport e then animateElement hasGsap i else []
                  else []
              | None => []
              end) (seq 0 (length els)).


Definition handle (e : Reveal.event) (s : state) : state :=
  {| aboveFoldTweens := aboveFoldTweens s; scroll := Reveal.handle e (scroll s) |}.

Definition run (evs : list Reveal.event) (s : state) : state :=
  fold_left (fun s e => handle e s) evs s.





End Entrance.


(** * Properties *)

(** Case analysis on every test and every scrutinee of the goal. *)
Ltac split_cases :=
  repeat match goal with
    | |- context [if ?b then _ else _] => destruct b
    | |- context [match ?x with _ => _ end] => destruct x
    end.

(** ** The scramble run (v6.0) *)
Lemma frames_done_spec (f : nat) (total : Q) :
  frames_done f total = true <-> (Qceiling total <= Z.of_nat f)%Z.
Proof.
  unfold frames_done. rewrite Qle_bool_iff. split; intros H.
  - apply Qceiling_resp_le in H. now rewrite Qceiling_Z in H.
  - apply Qle_trans with (inject_Z (Qceiling total)); [apply Qle_ceiling|].
    now rewrite <- Zle_Qle.
Qed.

Lemma frames_done_before (f : nat) (total : Q) :
  S f < ticks_needed total -> frames_done (S f) total = false.
Proof.
  intros H. destruct (frames_done (S f) total) eqn:E; [|reflexivity].
  apply frames_done_spec in E. unfold ticks_needed in H. lia.
Qed.

Lemma frames_done_at (total : Q) :
  frames_done (ticks_needed total) total = true.
Proof. apply frames_done_spec. unfold ticks_needed. lia. Qed.

Lemma fire_absent cfg h w : timers w !! h = None -> fire cfg h w = w.
Proof. intros H. unfold fire. now rewrite H. Qed.

Lemma fires_absent cfg h n w : timers w !! h = None -> fires cfg h n w = w.
Proof.
  intros H. unfold fires. induction n as [|n IH]; simpl; [reflexivity|].
  rewrite IH. now apply fire_absent.
Qed.

Lemma fires_S cfg h n w : fires cfg h (S n) w = fire cfg h (fires cfg h n w).
Proof. reflexivity. Qed.

Lemma scramble_tick_running cfg h newText maxLength total frame w :
  frames_done (S frame) total = false ->
  timers (scramble_tick cfg h newText maxLength total frame w) !! h
    = Some (ScrambleInterval newText maxLength total (S frame)).
Proof.
  intros H. unfold scramble_tick.
  destruct (scramble_frame _ _ _ _ _) as [scrambled r]. rewrite H. simpl.
  apply lookup_insert_eq.
Qed.

Lemma scramble_tick_final cfg h newText maxLength total frame w :
  frames_done (S frame) total = true ->
  let w' := scramble_tick cfg h newText maxLength total frame w in
  textContent (page w') = newText /\ timers w' !! h = None.
Proof.
  intros H. unfold scramble_tick.
  destruct (scramble_frame _ _ _ _ _) as [scrambled r]. rewrite H. simpl.
  split; [reflexivity|]. apply lookup_delete_eq.
Qed.

Lemma fires_running cfg h newText maxLength total w k :
  timers w !! h = Some (ScrambleInterval newText maxLength total 0) ->
  k < ticks_needed total ->
  timers (fires cfg h k w) !! h = Some (ScrambleInterval newText maxLength total k).
Proof.
  intros Hw. induction k as [|k IH]; intros Hk; [exact Hw|].
  rewrite fires_S. unfold fire at 1. rewrite IH by lia.
  apply scramble_tick_running. now apply frames_done_before.
Qed.
Lemma fires_complete cfg h newText maxLength total w :
  timers w !! h = Some (ScrambleInterval newText maxLength total 0) ->
  let w' := fires cfg h (ticks_needed total) w in
  textContent (page w') = newText /\ timers w' !! h = None.
Proof.
  intros Hw.
  assert (Hn : exists k, ticks_needed total = S k).
  { unfold ticks_needed. destruct (Nat.max 1 (Z.to_nat (Qceiling total))) eqn:E; [lia|eauto]. }
  destruct Hn as [k Hk]. cbn zeta. rewrite Hk, fires_S. unfold fire.
  rewrite (fires_running _ _ _ _ _ _ k Hw) by lia.
  apply scramble_tick_final. rewrite <- Hk. apply frames_done_at.
Qed.

Lemma scramble_starts newText duration w :
  timers (snd (scramble newText duration w)) !! fst (scramble newText duration w)
  = Some (ScrambleInterval newText
            (Nat.max (length (textContent (page w))) (length newText))
            (total_frames duration) 0).
Proof. unfold scramble, set_timer. cbn. apply lookup_insert_eq. Qed.

(** ** The frames of a run (v6.0) *)
Lemma Qltb_lt (a b : Q) : Qltb a b = true <-> (a < b)%Q.
Proof.
  unfold Qltb. rewrite negb_true_iff. split; intros H.
  - apply Qnot_le_lt. intros Hle. apply Qle_bool_iff in Hle. congruence.
  - destruct (Qle_bool b a) eqn:E; [|reflexivity].
    apply Qle_bool_iff in E. exfalso. now apply (Qlt_not_le a b).
Qed.

Lemma Qltb_ge (a b : Q) : Qltb a b = false <-> (b <= a)%Q.
Proof.
  unfold Qltb. rewrite negb_false_iff. apply Qle_bool_iff.
Qed.

Lemma frames_not_done_lt f total :
  frames_done f total = false -> (inject_Z (Z.of_nat f) < total)%Q.
Proof.
  unfold frames_done. intros H. apply Qnot_le_lt. intros Hle.
  apply Qle_bool_iff in Hle. congruence.
Qed.

Lemma running_total_pos f total :
  frames_done f total = false -> (0 < total)%Q.
Proof.
  intros H. apply frames_not_done_lt in H.
  eapply Qle_lt_trans; [|exact H]. rewrite <- (Zle_Qle 0). lia.
Qed.

Lemma revealed_running newLen f total i :
  frames_done f total = false ->
  revealed newLen (progress_of f total) i
  = reveals newLen (inject_Z (Z.of_nat f) / total) i.
Proof.
  intros H. pose proof (running_total_pos _ _ H) as Hpos.
  unfold revealed, progress_of, js_of_nat, js_div.
  destruct (Qeq_bool total 0) eqn:E.
  - apply Qeq_bool_iff in E. rewrite E in Hpos. now apply Qlt_irrefl in Hpos.
  - reflexivity.
Qed.

Lemma running_progress f total :
  frames_done f total = false ->
  (0 <= inject_Z (Z.of_nat f) / total /\ inject_Z (Z.of_nat f) / total <= 1)%Q.
Proof.
  intros H. pose proof (running_total_pos _ _ H) as Hpos.
  apply frames_not_done_lt in H. split.
  - apply Qle_shift_div_l; [exact Hpos|]. rewrite Qmult_0_l. rewrite <- (Zle_Qle 0). lia.
  - apply Qle_shift_div_r; [exact Hpos|]. rewrite Qmult_1_l. now apply Qlt_le_weak.
Qed.

Lemma reveals_in_target newLen (p : Q) i :
  (0 <= p)%Q -> (p <= 1)%Q -> reveals newLen p i = true -> i < newLen.
Proof.
  intros H0 H1 H. apply Qltb_lt in H.
  assert (Hle : (inject_Z (Z.of_nat newLen) * p <= inject_Z (Z.of_nat newLen))%Q).
  { rewrite <- (Qmult_1_r (inject_Z (Z.of_nat newLen))) at 2.
    apply Qmult_le_compat_nonneg.
    - split; [rewrite <- (Zle_Qle 0); lia|apply Qle_refl].
    - split; assumption. }
  pose proof (Qlt_le_trans _ _ _ H Hle) as Hlt.
  rewrite <- Zlt_Qlt in Hlt. lia.
Qed.

Lemma random_index_range cfg r len :
  (0 <= rng cfg r)%Q -> (rng cfg r < 1)%Q ->
  (0 <= random_index cfg r len < Z.of_nat len)%Z \/ len = 0.
Proof.
  intros H0 H1. unfold random_index, js_floor.
  destruct len as [|len]; [now right|left].
  set (n := inject_Z (Z.of_nat (S len))).
  assert (Hn : (0 < n)%Q) by (subst n; rewrite <- (Zlt_Qlt 0); lia).
  split.
  - rewrite <- (Qfloor_Z 0). apply Qfloor_resp_le.
    apply Qmult_le_0_compat; [exact H0|now apply Qlt_le_weak].
  - apply Z.lt_nge. intros Hge.
    assert (Hle : (n <= rng cfg r * n)%Q).
    { eapply Qle_trans; [|apply Qfloor_le]. subst n. now rewrite <- Zle_Qle. }
    assert (Hlt : (rng cfg r * n < 1 * n)%Q) by (apply Qmult_lt_r; assumption).
    rewrite Qmult_1_l in Hlt. exact (Qlt_not_le _ _ Hlt Hle).
Qed.

Lemma random_char_in cfg r :
  (0 <= rng cfg r)%Q -> (rng cfg r < 1)%Q ->
  exists c, random_char cfg r = Some c /\ In c chars.
Proof.
  intros H0 H1. unfold random_char, js_at.
  destruct (random_index_range cfg r (length chars) H0 H1) as [[Hlo Hhi]|Hz];
    [|discriminate Hz].
  destruct (random_index cfg r (length chars) <? 0)%Z eqn:E;
    [apply Z.ltb_lt in E; lia|].
  destruct (nth_error chars (Z.to_nat (random_index cfg r (length chars)))) as [c|] eqn:Hc.
  - exists c. split; [reflexivity|]. eapply nth_error_In, Hc.
  - apply nth_error_None in Hc. lia.
Qed.

Lemma hidden_before_S newLen p i :
  hidden_before newLen p (S i)
  = hidden_before newLen p i + (if reveals newLen p i then 0 else 1).
Proof.
  unfold hidden_before. rewrite seq_S, List.filter_app, length_app. simpl.
  destruct (reveals newLen p i); reflexivity.
Qed.

(** What the loop has built after its first [n] turns. *)
Lemma scramble_prefix cfg newText maxLength f total r0 n :
  frames_done f total = false ->
  (forall r, 0 <= rng cfg r /\ rng cfg r < 1)%Q ->
  n <= maxLength ->
  let p := (inject_Z (Z.of_nat f) / total)%Q in
  exists out,
    fold_left (scramble_char cfg newText (progress_of f total) maxLength) (seq 0 n) ([], r0)
      = (out, r0 + hidden_before (length newText) p n)
    /\ length out = n
    /\ forall i, i < n ->
         nth_error out i =
           if reveals (length newText) p i then nth_error newText i
           else random_char cfg (r0 + hidden_before (length newText) p i).
Proof.
  intros Hrun Hrng. induction n as [|n IH]; intros Hn p.
  - exists []. simpl. repeat split; [f_equal; unfold hidden_before; simpl; lia|lia].
  - destruct IH as (out & Hfold & Hlen & Hchars); [lia|].
    rewrite seq_S, fold_left_app, Hfold. cbn [fold_left Nat.add]. unfold scramble_char.
    rewrite (revealed_running _ _ _ _ Hrun), hidden_before_S. fold p.
    destruct (running_progress _ _ Hrun) as [Hp0 Hp1].
    destruct (reveals (length newText) p n) eqn:Hrev.
    + pose proof (reveals_in_target _ _ _ Hp0 Hp1 Hrev) as Hin.
      unfold js_append_at, js_at.
      destruct (Z.of_nat n <? 0)%Z eqn:E; [apply Z.ltb_lt in E; lia|].
      rewrite Nat2Z.id.
      destruct (nth_error newText n) as [c|] eqn:Hc; [|apply nth_error_None in Hc; lia].
      exists (out ++ [c]). split; [f_equal; lia|]. split; [rewrite length_app; simpl; lia|].
      intros i Hi. destruct (Nat.eq_dec i n) as [->|Hne].
      * rewrite Hrev, nth_error_app2 by lia. rewrite Hlen, Nat.sub_diag. simpl. now rewrite Hc.
      * rewrite nth_error_app1 by lia. apply Hchars. lia.
    + assert (Hlt : (n <? maxLength) = true) by (apply Nat.ltb_lt; lia).
      rewrite Hlt.
      destruct (Hrng (r0 + hidden_before (length newText) p n)) as [H0 H1].
      destruct (random_char_in cfg _ H0 H1) as (c & Hc & _).
      unfold js_append_at. unfold random_char in Hc. rewrite Hc.
      exists (out ++ [c]). split; [f_equal; lia|]. split; [rewrite length_app; simpl; lia|].
      intros i Hi. destruct (Nat.eq_dec i n) as [->|Hne].
      * rewrite Hrev, nth_error_app2 by lia. rewrite Hlen, Nat.sub_diag. simpl.
        unfold random_char. now rewrite Hc.
      * rewrite nth_error_app1 by lia. apply Hchars. lia.
Qed.
Lemma random_index_uniform cfg r (k : Z) :
  random_index cfg r (length chars) = k <->
  (inject_Z k / 30 <= rng cfg r /\ rng cfg r < inject_Z (k + 1) / 30)%Q.
Proof.
  unfold random_index, js_floor.
  change (inject_Z (Z.of_nat (length chars))) with 30%Q.
  split.
  - intros <-. split.
    + apply Qle_shift_div_r; [reflexivity|]. apply Qfloor_le.
    + apply Qlt_shift_div_l; [reflexivity|]. apply Qlt_floor.
  - intros [Hlo Hhi].
    assert (H1 : (inject_Z k <= rng cfg r * 30)%Q).
    { apply (Qmult_le_r _ _ 30) in Hlo; [|reflexivity].
      assert (E : (inject_Z k / 30 * 30 == inject_Z k)%Q) by field.
      now rewrite E in Hlo. }
    assert (H2 : (rng cfg r * 30 < inject_Z (k + 1))%Q).
    { apply (Qmult_lt_r _ _ 30) in Hhi; [|reflexivity].
      assert (E : (inject_Z (k + 1) / 30 * 30 == inject_Z (k + 1))%Q) by field.
      now rewrite E in Hhi. }
    apply Qfloor_resp_le in H1. rewrite Qfloor_Z in H1.
    assert (H3 : (Qfloor (rng cfg r * 30) < k + 1)%Z).
    { apply Z.lt_nge. intros Hge. rewrite Zle_Qle in Hge.
      pose proof (Qfloor_le (rng cfg r * 30)) as Hf.
      exact (Qlt_not_le _ _ H2 (Qle_trans _ _ _ Hge Hf)). }
    lia.
Qed.
(** ** The scramble run of the v4.0 draft *)
Lemma v4_fire_absent cfg h w : V4.timers w !! h = None -> V4.fire cfg h w = w.
Proof. intros H. unfold V4.fire. now rewrite H. Qed.

Lemma v4_fires_absent cfg h n w : V4.timers w !! h = None -> V4.fires cfg h n w = w.
Proof.
  intros H. unfold V4.fires. induction n as [|n IH]; simpl; [reflexivity|].
  rewrite IH. now apply v4_fire_absent.
Qed.

Lemma v4_tick_running cfg newText maxLength frames f h w :
  (Z.of_nat (S f) < frames)%Z ->
  let w' := V4.scramble_tick cfg newText maxLength frames f h w in
  V4.timers w' !! h = Some (V4.ScrambleInterval newText maxLength frames (S f))
  /\ V4._id w' = V4._id w.
Proof.
  intros H. unfold V4.scramble_tick. cbn zeta.
  destruct (fold_left _ _ _) as [out r].
  destruct (frames <=? Z.of_nat (S f))%Z eqn:E; [apply Z.leb_le in E; lia|].
  cbn. split; [apply lookup_insert_eq|reflexivity].
Qed.

Lemma v4_tick_final cfg newText maxLength frames f h w :
  (frames <= Z.of_nat (S f))%Z -> V4._id w = Some h ->
  let w' := V4.scramble_tick cfg newText maxLength frames f h w in
  V4.textContent w' = newText /\ V4.timers w' !! h = None.
Proof.
  intros H Hid. unfold V4.scramble_tick. cbn zeta.
  destruct (fold_left _ _ _) as [out r].
  destruct (frames <=? Z.of_nat (S f))%Z eqn:E; [|apply Z.leb_gt in E; lia].
  unfold V4.clear_id. cbn. rewrite Hid. cbn. split; [reflexivity|apply lookup_delete_eq].
Qed.

Lemma v4_fires_running cfg h newText maxLength frames w k :
  V4.timers w !! h = Some (V4.ScrambleInterval newText maxLength frames 0) ->
  k < V4.ticks_needed frames ->
  V4.timers (V4.fires cfg h k w) !! h = Some (V4.ScrambleInterval newText maxLength frames k)
  /\ V4._id (V4.fires cfg h k w) = V4._id w.
Proof.
  intros Hw. induction k as [|k IH]; intros Hk; [split; [exact Hw|reflexivity]|].
  destruct IH as [IH1 IH2]; [lia|].
  change (V4.fires cfg h (S k) w) with (V4.fire cfg h (V4.fires cfg h k w)).
  unfold V4.fire. rewrite IH1. rewrite <- IH2.
  apply v4_tick_running. unfold V4.ticks_needed in Hk. lia.
Qed.

Lemma v4_fires_complete cfg h newText maxLength frames w :
  V4.timers w !! h = Some (V4.ScrambleInterval newText maxLength frames 0) ->
  V4._id w = Some h ->
  let w' := V4.fires cfg h (V4.ticks_needed frames) w in
  V4.textContent w' = newText /\ V4.timers w' !! h = None.
Proof.
  intros Hw Hid.
  assert (Hn : exists k, V4.ticks_needed frames = S k).
  { unfold V4.ticks_needed. destruct (Nat.max 1 (Z.to_nat frames)) eqn:E; [lia|eauto]. }
  destruct Hn as [k Hk]. rewrite Hk.
  change (V4.fires cfg h (S k) w) with (V4.fire cfg h (V4.fires cfg h k w)).
  destruct (v4_fires_running cfg h newText maxLength frames w k Hw) as [H1 H2]; [lia|].
  unfold V4.fire. rewrite H1. apply v4_tick_final; [|congruence].
  unfold V4.ticks_needed in Hk. lia.
Qed.

Lemma v4_scramble_starts newText duration w :
  let w1 := V4.scramble newText duration w in
  let h := V4.nextTimer (V4.clear_id w) in
  V4._id w1 = Some h
  /\ V4.timers w1 !! h
     = Some (V4.ScrambleInterval newText
               (Nat.max (length (V4.textContent w)) (length newText))
               (V4.js_round (duration * 60)) 0).
Proof.
  cbn zeta. unfold V4.scramble. cbn. split; [reflexivity|].
  rewrite lookup_insert_eq. unfold V4.clear_id. destruct (V4._id w); reflexivity.
Qed.

Lemma v4_nextTimer_clear w : V4.nextTimer (V4.clear_id w) = V4.nextTimer w.
Proof. unfold V4.clear_id. destruct (V4._id w); reflexivity. Qed.

(** C1.  Whatever the target string, the duration and the text the node shows
    when [scramble] is called, the run is alive for [ticks_needed] ticks, the
    last of them writes the target string and clears the interval, and a
    later tick of that interval changes nothing.  The same holds for the
    [scramble] of the v4.0 draft, whose frame count is
    [Math.round(duration * 60)]. *)
Theorem scramble_completes (cfg : config) (cfg4 : V4.config) (newText : jsstring)
    (duration : Q) (w0 : world) (v0 : V4.world) :
  (let h := fst (scramble newText duration w0) in
   let w1 := snd (scramble newText duration w0) in
   let n := ticks_needed (total_frames duration) in
   let w2 := fires cfg h n w1 in
   (forall k, k < n -> is_scramble <$> timers (fires cfg h k w1) !! h = Some true)
   /\ textContent (page w2) = newText
   /\ timers w2 !! h = None
   /\ forall m, fires cfg h m w2 = w2)
  /\
  (let h := V4.nextTimer v0 in
   let v1 := V4.scramble newText duration v0 in
   let n := V4.ticks_needed (V4.js_round (duration * 60)) in
   let v2 := V4.fires cfg4 h n v1 in
   (forall k, k < n -> is_Some (V4.timers (V4.fires cfg4 h k v1) !! h))
   /\ V4.textContent v2 = newText
   /\ V4.timers v2 !! h = None
   /\ forall m, V4.fires cfg4 h m v2 = v2).
Proof.
  split.
  - intros h w1 n w2.
    pose proof (scramble_starts newText duration w0) as Hw1. fold h w1 in Hw1.
    pose proof (fires_complete cfg h _ _ _ w1 Hw1) as Hlast. fold n w2 in Hlast.
    split; [|split; [apply Hlast|split; [apply Hlast|]]].
    + intros j Hj. now rewrite (fires_running _ _ _ _ _ _ j Hw1 Hj).
    + intros m. apply fires_absent, Hlast.
  - intros h v1 n v2.
    destruct (v4_scramble_starts newText duration v0) as [Hid Hv1].
    rewrite v4_nextTimer_clear in Hid, Hv1. fold h v1 in Hid, Hv1.
    pose proof (v4_fires_complete cfg4 h _ _ _ v1 Hv1 Hid) as Hlast. fold n v2 in Hlast.
    split; [|split; [apply Hlast|split; [apply Hlast|]]].
    + intros j Hj. destruct (v4_fires_running cfg4 h _ _ _ v1 j Hv1 Hj) as [-> _]. eauto.
    + intros m. apply v4_fires_absent, Hlast.
Qed.


Lemma Qeq_bool_inject_nonzero (z : Z) :
  z <> 0%Z -> Qeq_bool (inject_Z z) 0 = false.
Proof.
  intros Hz. destruct (Qeq_bool (inject_Z z) 0) eqn:E; [|reflexivity].
  apply Qeq_bool_eq in E. unfold Qeq in E. cbn in E. lia.
Qed.

Lemma firstn_snoc {A} (l : list A) n x :
  nth_error l n = Some x -> firstn (S n) l = firstn n l ++ [x].
Proof.
  revert n. induction l as [|a l IHl]; intros [|n] Hx; cbn in *.
  - discriminate.
  - discriminate.
  - injection Hx as ->. now rewrite firstn_0.
  - f_equal. now apply IHl.
Qed.

Lemma v4_revealed_running maxLength f frames i :
  0 < maxLength -> (Z.of_nat f < frames)%Z ->
  V4.revealed maxLength f frames i
  = V4.reveals maxLength (inject_Z (Z.of_nat f) / inject_Z frames) i.
Proof.
  intros HM Hf. unfold V4.revealed, V4.reveals, js_of_nat, js_div.
  rewrite !Qeq_bool_inject_nonzero by lia. reflexivity.
Qed.

Lemma v4_reveals_mono maxLength (p : Q) i j :
  0 < maxLength -> j <= i -> V4.reveals maxLength p i = true ->
  V4.reveals maxLength p j = true.
Proof.
  intros HM Hji H. apply Qltb_lt in H. apply Qltb_lt.
  eapply Qle_lt_trans; [|exact H].
  apply Qmult_le_compat_r.
  - rewrite <- Zle_Qle. lia.
  - apply Qinv_le_0_compat. rewrite <- (Zle_Qle 0). lia.
Qed.

Lemma v4_random_char_in cfg r :
  (0 <= V4.rng cfg r)%Q -> (V4.rng cfg r < 1)%Q ->
  exists c, V4.random_char cfg r = Some c /\ In c chars.
Proof.
  intros H0 H1.
  pose (c6 := {| titles := []; hasMenuButton := false; hasMenuPanel := false;
                 hasProgressBar := false; smoothScroll := false; rng := V4.rng cfg |}).
  exact (random_char_in c6 r H0 H1).
Qed.

(** What the v4.0 loop has built after its first [n] turns: the revealed
    prefix of the target, then random characters. *)
Lemma v4_scramble_prefix cfg newText maxLength f frames r0 n :
  (Z.of_nat f < frames)%Z ->
  (forall r, 0 <= V4.rng cfg r /\ V4.rng cfg r < 1)%Q ->
  n <= maxLength ->
  let p := (inject_Z (Z.of_nat f) / inject_Z frames)%Q in
  exists c R,
    fold_left (V4.scramble_char cfg newText maxLength f frames) (seq 0 n) ([], r0)
      = (firstn c newText ++ R, r0 + (n - c))
    /\ c <= n
    /\ (forall j, j < n -> (V4.reveals maxLength p j = true <-> j < c))
    /\ length R = n - c
    /\ forall k, k < n - c -> nth_error R k = V4.random_char cfg (r0 + k).
Proof.
  intros Hrun Hrng. induction n as [|n IH]; intros Hn p.
  - exists 0, []. cbn. repeat split; try lia. f_equal. lia.
  - destruct IH as (c & R & Hfold & Hc & Hrev & HlenR & HR); [lia|].
    assert (HM : 0 < maxLength) by lia.
    rewrite seq_S, fold_left_app, Hfold. cbn [fold_left Nat.add]. unfold V4.scramble_char.
    rewrite (v4_revealed_running _ _ _ _ HM Hrun). fold p.
    destruct (V4.reveals maxLength p n) eqn:Hn'.
    + assert (Hcn : c = n).
      { destruct (Nat.eq_dec c n) as [|Hne]; [assumption|].
        assert (Hlt : c < n) by lia.
        pose proof (v4_reveals_mono maxLength p n c HM ltac:(lia) Hn') as Hcr.
        apply Hrev in Hcr; lia. }
      subst c. assert (R = []) as -> by (destruct R; [reflexivity|cbn in HlenR; lia]).
      exists (S n), []. rewrite !app_nil_r. split; [|split; [|split; [|split]]].
      * replace (r0 + (S n - S n)) with (r0 + (n - n)) by lia. f_equal.
        unfold js_append_at_or_empty, js_at.
        destruct (Z.of_nat n <? 0)%Z eqn:E; [apply Z.ltb_lt in E; lia|].
        rewrite Nat2Z.id. destruct (nth_error newText n) as [x|] eqn:Hx.
        -- symmetry. now apply firstn_snoc.
        -- apply nth_error_None in Hx. now rewrite !firstn_all2 by lia.
      * lia.
      * intros j Hj. split; [intros _; exact Hj|intros _].
        destruct (Nat.eq_dec j n) as [->|]; [exact Hn'|]. apply Hrev; lia.
      * cbn. lia.
      * intros k Hk. lia.
    + destruct (Hrng (r0 + (n - c))) as [H0 H1].
      destruct (v4_random_char_in cfg _ H0 H1) as (x & Hx & _).
      unfold js_append_at. unfold V4.random_char in Hx. rewrite Hx.
      exists c, (R ++ [x]). rewrite app_assoc. split; [f_equal; lia|].
      split; [lia|]. split; [|split].
      * intros j Hj. destruct (Nat.eq_dec j n) as [->|Hne].
        -- rewrite Hn'. split; [discriminate|lia].
        -- apply Hrev. lia.
      * rewrite length_app. cbn. lia.
      * intros k Hk. destruct (Nat.eq_dec k (n - c)) as [->|Hne].
        -- rewrite nth_error_app2 by lia. rewrite HlenR, Nat.sub_diag. cbn.
           unfold V4.random_char. now rewrite Hx.
        -- rewrite nth_error_app1 by lia. apply HR. lia.
Qed.

Lemma v4_tick_shows cfg h newText maxLength frames f w :
  V4.timers w !! h = Some (V4.ScrambleInterval newText maxLength frames f) ->
  (Z.of_nat (S f) < frames)%Z ->
  (forall r, 0 <= V4.rng cfg r /\ V4.rng cfg r < 1)%Q ->
  let p := (inject_Z (Z.of_nat (S f)) / inject_Z frames)%Q in
  let shown := V4.textContent (V4.fire cfg h w) in
  forall i, i < maxLength -> i < length newText ->
    if V4.reveals maxLength p i
    then nth_error shown i = nth_error newText i
    else exists c, nth_error shown i = Some c /\ In c chars.
Proof.
  intros Hh Hrun Hrng p shown i Hi Hit. subst shown. unfold V4.fire. rewrite Hh.
  unfold V4.scramble_tick. cbn zeta.
  destruct (v4_scramble_prefix cfg newText maxLength (S f) frames (V4.drawn w) maxLength
              Hrun Hrng (Nat.le_refl _)) as (c & R & Hfold & Hc & Hrev & HlenR & HR).
  rewrite Hfold. destruct (frames <=? Z.of_nat (S f))%Z eqn:E; [apply Z.leb_le in E; lia|].
  cbn. fold p in Hrev. destruct (V4.reveals maxLength p i) eqn:Hri.
  - apply Hrev in Hri; [|exact Hi].
    rewrite nth_error_app1 by (rewrite length_firstn; lia).
    rewrite nth_error_firstn. apply Nat.ltb_lt in Hri. now rewrite Hri.
  - assert (Hci : c <= i).
    { destruct (Nat.le_gt_cases c i) as [|Hlt]; [assumption|].
      apply Hrev in Hlt; [congruence|exact Hi]. }
    rewrite nth_error_app2 by (rewrite length_firstn; lia).
    rewrite length_firstn, Nat.min_l by lia.
    rewrite HR by lia.
    destruct (Hrng (V4.drawn w + (i - c))) as [H0 H1].
    destruct (v4_random_char_in cfg _ H0 H1) as (x & Hx & Hin). eauto.
Qed.

(** ** The reveal test up to rounding *)

Lemma clearly_below_lt (a b : Q) :
  (0 <= a)%Q -> clearly_below a b = true -> (a < b)%Q.
Proof.
  intros Ha H. apply Qltb_lt in H. unfold rounding in H.
  eapply Qle_lt_trans; [|exact H]. lra.
Qed.

Lemma clearly_below_done (total : Q) (f : nat) :
  clearly_below total (inject_Z (Z.of_nat f)) = true -> frames_done f total = true.
Proof.
  intros H. apply Qltb_lt in H. unfold rounding in H. unfold frames_done.
  apply Qle_bool_iff.
  assert (H0 : (0 <= inject_Z (Z.of_nat f))%Q) by (rewrite <- (Zle_Qle 0); lia).
  destruct (Qlt_le_dec total 0) as [Hneg|Hpos]; lra.
Qed.

Lemma clearly_below_running (total : Q) (f : nat) :
  clearly_below (inject_Z (Z.of_nat f)) total = true -> frames_done f total = false.
Proof.
  intros H. apply clearly_below_lt in H; [|rewrite <- (Zle_Qle 0); lia].
  unfold frames_done. destruct (Qle_bool total _) eqn:E; [|reflexivity].
  apply Qle_bool_iff in E. lra.
Qed.

Lemma random_index_selects cfg r :
  (0 <= rng cfg r)%Q ->
  selects (length chars) (random_index cfg r (length chars)) (rng cfg r).
Proof.
  intros H0.
  destruct (proj1 (random_index_uniform cfg r _) eq_refl) as [Hlo Hhi].
  set (k := random_index cfg r (length chars)) in *.
  unfold selects. change (inject_Z (Z.of_nat (length chars))) with 30%Q.
  rewrite inject_Z_plus in *. change (inject_Z 1) with 1%Q in *.
  unfold Qdiv in Hlo, Hhi. change (/ 30)%Q with (1 # 30)%Q in Hlo, Hhi.
  unfold rounding. split; lra.
Qed.

(** In the run of 0.6 s every position is clear of the threshold or exactly
    on it. *)
Lemma clear_or_boundary (n f i : nat) :
  (Z.of_nat n < 2 ^ 31)%Z -> (Z.of_nat i < 2 ^ 31)%Z -> f <= 28 ->
  let x := (inject_Z (Z.of_nat n) * (inject_Z (Z.of_nat f) / total_frames (6 # 10)))%Q in
  (inject_Z (Z.of_nat i) == x)%Q
  \/ clearly_below (inject_Z (Z.of_nat i)) x = true
  \/ clearly_below x (inject_Z (Z.of_nat i)) = true.
Proof.
  intros Hn Hi Hf x.
  assert (Hx : (x == inject_Z (5 * (Z.of_nat n * Z.of_nat f)) / 144)%Q).
  { subst x. rewrite !inject_Z_mult. unfold total_frames. field. }
  set (m := (Z.of_nat n * Z.of_nat f)%Z) in *.
  assert (Hm : (0 <= m < 2 ^ 31 * 29)%Z) by (subst m; nia).
  destruct (Z.lt_trichotomy (144 * Z.of_nat i) (5 * m)) as [Hlt|[Heq|Hgt]].
  - right. left. apply Qltb_lt. rewrite Hx. unfold rounding, Qdiv.
    change (/ 144)%Q with (1 # 144)%Q.
    assert (H1 : (inject_Z (144 * Z.of_nat i + 1) <= inject_Z (5 * m))%Q)
      by (rewrite <- Zle_Qle; lia).
    assert (H2 : (inject_Z (Z.of_nat i) < inject_Z (2 ^ 31))%Q)
      by (rewrite <- Zlt_Qlt; lia).
    rewrite inject_Z_plus, inject_Z_mult in H1.
    change (inject_Z 144) with 144%Q in H1. change (inject_Z 1) with 1%Q in H1.
    change (inject_Z (2 ^ 31)) with 2147483648%Q in H2.
    assert (H0 : (0 <= inject_Z (Z.of_nat i))%Q) by (rewrite <- (Zle_Qle 0); lia).
    lra.
  - left. rewrite Hx. rewrite <- Heq. rewrite inject_Z_mult.
    change (inject_Z 144) with 144%Q. field.
  - right. right. apply Qltb_lt. rewrite Hx. unfold rounding, Qdiv.
    change (/ 144)%Q with (1 # 144)%Q.
    assert (H1 : (inject_Z (5 * m + 1) <= inject_Z (144 * Z.of_nat i))%Q)
      by (rewrite <- Zle_Qle; lia).
    assert (H2 : (inject_Z (5 * m) < inject_Z (5 * (2 ^ 31 * 29)))%Q)
      by (rewrite <- Zlt_Qlt; lia).
    rewrite inject_Z_plus, (inject_Z_mult 144) in H1.
    change (inject_Z 144) with 144%Q in H1. change (inject_Z 1) with 1%Q in H1.
    change (inject_Z (5 * (2 ^ 31 * 29))) with 311385128960%Q in H2.
    assert (H0 : (0 <= inject_Z (5 * m))%Q) by (rewrite <- (Zle_Qle 0); lia).
    lra.
Qed.

Lemma tick_decided (f : nat) :
  clearly_below (total_frames (6 # 10)) (inject_Z (Z.of_nat f)) = true
  \/ clearly_below (inject_Z (Z.of_nat f)) (total_frames (6 # 10)) = true.
Proof.
  destruct (Nat.le_gt_cases f 28) as [H|H].
  - right. apply Qltb_lt. unfold total_frames, rounding.
    assert (H1 : (inject_Z (Z.of_nat f) <= inject_Z 28)%Q) by (rewrite <- Zle_Qle; lia).
    assert (H0 : (0 <= inject_Z (Z.of_nat f))%Q) by (rewrite <- (Zle_Qle 0); lia).
    change (inject_Z 28) with 28%Q in H1. lra.
  - left. apply Qltb_lt. unfold total_frames, rounding.
    assert (H1 : (inject_Z 29 <= inject_Z (Z.of_nat f))%Q) by (rewrite <- Zle_Qle; lia).
    change (inject_Z 29) with 29%Q in H1. lra.
Qed.

Lemma double_agrees_navigator :
  forallb (fun n => forallb (fun f => forallb (double_agrees labelDuration (total_frames (6 # 10)) n f)
                                         (seq 0 65)) (seq 0 29)) (seq 0 65) = true.
Proof. vm_compute. reflexivity. Qed.

Lemma double_agrees_bounded (n f i : nat) :
  n <= 64 -> f <= 28 -> i <= 64 ->
  double_agrees labelDuration (total_frames (6 # 10)) n f i = true.
Proof.
  intros Hn Hf Hi. pose proof double_agrees_navigator as H.
  rewrite forallb_forall in H. specialize (H n ltac:(apply in_seq; lia)).
  rewrite forallb_forall in H. specialize (H f ltac:(apply in_seq; lia)).
  rewrite forallb_forall in H. apply H. apply in_seq. lia.
Qed.

Lemma frames_running_navigator :
  forallb (fun k => negb (frames_done_double labelDuration k)) (seq 0 29) = true.
Proof. vm_compute. reflexivity. Qed.

(** C2, as amended.  The rule of the v6.0 loop is [i < newText.length * p]
    with [p = frame / totalFrames], computed in doubles; the statement
    decides a comparison only where the exact values differ by more than the
    rounding of the doubles.  The tick whose count is clearly past
    [totalFrames] writes the target.  A tick clearly before it writes
    [maxLength] characters: a position clearly below [newText.length * p]
    holds the target character, a position clearly above it holds a symbol of
    the alphabet, and when no earlier position sits on the threshold that
    symbol is [chars[k]] for the index [k] the next draw selects.  In the run
    of 0.6 s that [updateText] starts every tick and every position is clear
    or exactly on the threshold; there the doubles go either way (position 5
    of an 8 letter target is revealed at tick 18, position 5 of a 6 letter
    target is not at tick 24), and for targets of up to 64 letters the double
    test agrees with the exact one everywhere else.  In the v4.0 draft the
    threshold is the one of the specification, [i / maxLength < f / frames],
    for the positions of the target; the two quotients are told apart by the
    doubles as long as [maxLength * frames] stays below [2^52]. *)
Theorem scramble_tick_shows (cfg : config) (h : positive) (newText : jsstring)
    (maxLength : nat) (total : Q) (frame : nat) (w : world)
    (cfg4 : V4.config) (h4 : positive) (frames : Z) (f : nat) (v : V4.world) :
  timers w !! h = Some (ScrambleInterval newText maxLength total frame) ->
  (forall r, 0 <= rng cfg r /\ rng cfg r < 1)%Q ->
  V4.timers v !! h4 = Some (V4.ScrambleInterval newText maxLength frames f) ->
  (forall r, 0 <= V4.rng cfg4 r /\ V4.rng cfg4 r < 1)%Q ->
  (Z.of_nat (length newText) < 2 ^ 31)%Z -> (Z.of_nat maxLength < 2 ^ 31)%Z ->
  let tick := inject_Z (Z.of_nat (S frame)) in
  let p := (tick / total)%Q in
  let x := (inject_Z (Z.of_nat (length newText)) * p)%Q in
  let at_ := fun i : nat => inject_Z (Z.of_nat i) in
  let shown := textContent (page (fire cfg h w)) in
  let p4 := (inject_Z (Z.of_nat (S f)) / inject_Z frames)%Q in
  let shown4 := V4.textContent (V4.fire cfg4 h4 v) in
  (clearly_below total tick = true -> shown = newText)
  /\ (clearly_below tick total = true ->
      length shown = maxLength
      /\ forall i, i < maxLength ->
           (clearly_below (at_ i) x = true ->
              i < length newText /\ nth_error shown i = nth_error newText i)
           /\ (clearly_below x (at_ i) = true ->
                 (exists c, nth_error shown i = Some c /\ In c chars)
                 /\ ((forall j, j < i -> clearly_below (at_ j) x = true
                                         \/ clearly_below x (at_ j) = true) ->
                     exists k,
                       selects (length chars) k
                         (rng cfg (drawn w + hidden_before (length newText) p i))
                       /\ nth_error shown i = js_at chars k)))
  /\ ((total == total_frames (6 # 10))%Q ->
      (clearly_below total tick = true \/ clearly_below tick total = true)
      /\ (clearly_below tick total = true ->
          forall i, i < maxLength ->
            (at_ i == x)%Q \/ clearly_below (at_ i) x = true
            \/ clearly_below x (at_ i) = true))
  /\ (forall newLen k i, newLen <= 64 -> k <= 28 -> i <= 64 ->
        let y := (inject_Z (Z.of_nat newLen)
                  * (inject_Z (Z.of_nat k) / total_frames (6 # 10)))%Q in
        frames_done_double labelDuration k = false
        /\ (clearly_below (at_ i) y = true -> revealed_double labelDuration newLen k i = true)
        /\ (clearly_below y (at_ i) = true -> revealed_double labelDuration newLen k i = false))
  /\ (frames_done_double labelDuration 29 = true
      /\ (at_ 5%nat == inject_Z 8 * (inject_Z 18 / total_frames (6 # 10)))%Q
      /\ revealed_double labelDuration 8 18 5 = true
      /\ (at_ 5%nat == inject_Z 6 * (inject_Z 24 / total_frames (6 # 10)))%Q
      /\ revealed_double labelDuration 6 24 5 = false)
  /\ ((Z.of_nat (S f) < frames)%Z -> (Z.of_nat maxLength * frames < 2 ^ 52)%Z ->
      forall i, i < maxLength -> i < length newText ->
        if V4.reveals maxLength p4 i
        then nth_error shown4 i = nth_error newText i
        else exists c, nth_error shown4 i = Some c /\ In c chars).
Proof.
  intros Hh Hrng Hh4 Hrng4 HN HM tick p x at_ shown p4 shown4.
  assert (Hat : forall i, (0 <= at_ i)%Q) by (intros i; unfold at_; rewrite <- (Zle_Qle 0); lia).
  split; [|split; [|split; [|split; [|split]]]].
  - intros Hdone. subst shown. unfold fire. rewrite Hh.
    now apply scramble_tick_final, clearly_below_done.
  - intros Hrun'. pose proof (clearly_below_running _ _ Hrun') as Hrun.
    subst shown. unfold fire. rewrite Hh. unfold scramble_tick.
    destruct (scramble_prefix cfg newText maxLength (S frame) total (drawn w) maxLength
                Hrun Hrng (Nat.le_refl _)) as (out & Hfold & Hlen & Hchars).
    unfold scramble_frame. rewrite Hfold, Hrun.
    cbn [with_timers with_page page set_text textContent set_drawn].
    unfold substring0. rewrite firstn_all2 by lia. split; [exact Hlen|].
    intros i Hi. specialize (Hchars i Hi). fold tick p in Hchars.
    destruct (running_progress _ _ Hrun) as [Hp0 Hp1]. fold tick p in Hp0, Hp1.
    assert (Hx0 : (0 <= x)%Q).
    { unfold x. apply Qmult_le_0_compat; [|exact Hp0]. rewrite <- (Zle_Qle 0). lia. }
    split.
    + intros Hc. apply clearly_below_lt in Hc; [|apply Hat].
      assert (Hrev : reveals (length newText) p i = true) by now apply Qltb_lt.
      rewrite Hrev in Hchars. split; [|exact Hchars].
      exact (reveals_in_target _ _ _ Hp0 Hp1 Hrev).
    + intros Hc. apply clearly_below_lt in Hc; [|exact Hx0].
      assert (Hrev : reveals (length newText) p i = false)
        by (apply Qltb_ge; now apply Qlt_le_weak).
      rewrite Hrev in Hchars.
      destruct (Hrng (drawn w + hidden_before (length newText) p i)) as [H0 H1].
      split.
      * destruct (random_char_in cfg _ H0 H1) as (c & Hc' & Hin).
        exists c. rewrite Hchars. auto.
      * intros _. eexists. split; [apply random_index_selects; exact H0|].
        exact Hchars.
  - intros Ht. split.
    + destruct (tick_decided (S frame)) as [Hd|Hd]; [left|right];
        apply Qltb_lt; apply Qltb_lt in Hd; fold tick in Hd; now rewrite Ht.
    + intros Hrun' i Hi.
      assert (Hf : S frame <= 28).
      { apply Qltb_lt in Hrun'. rewrite Ht in Hrun'. unfold total_frames, rounding in Hrun'.
        destruct (Nat.le_gt_cases (S frame) 28) as [|Hgt]; [assumption|exfalso].
        assert (H1 : (inject_Z 29 <= tick)%Q) by (unfold tick; rewrite <- Zle_Qle; lia).
        change (inject_Z 29) with 29%Q in H1. lra. }
      destruct (clear_or_boundary (length newText) (S frame) i HN ltac:(lia) Hf)
        as [Hb|[Hb|Hb]]; [left|right; left|right; right].
      * unfold at_, x, p. now rewrite Ht.
      * apply Qltb_lt. apply Qltb_lt in Hb. unfold at_, x, p. now rewrite Ht.
      * apply Qltb_lt. apply Qltb_lt in Hb. unfold at_, x, p. now rewrite Ht.
  - intros newLen k i Hn Hk Hi y.
    pose proof (double_agrees_bounded newLen k i Hn Hk Hi) as Ha.
    unfold double_agrees in Ha. cbv zeta in Ha. fold y in Ha.
    apply andb_true_iff in Ha as [Ha1 Ha2]. split; [|split].
    + pose proof frames_running_navigator as Hfr. rewrite forallb_forall in Hfr.
      apply negb_true_iff, Hfr, in_seq. lia.
    + intros Hc. unfold at_ in Hc. now rewrite Hc in Ha1.
    + intros Hc. unfold at_ in Hc. rewrite Hc in Ha2. now apply negb_true_iff.
  - repeat split.
  - intros Hrun _. exact (v4_tick_shows cfg4 h4 newText maxLength frames f v Hh4 Hrun Hrng4).
Qed.

Lemma scramble_tick_shows_witness :
  timers (snd (scramble (lit "XY") (6 # 10) (blank (lit "ABCD")))) !! 1%positive
    = Some (ScrambleInterval (lit "XY") 4 (total_frames (6 # 10)) 0)
  /\ V4.timers (V4.scramble (lit "XY") (6 # 10) (V4.fresh (lit "ABCD"))) !! 1%positive
    = Some (V4.ScrambleInterval (lit "XY") 4 36 0)
  /\ clearly_below (inject_Z (Z.of_nat 1)) (total_frames (6 # 10)) = true
  /\ length (textContent (page (fire demo 1
              (snd (scramble (lit "XY") (6 # 10) (blank (lit "ABCD"))))))) = 4.
Proof.
  split; [reflexivity|]. split; [reflexivity|]. split; [reflexivity|].
  refine (proj1 (proj1 (proj2 (scramble_tick_shows demo 1 (lit "XY") 4
            (total_frames (6 # 10)) 0
            (snd (scramble (lit "XY") (6 # 10) (blank (lit "ABCD"))))
            demo_v4 1 36 0
            (V4.scramble (lit "XY") (6 # 10) (V4.fresh (lit "ABCD")))
            _ _ _ _ _ _)) _)).
  - reflexivity.
  - intros r. split; [discriminate|reflexivity].
  - reflexivity.
  - intros r. split; [discriminate|reflexivity].
  - reflexivity.
  - reflexivity.
  - reflexivity.
Defined.

(** C2, as stated, fails on the v6.0 code.  From "ABCD" to "XY", at the tenth
    tick of the 0.6 s run, the progress 10/28.8 exceeds 1/4 and yet position 1
    shows a symbol, not "Y": the code compares [i] with
    [newText.length * progress]. *)
Lemma scramble_threshold_counterexample :
  ~ shows_as_specified demo (lit "ABCD") (lit "XY") (6 # 10) 10.
Proof.
  intros H. specialize (H 1). vm_compute in H.
  specialize (H ltac:(lia)). discriminate H.
Qed.

(** ** One scramble interval per node *)

Lemma keeps_refl w : keeps_scrambles w w.
Proof. repeat split; [lia|]. intros h t Ht Hs. exists t. auto. Qed.

Lemma keeps_trans w1 w2 w3 :
  keeps_scrambles w1 w2 -> keeps_scrambles w2 w3 -> keeps_scrambles w1 w3.
Proof.
  intros (Ha & Hb & Hc) (Ha' & Hb' & Hc'). repeat split.
  - congruence.
  - lia.
  - intros h t Ht Hs. destruct (Hc' h t Ht Hs) as (t0 & Ht0 & Hs0). eauto.
Qed.

Lemma keeps_tracked w w' :
  keeps_scrambles w w' -> scramble_tracked w -> scramble_tracked w'.
Proof.
  intros (Ha & Hb & Hc) [Ht Hf]. split.
  - intros h t Hl Hs. destruct (Hc h t Hl Hs) as (t0 & Ht0 & Hs0).
    rewrite Ha. eauto.
  - intros h Hh. rewrite Ha in Hh. specialize (Hf h Hh). lia.
Qed.

Lemma keeps_same w w' :
  scrambleInterval (st w') = scrambleInterval (st w) ->
  nextTimer w' = nextTimer w -> timers w' = timers w -> keeps_scrambles w w'.
Proof.
  intros Ha Hb Hc. repeat split; [exact Ha|lia|]. rewrite Hc. eauto.
Qed.

Create HintDb keeps.

Lemma keeps_with_page w w0 f : keeps_scrambles w w0 -> keeps_scrambles w (with_page f w0).
Proof. intros H. eapply keeps_trans; [exact H|]. now apply keeps_same. Qed.

Lemma keeps_set_drawn w w0 n : keeps_scrambles w w0 -> keeps_scrambles w (set_drawn n w0).
Proof. intros H. eapply keeps_trans; [exact H|]. now apply keeps_same. Qed.

Lemma keeps_push_scroll w w0 r : keeps_scrambles w w0 -> keeps_scrambles w (push_scroll r w0).
Proof. intros H. eapply keeps_trans; [exact H|]. now apply keeps_same. Qed.

Lemma keeps_count_glitch w w0 : keeps_scrambles w w0 -> keeps_scrambles w (count_glitch w0).
Proof. intros H. eapply keeps_trans; [exact H|]. now apply keeps_same. Qed.

Lemma keeps_with_st w w0 f :
  (forall s, scrambleInterval (f s) = scrambleInterval s) ->
  keeps_scrambles w w0 -> keeps_scrambles w (with_st f w0).
Proof.
  intros Hf H. eapply keeps_trans; [exact H|].
  repeat split; [apply Hf|cbn; lia|]. intros h t Ht Hs. exists t. auto.
Qed.

Lemma keeps_clear_timer w w0 h : keeps_scrambles w w0 -> keeps_scrambles w (clear_timer h w0).
Proof.
  intros H. eapply keeps_trans; [exact H|].
  repeat split; [cbn; lia|]. intros k t Ht Hs. cbn in Ht.
  apply lookup_delete_Some in Ht as [_ Ht]. eauto.
Qed.

Lemma keeps_clear_if_set w w0 o : keeps_scrambles w w0 -> keeps_scrambles w (clear_if_set o w0).
Proof. destruct o; [apply keeps_clear_timer|auto]. Qed.

Lemma keeps_alloc w w0 t :
  is_scramble t = false -> keeps_scrambles w w0 -> keeps_scrambles w (alloc_timer t w0).
Proof.
  intros Hns H. eapply keeps_trans; [exact H|].
  repeat split; [cbn; lia|]. intros k t' Ht Hs. cbn in Ht.
  apply lookup_insert_Some in Ht as [[_ <-]|[_ Ht]]; [congruence|eauto].
Qed.

Lemma keeps_insert_other w w0 h t :
  is_scramble t = false -> keeps_scrambles w w0 ->
  keeps_scrambles w (with_timers (insert h t) w0).
Proof.
  intros Hns H. eapply keeps_trans; [exact H|].
  repeat split; [cbn; lia|]. intros k t' Ht Hs. cbn in Ht.
  apply lookup_insert_Some in Ht as [[_ <-]|[_ Ht]]; [congruence|eauto].
Qed.

Lemma keeps_insert_tick w w0 h t t0 :
  timers w0 !! h = Some t0 -> is_scramble t0 = true -> keeps_scrambles w w0 ->
  keeps_scrambles w (with_timers (insert h t) w0).
Proof.
  intros Hl Hs0 H. eapply keeps_trans; [exact H|].
  repeat split; [cbn; lia|]. intros k t' Ht Hs. cbn in Ht.
  apply lookup_insert_Some in Ht as [[<- _]|[_ Ht]]; eauto.
Qed.

#[local] Hint Resolve keeps_refl keeps_with_page keeps_set_drawn keeps_push_scroll
  keeps_count_glitch keeps_clear_timer keeps_clear_if_set : keeps.
#[local] Hint Extern 2 (keeps_scrambles _ (with_st _ _)) =>
  apply keeps_with_st; [intros ?; reflexivity|] : keeps.
#[local] Hint Extern 2 (keeps_scrambles _ (alloc_timer _ _)) =>
  apply keeps_alloc; [reflexivity|] : keeps.
#[local] Hint Extern 2 (keeps_scrambles _ (with_timers (insert _ _) _)) =>
  apply keeps_insert_other; [reflexivity|] : keeps.

Lemma keeps_startIdleAnimation cfg w w0 :
  keeps_scrambles w w0 -> keeps_scrambles w (startIdleAnimation cfg w0).
Proof.
  intros H. unfold startIdleAnimation, set_timer. cbn zeta. split_cases; auto 10 with keeps.
Qed.
#[local] Hint Resolve keeps_startIdleAnimation : keeps.

Lemma keeps_glitchText w w0 :
  keeps_scrambles w w0 -> keeps_scrambles w (glitchText w0).
Proof. intros H. unfold glitchText, set_timer. cbn. auto 10 with keeps. Qed.
#[local] Hint Resolve keeps_glitchText : keeps.

Lemma keeps_glitch_tick cfg h ct gc w w0 :
  keeps_scrambles w w0 -> keeps_scrambles w (glitch_tick cfg h ct gc w0).
Proof. intros H. unfold glitch_tick. split_cases; auto 10 with keeps. Qed.

Lemma keeps_morph_fire cfg w w0 :
  keeps_scrambles w w0 -> keeps_scrambles w (morph_fire cfg w0).
Proof. intros H. unfold morph_fire. split_cases; auto 10 with keeps. Qed.

Lemma keeps_unlock_fire cfg w w0 :
  keeps_scrambles w w0 -> keeps_scrambles w (unlock_fire cfg w0).
Proof. intros H. unfold unlock_fire. cbn zeta. split_cases; auto 10 with keeps. Qed.

Lemma keeps_resetIdleTimer w w0 :
  keeps_scrambles w w0 -> keeps_scrambles w (resetIdleTimer w0).
Proof. intros H. unfold resetIdleTimer, set_timer. cbn zeta. split_cases; auto 10 with keeps. Qed.
#[local] Hint Resolve keeps_resetIdleTimer keeps_glitch_tick keeps_morph_fire keeps_unlock_fire : keeps.

Lemma keeps_toggleExpanded cfg b w w0 :
  keeps_scrambles w w0 -> keeps_scrambles w (toggleExpanded cfg b w0).
Proof. intros H. unfold toggleExpanded. cbn zeta. split_cases; auto 10 with keeps. Qed.

Lemma keeps_toggleMenu cfg b w w0 :
  keeps_scrambles w w0 -> keeps_scrambles w (toggleMenu cfg b w0).
Proof. intros H. unfold toggleMenu. cbn zeta. split_cases; auto 10 with keeps. Qed.

Lemma keeps_navigateToSection cfg i w w0 :
  keeps_scrambles w w0 -> keeps_scrambles w (navigateToSection cfg i w0).
Proof. intros H. unfold navigateToSection. cbn zeta. split_cases; auto 10 with keeps. Qed.

Lemma keeps_updateProgress cfg w w0 :
  keeps_scrambles w w0 -> keeps_scrambles w (updateProgress cfg w0).
Proof. intros H. unfold updateProgress. cbn zeta. split_cases; auto 10 with keeps. Qed.

Lemma keeps_destroy w w0 :
  keeps_scrambles w w0 -> keeps_scrambles w (destroy w0).
Proof. intros H. unfold destroy. cbn zeta. auto 10 with keeps. Qed.
#[local] Hint Resolve keeps_toggleExpanded keeps_toggleMenu keeps_navigateToSection
  keeps_updateProgress keeps_destroy : keeps.

Lemma keeps_scramble_tick cfg h newText maxLength total frame w :
  timers w !! h = Some (ScrambleInterval newText maxLength total frame) ->
  keeps_scrambles w (scramble_tick cfg h newText maxLength total frame w).
Proof.
  intros Hl. unfold scramble_tick. cbn zeta.
  destruct (scramble_frame _ _ _ _ _) as [scrambled r].
  destruct (frames_done _ _); [auto 10 with keeps|].
  eapply keeps_insert_tick; [cbn; exact Hl|reflexivity|auto 10 with keeps].
Qed.

Lemma keeps_fire cfg h w : keeps_scrambles w (fire cfg h w).
Proof.
  unfold fire. destruct (timers w !! h) as [[nt ml tf f|ct gc|d| |]|] eqn:Hl;
    auto 10 with keeps.
  now apply keeps_scramble_tick.
Qed.

Lemma tracked_updateText cfg title w :
  scramble_tracked w -> scramble_tracked (updateText cfg title w).
Proof.
  intros [Ht Hf]. unfold updateText. destruct (isAnimating (st w)); [split; assumption|].
  unfold scramble, set_timer. cbn. split.
  - intros h t Hl Hs. cbn in Hl.
    apply lookup_insert_Some in Hl as [[_ <-]|[_ Hl]]; [discriminate Hs|].
    apply lookup_insert_Some in Hl as [[<- _]|[Hne Hl]]; [reflexivity|].
    exfalso.
    assert (Hw : exists t0, timers (clear_if_set (scrambleInterval (st w))
                   (with_st (set_isAnimating true) w)) !! h = Some t0 /\ is_scramble t0 = true).
    { destruct (morphTimeout (st (clear_if_set (scrambleInterval (st w))
                   (with_st (set_isAnimating true) w)))); cbn in Hl.
      - apply lookup_delete_Some in Hl as [_ Hl]. eauto.
      - eauto. }
    destruct Hw as (t0 & Hl0 & Hs0).
    destruct (scrambleInterval (st w)) as [hOld|] eqn:Hold; cbn in Hl0.
    + apply lookup_delete_Some in Hl0 as [Hne' Hl0].
      specialize (Ht h t0 Hl0 Hs0). congruence.
    + specialize (Ht h t0 Hl0 Hs0). congruence.
  - intros h [= <-].
    destruct (scrambleInterval (st w)), (morphTimeout _); cbn; lia.
Qed.

Lemma tracked_updateCurrentSection cfg index w :
  scramble_tracked w -> scramble_tracked (updateCurrentSection cfg index w).
Proof.
  intros H. unfold updateCurrentSection. cbn zeta.
  assert (H1 : scramble_tracked (with_st (set_currentIndex (Z.of_nat index)) w)).
  { eapply keeps_tracked; [|exact H]. auto with keeps. }
  destruct (titles cfg !! index) as [title|]; [|exact H1].
  eapply keeps_tracked; [|apply tracked_updateText, H1]. auto 10 with keeps.
Qed.

Lemma tracked_observe cfg entries : forall w,
  scramble_tracked w -> scramble_tracked (fold_left (observe_entry cfg) entries w).
Proof.
  induction entries as [|[b k] entries IH]; intros w H; [exact H|].
  cbn [fold_left]. apply IH. unfold observe_entry.
  destruct b; [|exact H]. destruct (negb _); [|exact H].
  now apply tracked_updateCurrentSection.
Qed.

Lemma keeps_on_event cfg e w :
  (forall entries, e <> Observe entries) -> keeps_scrambles w (on_event cfg e w).
Proof.
  intros Hobs. destruct e as [h| | | | | |k|diff|entries|]; cbn [on_event];
    try (split_cases; auto 10 with keeps).
  now destruct (Hobs entries).
Qed.

Lemma tracked_handle cfg e w :
  scramble_tracked w -> scramble_tracked (handle cfg e w).
Proof.
  intros H. destruct (e) as [h| | | | | |k|diff|entries|] eqn:He; unfold handle;
    try (destruct (listening cfg); [|exact H]).
  1: { eapply keeps_tracked; [apply keeps_fire|exact H]. }
  9: { eapply keeps_tracked; [apply keeps_destroy, keeps_refl|exact H]. }
  8: { now apply tracked_observe. }
  all: eapply keeps_tracked; [apply keeps_on_event; discriminate|exact H].
Qed.

Lemma tracked_run cfg evs : forall w,
  scramble_tracked w -> scramble_tracked (run cfg evs w).
Proof.
  induction evs as [|e evs IH]; intros w H; [exact H|].
  cbn [run fold_left]. apply IH. now apply tracked_handle.
Qed.

Lemma tracked_blank text : scramble_tracked (blank text).
Proof.
  split; [intros h t H; cbn in H; now rewrite lookup_empty in H|intros h [=]].
Qed.

Lemma tracked_boot cfg text : scramble_tracked (boot cfg text).
Proof.
  unfold boot. destruct (titles cfg); [apply tracked_blank|].
  eapply keeps_tracked; [|apply tracked_blank]. auto 10 with keeps.
Qed.

Lemma tracked_one w : scramble_tracked w -> one_scramble w.
Proof.
  intros [Ht _] h1 h2 t1 t2 H1 S1 H2 S2.
  pose proof (Ht _ _ H1 S1). pose proof (Ht _ _ H2 S2). congruence.
Qed.

Lemma keeps_fires cfg h n w : keeps_scrambles w (fires cfg h n w).
Proof.
  unfold fires. induction n as [|n IH]; [apply keeps_refl|].
  rewrite Nat.iter_succ. eapply keeps_trans; [exact IH|apply keeps_fire].
Qed.

(** What [updateText] leaves in the table when it starts a run. *)
Lemma updateText_starts cfg title w :
  isAnimating (st w) = false -> scramble_tracked w ->
  let w' := updateText cfg title w in
  let h := nextTimer w in
  scrambleInterval (st w') = Some h
  /\ timers w' !! h
     = Some (ScrambleInterval (toUpperCase title)
               (Nat.max (length (textContent (page w))) (length (toUpperCase title)))
               (total_frames (6 # 10)) 0)
  /\ forall hOld t, timers w !! hOld = Some t -> is_scramble t = true ->
       timers w' !! hOld = None.
Proof.
  intros Ha [Ht Hf]. cbn zeta. unfold updateText. rewrite Ha.
  unfold scramble, set_timer, clear_if_set. cbn.
  destruct (scrambleInterval (st w)) as [hS|] eqn:HS; cbn;
    destruct (morphTimeout (st w)) as [hM|] eqn:HM; cbn;
    (split; [reflexivity|split;
       [rewrite lookup_insert_ne by lia; apply lookup_insert_eq|]]);
    intros hOld t Hl Hs; pose proof (Ht _ _ Hl Hs) as Hid;
    try discriminate Hid; injection Hid as ->; pose proof (Hf _ eq_refl) as Hlt;
    rewrite lookup_insert_ne by lia; rewrite lookup_insert_ne by lia.
  - destruct (decide (hM = hOld)) as [->|Hne].
    + apply lookup_delete_eq.
    + rewrite lookup_delete_ne by exact Hne. apply lookup_delete_eq.
  - apply lookup_delete_eq.
Qed.

(** ** The interval of the v4.0 draft *)

Lemma v4_tracked_fresh text : V4.tracked (V4.fresh text).
Proof. split; [intros h t H; cbn in H; now rewrite lookup_empty in H|intros h [=]]. Qed.

Lemma v4_tracked_scramble newText duration w :
  V4.tracked w -> V4.tracked (V4.scramble newText duration w).
Proof.
  intros [Ht Hf]. unfold V4.scramble. split; cbn.
  - intros h t Hl. apply lookup_insert_Some in Hl as [[<- _]|[Hne Hl]]; [reflexivity|].
    exfalso. unfold V4.clear_id in Hl. destruct (V4._id w) as [hOld|] eqn:Hid; cbn in Hl.
    + apply lookup_delete_Some in Hl as [Hne' Hl]. specialize (Ht h t Hl). congruence.
    + specialize (Ht h t Hl). congruence.
  - intros h [= <-]. lia.
Qed.

Lemma v4_tracked_fire cfg h w : V4.tracked w -> V4.tracked (V4.fire cfg h w).
Proof.
  intros [Ht Hf]. unfold V4.fire.
  destruct (V4.timers w !! h) as [[newText maxLength frames f]|] eqn:Hl; [|now split].
  pose proof (Ht h _ Hl) as Hid.
  unfold V4.scramble_tick. cbn zeta. destruct (fold_left _ _ _) as [out r].
  destruct (frames <=? Z.of_nat (S f))%Z; unfold V4.clear_id; cbn; rewrite ?Hid; cbn; split.
  - intros k t Hk. cbn in Hk. apply lookup_delete_Some in Hk as [_ Hk]. eauto.
  - intros k Hk. auto.
  - intros k t Hk. cbn in Hk. apply lookup_insert_Some in Hk as [[<- _]|[_ Hk]]; eauto.
  - auto.
Qed.

Lemma v4_tracked_run cfg evs : forall w, V4.tracked w -> V4.tracked (V4.run cfg evs w).
Proof.
  induction evs as [|e evs IH]; intros w Hw; [exact Hw|].
  cbn [V4.run fold_left]. apply IH. destruct e; cbn [V4.handle].
  - now apply v4_tracked_scramble.
  - now apply v4_tracked_fire.
Qed.

Lemma v4_scramble_cancels newText duration w hOld :
  V4.tracked w -> is_Some (V4.timers w !! hOld) ->
  V4.timers (V4.scramble newText duration w) !! hOld = None.
Proof.
  intros [Ht Hf] [t Hl]. pose proof (Ht _ _ Hl) as Hid. pose proof (Hf _ Hid) as Hlt.
  unfold V4.scramble, V4.clear_id. rewrite Hid. cbn.
  rewrite lookup_insert_ne by lia. apply lookup_delete_eq.
Qed.

Lemma v4_go_animating cfg i w :
  V4.isAnimating (V4.st w) = true -> V4.go cfg i w = w.
Proof. intros H. unfold V4.go. now rewrite H. Qed.

Lemma v4_fire_id cfg h w : V4._id (V4.fire cfg h w) = V4._id w.
Proof.
  unfold V4.fire. destruct (V4.timers w !! h) as [[newText maxLength frames f]|]; [|reflexivity].
  unfold V4.scramble_tick. cbn zeta. destruct (fold_left _ _ _) as [out r].
  destruct (frames <=? Z.of_nat (S f))%Z; [|reflexivity].
  unfold V4.clear_id. cbn. destruct (V4._id w) eqn:E; cbn; now rewrite ?E.
Qed.

Lemma v4_fires_id cfg h n w : V4._id (V4.fires cfg h n w) = V4._id w.
Proof.
  unfold V4.fires. induction n as [|n IH]; [reflexivity|].
  rewrite Nat.iter_succ, v4_fire_id. exact IH.
Qed.

Lemma v4_tracked_fires cfg h n w : V4.tracked w -> V4.tracked (V4.fires cfg h n w).
Proof.
  intros H. unfold V4.fires. induction n as [|n IH]; [exact H|].
  rewrite Nat.iter_succ. now apply v4_tracked_fire.
Qed.

(** C3, as amended.  In every state the navigator reaches from a page load,
    under any order of user events, observer reports and timer callbacks,
    the table holds at most one scramble interval.  [scramble] of v6.0
    cancels nothing: the intervals of the table are still there after a
    call.  It is [updateText] that clears the interval the navigator holds,
    and only when [isAnimating] is down: then the interval of the run before
    is gone from the table, the new one is the only one, and when it has run
    its ticks the node shows the new title (in upper case; the title is
    taken in the ASCII range) and no scramble interval is left.  While
    [isAnimating] is up [updateText] returns at once: the newer title is
    dropped, not queued.  In the v4.0 draft [scramble] itself clears the
    interval kept in [_id]: a new call cancels the run before and the node
    ends on the newest target, for any sequence of calls and ticks. *)
Theorem one_scramble_per_node (cfg : config) (initialText : jsstring) (evs : list event)
    (title : jsstring) (cfg4 : V4.config) (text4 : jsstring) (evs4 : list V4.event)
    (newText : jsstring) (duration : Q) :
  (let w := run cfg evs (boot cfg initialText) in
   one_scramble w
   /\ (forall hOld t, timers w !! hOld = Some t -> is_scramble t = true ->
         timers (snd (scramble newText duration w)) !! hOld = Some t)
   /\ (isAnimating (st w) = true -> updateText cfg title w = w)
   /\ (isAnimating (st w) = false -> ascii_only title = true ->
       let w' := updateText cfg title w in
       let h := nextTimer w in
       let w'' := fires cfg h (ticks_needed (total_frames (6 # 10))) w' in
       scrambleInterval (st w') = Some h
       /\ (forall hOld t, timers w !! hOld = Some t -> is_scramble t = true ->
             timers w' !! hOld = None)
       /\ one_scramble w'
       /\ textContent (page w'') = toUpperCase title
       /\ no_scramble w''))
  /\
  (let v := V4.run cfg4 evs4 (V4.fresh text4) in
   let v' := V4.scramble newText duration v in
   let h := V4.nextTimer v in
   let v'' := V4.fires cfg4 h (V4.ticks_needed (V4.js_round (duration * 60))) v' in
   (forall h1 h2, is_Some (V4.timers v !! h1) -> is_Some (V4.timers v !! h2) -> h1 = h2)
   /\ (forall hOld, is_Some (V4.timers v !! hOld) -> V4.timers v' !! hOld = None)
   /\ V4.textContent v'' = newText
   /\ V4.timers v'' = ∅).
Proof.
  split.
  - intros w.
    assert (Hw : scramble_tracked w) by apply tracked_run, tracked_boot.
    split; [now apply tracked_one|]. split; [|split].
    { intros hOld t Hold Hs. destruct Hw as [Ht Hf].
      pose proof (Hf _ (Ht _ _ Hold Hs)) as Hlt.
      unfold scramble, set_timer. cbn. rewrite lookup_insert_ne by lia. exact Hold. }
    { intros Ha. unfold updateText. now rewrite Ha. }
    intros Ha _ w' h w''.
    destruct (updateText_starts cfg title w Ha Hw) as (Hid & Hl & Hold).
    fold w' h in Hid, Hl, Hold.
    assert (Hw' : scramble_tracked w') by now apply tracked_updateText.
    destruct (fires_complete cfg h _ _ _ w' Hl) as [Htext Hgone]. fold w'' in Htext, Hgone.
    repeat split; try assumption.
    + now apply tracked_one.
    + intros k t Hk. destruct (is_scramble t) eqn:Hs; [|reflexivity]. exfalso.
      destruct (keeps_fires cfg h (ticks_needed (total_frames (6 # 10))) w')
        as (_ & _ & Hback).
      destruct (Hback k t Hk Hs) as (t0 & Hk0 & Hs0).
      destruct Hw' as [Ht' _]. pose proof (Ht' _ _ Hk0 Hs0) as Hk'.
      rewrite Hid in Hk'. injection Hk' as <-. fold w'' in Hk. congruence.
  - intros v v' h v''.
    assert (Hv : V4.tracked v) by apply v4_tracked_run, v4_tracked_fresh.
    destruct (v4_scramble_starts newText duration v) as [Hid Hl].
    rewrite v4_nextTimer_clear in Hid, Hl. fold v' h in Hid, Hl.
    destruct (v4_fires_complete cfg4 h _ _ _ v' Hl Hid) as [Htext Hgone].
    fold v'' in Htext, Hgone.
    split; [|split; [|split]].
    + intros h1 h2 [t1 H1] [t2 H2]. destruct Hv as [Ht _].
      pose proof (Ht _ _ H1). pose proof (Ht _ _ H2). congruence.
    + intros hOld Hold. now apply v4_scramble_cancels.
    + exact Htext.
    + apply map_empty. intros k. destruct (V4.timers v'' !! k) as [t|] eqn:Hk; [|reflexivity].
      exfalso.
      assert (Hv'' : V4.tracked v'').
      { apply v4_tracked_fires. now apply v4_tracked_scramble. }
      destruct Hv'' as [Ht'' _]. pose proof (Ht'' _ _ Hk) as Hk'.
      unfold v'' in Hk'. rewrite v4_fires_id, Hid in Hk'. injection Hk' as <-.
      congruence.
Qed.

Lemma one_scramble_per_node_witness :
  isAnimating (st (run demo [Observe [(true, 1)]; Fire 3] (boot demo (lit "M0NARQ")))) = false
  /\ ascii_only (lit "Home") = true
  /\ textContent (page
       (fires demo 5 (ticks_needed (total_frames (6 # 10)))
          (updateText demo (lit "Home")
             (run demo [Observe [(true, 1)]; Fire 3] (boot demo (lit "M0NARQ"))))))
     = lit "HOME".
Proof.
  split; [reflexivity|]. split; [reflexivity|].
  exact (proj1 (proj2 (proj2 (proj2
           (proj2 (proj2 (proj2 (proj1 (one_scramble_per_node demo (lit "M0NARQ")
                            [Observe [(true, 1)]; Fire 3] (lit "Home")
                            demo_v4 [] [] [] 0)))) eq_refl eq_refl))))).
Defined.

(** C3, as stated, fails on the navigator.  On the loaded page the title
    "About" starts a run under the handle 2; the title "Home", asked for
    while [isAnimating] is up, is dropped: the interval of the first run is
    not cancelled, and when it has run its ticks the node shows "ABOUT". *)
Lemma newer_title_counterexample :
  ~ last_write_wins demo (boot demo (lit "M0NARQ")) (lit "About") (lit "Home").
Proof.
  intros [_ H]. specialize (H 2%positive eq_refl). vm_compute in H. discriminate H.
Qed.

(** ** Navigation requests and the observer *)

Lemma same_section_refl w : same_section w w.
Proof. now repeat split. Qed.

Lemma same_section_trans w1 w2 w3 :
  same_section w1 w2 -> same_section w2 w3 -> same_section w1 w3.
Proof. intros (?&?&?) (?&?&?). repeat split; congruence. Qed.

Lemma same_section_startIdleAnimation cfg w : same_section w (startIdleAnimation cfg w).
Proof. unfold startIdleAnimation, same_section, clear_if_set, set_timer. split_cases; cbn; auto. Qed.

Lemma same_section_resetIdleTimer w : same_section w (resetIdleTimer w).
Proof. unfold resetIdleTimer, same_section, clear_if_set, set_timer. split_cases; cbn; auto. Qed.

Lemma same_section_toggleExpanded cfg b w : same_section w (toggleExpanded cfg b w).
Proof.
  unfold toggleExpanded. destruct b; cbn zeta.
  - unfold same_section, resetIdleTimer, clear_if_set, set_timer. split_cases; cbn; auto.
  - eapply same_section_trans; [|apply same_section_startIdleAnimation].
    unfold same_section, clear_if_set. split_cases; cbn; auto.
Qed.

Lemma same_section_toggleMenu cfg b w : same_section w (toggleMenu cfg b w).
Proof. unfold toggleMenu, same_section. split_cases; cbn; auto. Qed.

Lemma same_section_navigateToSection cfg i w : same_section w (navigateToSection cfg i w).
Proof. unfold navigateToSection, same_section. split_cases; cbn; auto. Qed.

Lemma same_section_fire cfg h w : same_section w (fire cfg h w).
Proof.
  unfold fire. destruct (timers w !! h) as [[nt ml tf f|ct gc|d| |]|];
    [| | | | |apply same_section_refl].
  - unfold scramble_tick, same_section. split_cases; cbn; auto.
  - unfold glitch_tick, same_section. split_cases; cbn; auto.
  - unfold morph_fire. split_cases; [|now repeat split].
    eapply same_section_trans; [|apply same_section_startIdleAnimation]. now repeat split.
  - unfold unlock_fire. cbn zeta. split_cases; [|now repeat split].
    eapply same_section_trans; [|apply same_section_startIdleAnimation]. now repeat split.
  - eapply same_section_trans; [|apply same_section_toggleExpanded]. now repeat split.
Qed.

Lemma same_section_destroy w : same_section w (destroy w).
Proof. unfold destroy, same_section, clear_if_set. split_cases; cbn; auto. Qed.

(** Every event but a report of the observer leaves the section state. *)
Lemma same_section_handle cfg e w :
  (forall entries, e <> Observe entries) -> same_section w (handle cfg e w).
Proof.
  intros Hobs. unfold handle.
  destruct e as [h| | | | | |k|diff|entries|];
    try apply same_section_fire; try apply same_section_destroy;
    (destruct (listening cfg); [|apply same_section_refl]); cbn [on_event].
  - apply same_section_toggleExpanded.
  - destruct (hasMenuButton cfg); [apply same_section_toggleMenu|apply same_section_refl].
  - eapply same_section_trans; [apply same_section_navigateToSection|apply same_section_resetIdleTimer].
  - eapply same_section_trans; [apply same_section_navigateToSection|apply same_section_resetIdleTimer].
  - destruct (hasMenuButton cfg); [|apply same_section_refl].
    eapply same_section_trans; [apply same_section_toggleExpanded|apply same_section_toggleMenu].
  - destruct k; try apply same_section_navigateToSection; [|apply same_section_refl].
    eapply same_section_trans; [apply same_section_toggleExpanded|apply same_section_toggleMenu].
  - destruct (Qltb 50 (Qabs diff)); [apply same_section_navigateToSection|apply same_section_refl].
  - now destruct (Hobs entries).
Qed.

Lemma updateText_index cfg title w :
  currentIndex (st (updateText cfg title w)) = currentIndex (st w).
Proof. unfold updateText, clear_if_set, scramble, set_timer. split_cases; cbn; auto. Qed.

Lemma updateCurrentSection_index cfg index w :
  currentIndex (st (updateCurrentSection cfg index w)) = Z.of_nat index.
Proof.
  unfold updateCurrentSection. cbn zeta. destruct (titles cfg !! index); [|reflexivity].
  unfold updateProgress. destruct (negb (hasProgressBar cfg)); cbn;
    now rewrite updateText_index.
Qed.

Lemma observe_entries_index cfg i0 entries : forall w acc,
  currentIndex (st w) = index_after i0 acc ->
  currentIndex (st (fold_left (observe_entry cfg) entries w))
  = index_after i0 (fold_left confirmed_entry entries acc).
Proof.
  induction entries as [|[b k] entries IH]; intros w acc Hw; [exact Hw|].
  cbn [fold_left]. apply IH. unfold observe_entry, confirmed_entry. cbn [fst snd].
  destruct b; [|exact Hw]. cbn [index_after].
  destruct (Z.of_nat k =? currentIndex (st w))%Z eqn:E; cbn [negb].
  - apply Z.eqb_eq in E. congruence.
  - apply updateCurrentSection_index.
Qed.

Lemma handle_index cfg i0 e w acc :
  listening cfg = true ->
  currentIndex (st w) = index_after i0 acc ->
  currentIndex (st (handle cfg e w)) = index_after i0 (confirmed_by acc e).
Proof.
  intros Hl Hw. destruct e as [h| | | | | |k|diff|entries|];
    try (cbn [confirmed_by]; rewrite <- Hw; apply same_section_handle; discriminate).
  unfold handle. rewrite Hl. cbn [on_event confirmed_by].
  now apply observe_entries_index.
Qed.

Lemma run_index cfg i0 evs : forall w acc,
  listening cfg = true ->
  currentIndex (st w) = index_after i0 acc ->
  currentIndex (st (run cfg evs w)) = index_after i0 (fold_left confirmed_by evs acc).
Proof.
  induction evs as [|e evs IH]; intros w acc Hl Hw; [exact Hw|].
  cbn [run fold_left]. apply IH; [exact Hl|]. now apply handle_index.
Qed.

(** C4.  With the listeners installed, a request for a neighbouring section
    (arrow of the island, arrow key, swipe) leaves the current index, the
    active flag and the progress width as they are; no event other than a
    report of the observer changes the current index; and after any sequence
    of events the current index is the section of the last intersecting
    entry the observer reported, or the index before the sequence when there
    was none. *)
Theorem index_follows_observer (cfg : config) (evs : list event) (w : world) :
  listening cfg = true ->
  (forall e, directional e = true -> same_section w (handle cfg e w))
  /\ (forall e, (forall entries, e <> Observe entries) ->
        currentIndex (st (handle cfg e w)) = currentIndex (st w))
  /\ currentIndex (st (run cfg evs w))
     = match last_confirmed evs with
       | Some k => Z.of_nat k
       | None => currentIndex (st w)
       end.
Proof.
  intros Hl. split; [|split].
  - intros e He. apply same_section_handle. intros entries ->. discriminate He.
  - intros e He. now apply same_section_handle.
  - apply (run_index cfg (currentIndex (st w)) evs w None Hl). reflexivity.
Qed.

Lemma index_follows_observer_witness :
  listening demo = true
  /\ currentIndex (st (run demo [ClickNext; Observe [(true, 1)]; ClickPrev; KeyDown ArrowUp]
                         (boot demo (lit "M0NARQ")))) = 1%Z.
Proof.
  split; [reflexivity|].
  exact (proj2 (proj2 (index_follows_observer demo
           [ClickNext; Observe [(true, 1)]; ClickPrev; KeyDown ArrowUp]
           (boot demo (lit "M0NARQ")) eq_refl))).
Defined.

(** ** Clamping and the guard of [navigateToSection] *)

Lemma clamp_index_range cfg index :
  titles cfg <> [] ->
  (0 <= clamp_index cfg index <= Z.of_nat (length (titles cfg)) - 1)%Z.
Proof.
  intros Hne. unfold clamp_index.
  assert (0 < length (titles cfg)) by (destruct (titles cfg); [congruence|cbn; lia]).
  lia.
Qed.

Lemma navigateToSection_same cfg index w :
  clamp_index cfg index = currentIndex (st w) -> navigateToSection cfg index w = w.
Proof.
  intros H. unfold navigateToSection. destruct (isAnimating (st w)); [reflexivity|].
  rewrite H, Z.eqb_refl. reflexivity.
Qed.

Lemma navigateToSection_scrolls cfg index w :
  scrolls (navigateToSection cfg index w) = scrolls w
  \/ scrolls (navigateToSection cfg index w)
     = scrolls w ++ [LenisScrollTo (clamp_index cfg index)]
  \/ scrolls (navigateToSection cfg index w)
     = scrolls w ++ [ScrollIntoView (clamp_index cfg index)].
Proof.
  unfold navigateToSection. destruct (isAnimating (st w)); [now left|].
  destruct (clamp_index cfg index =? currentIndex (st w))%Z; [now left|].
  destruct (smoothScroll cfg); cbn; auto.
Qed.

Lemma resetIdleTimer_scrolls w :
  scrolls (resetIdleTimer w) = scrolls w
  /\ currentIndex (st (resetIdleTimer w)) = currentIndex (st w).
Proof.
  unfold resetIdleTimer, clear_if_set, set_timer.
  destruct (idleTimeout (st w)); cbn; destruct (isExpanded (st w)); cbn; auto.
Qed.

(** C5.  The index a request asks for is clamped to
    [0 .. sectionCount - 1]; a request whose clamped index is the current one
    changes nothing at all, so "previous" on the first section and "next" on
    the last one issue no scroll and leave the index (the click of the arrow
    only re-arms the collapse timer of an expanded island); and a scroll, when
    one is issued, goes to the clamped index.  [go] of the v4.0 draft clamps
    in the same way. *)
Theorem navigation_clamped (cfg : config) (index : Z) (w : world)
    (cfg4 : V4.config) (v : V4.world) :
  titles cfg <> [] ->
  (0 <= clamp_index cfg index <= Z.of_nat (length (titles cfg)) - 1)%Z
  /\ (clamp_index cfg index = currentIndex (st w) -> navigateToSection cfg index w = w)
  /\ (currentIndex (st w) = 0%Z ->
      navigateToSection cfg (currentIndex (st w) - 1) w = w
      /\ scrolls (handle cfg ClickPrev w) = scrolls w
      /\ currentIndex (st (handle cfg ClickPrev w)) = 0%Z
      /\ handle cfg (KeyDown ArrowUp) w = w)
  /\ (currentIndex (st w) = (Z.of_nat (length (titles cfg)) - 1)%Z ->
      navigateToSection cfg (currentIndex (st w) + 1) w = w)
  /\ (scrolls (navigateToSection cfg index w) = scrolls w
      \/ scrolls (navigateToSection cfg index w)
         = scrolls w ++ [LenisScrollTo (clamp_index cfg index)]
      \/ scrolls (navigateToSection cfg index w)
         = scrolls w ++ [ScrollIntoView (clamp_index cfg index)])
  /\ (V4.idx (V4.st v) = 0%Z -> V4.go cfg4 (V4.idx (V4.st v) - 1) v = v)
  /\ (Z.max 0 (Z.min (Z.of_nat (V4.sections cfg4) - 1) index) = V4.idx (V4.st v) ->
      V4.go cfg4 index v = v).
Proof.
  intros Hne.
  assert (Hlen : 0 < length (titles cfg)) by (destruct (titles cfg); [congruence|cbn; lia]).
  assert (Hlisten : listening cfg = true) by (unfold listening; destruct (titles cfg); congruence).
  split; [now apply clamp_index_range|].
  split; [apply navigateToSection_same|].
  split.
  { intros H0.
    assert (Hsame : navigateToSection cfg (currentIndex (st w) - 1) w = w).
    { apply navigateToSection_same. unfold clamp_index. lia. }
    split; [exact Hsame|]. unfold handle. rewrite Hlisten. cbn [on_event].
    rewrite Hsame. destruct (resetIdleTimer_scrolls w) as [Hs Hi].
    split; [exact Hs|]. split; [congruence|reflexivity]. }
  split.
  { intros Hlast. apply navigateToSection_same. unfold clamp_index. lia. }
  split; [apply navigateToSection_scrolls|].
  split.
  - intros H0. unfold V4.go. destruct (V4.isAnimating (V4.st v)); [reflexivity|].
    replace (Z.max 0 (Z.min (Z.of_nat (V4.sections cfg4) - 1) (V4.idx (V4.st v) - 1)))
      with (V4.idx (V4.st v)) by lia.
    now rewrite Z.eqb_refl.
  - intros H. unfold V4.go. destruct (V4.isAnimating (V4.st v)); [reflexivity|].
    now rewrite H, Z.eqb_refl.
Qed.

Lemma navigation_clamped_witness :
  titles demo <> []
  /\ navigateToSection demo (-1) (boot demo (lit "M0NARQ")) = boot demo (lit "M0NARQ").
Proof.
  assert (Hne : titles demo <> []) by discriminate.
  split; [exact Hne|].
  exact (proj1 (proj1 (proj2 (proj2 (navigation_clamped demo (-1)
           (boot demo (lit "M0NARQ")) demo_v4 (V4.fresh []) Hne))) eq_refl)).
Defined.

(** C10.  While [isAnimating] is set, [navigateToSection] returns the world
    it was given: no scroll request, no change of any field, nothing left in
    the timer table to run later; so the events that follow are handled as if
    the request had never been made.  The same holds for [go] of the v4.0
    draft. *)
Theorem navigation_dropped_while_animating (cfg : config) (index : Z) (w : world)
    (evs : list event) (cfg4 : V4.config) (v : V4.world) :
  isAnimating (st w) = true ->
  V4.isAnimating (V4.st v) = true ->
  navigateToSection cfg index w = w
  /\ handle cfg (KeyDown ArrowDown) w = w
  /\ handle cfg (KeyDown ArrowUp) w = w
  /\ (forall diff, handle cfg (Swipe diff) w = w)
  /\ scrolls (handle cfg ClickNext w) = scrolls w
  /\ scrolls (handle cfg ClickPrev w) = scrolls w
  /\ run cfg evs (navigateToSection cfg index w) = run cfg evs w
  /\ V4.go cfg4 index v = v.
Proof.
  intros Ha Ha4.
  assert (Hnav : forall i, navigateToSection cfg i w = w).
  { intros i. unfold navigateToSection. now rewrite Ha. }
  repeat split.
  - apply Hnav.
  - unfold handle. destruct (listening cfg); [apply Hnav|reflexivity].
  - unfold handle. destruct (listening cfg); [apply Hnav|reflexivity].
  - intros diff. unfold handle. destruct (listening cfg); [|reflexivity].
    cbn [on_event]. destruct (Qltb 50 (Qabs diff)); [apply Hnav|reflexivity].
  - unfold handle. destruct (listening cfg); [|reflexivity]. cbn [on_event].
    rewrite Hnav. apply resetIdleTimer_scrolls.
  - unfold handle. destruct (listening cfg); [|reflexivity]. cbn [on_event].
    rewrite Hnav. apply resetIdleTimer_scrolls.
  - now rewrite Hnav.
  - now apply v4_go_animating.
Qed.

Lemma navigation_dropped_while_animating_witness :
  isAnimating (st (run demo [Observe [(true, 1)]] (boot demo (lit "M0NARQ")))) = true
  /\ V4.isAnimating (V4.st busy_v4) = true
  /\ navigateToSection demo 0 (run demo [Observe [(true, 1)]] (boot demo (lit "M0NARQ")))
     = run demo [Observe [(true, 1)]] (boot demo (lit "M0NARQ")).
Proof.
  split; [reflexivity|]. split; [reflexivity|].
  exact (proj1 (navigation_dropped_while_animating demo 0
           (run demo [Observe [(true, 1)]] (boot demo (lit "M0NARQ")))
           [] demo_v4 busy_v4 eq_refl eq_refl)).
Defined.

(** ** The idle glitch *)

Lemma startIdleAnimation_glitches cfg w :
  glitchStarts (startIdleAnimation cfg w) = glitchStarts w.
Proof. unfold startIdleAnimation, clear_if_set, set_timer. split_cases; reflexivity. Qed.

Lemma toggleExpanded_glitches cfg b w :
  glitchStarts (toggleExpanded cfg b w) = glitchStarts w.
Proof.
  unfold toggleExpanded. destruct b; cbn zeta.
  - unfold resetIdleTimer, clear_if_set, set_timer. split_cases; reflexivity.
  - rewrite startIdleAnimation_glitches. unfold clear_if_set. split_cases; reflexivity.
Qed.

Lemma toggleMenu_glitches cfg b w :
  glitchStarts (toggleMenu cfg b w) = glitchStarts w.
Proof. unfold toggleMenu. split_cases; reflexivity. Qed.

Lemma navigateToSection_glitches cfg i w :
  glitchStarts (navigateToSection cfg i w) = glitchStarts w.
Proof. unfold navigateToSection. split_cases; reflexivity. Qed.

Lemma resetIdleTimer_glitches w : glitchStarts (resetIdleTimer w) = glitchStarts w.
Proof. unfold resetIdleTimer, clear_if_set, set_timer. split_cases; reflexivity. Qed.

Lemma updateCurrentSection_glitches cfg k w :
  glitchStarts (updateCurrentSection cfg k w) = glitchStarts w.
Proof.
  unfold updateCurrentSection, updateProgress, updateText, scramble, set_timer, clear_if_set.
  cbn zeta. split_cases; reflexivity.
Qed.

Lemma observe_glitches cfg entries : forall w,
  glitchStarts (fold_left (observe_entry cfg) entries w) = glitchStarts w.
Proof.
  induction entries as [|[b k] entries IH]; intros w; [reflexivity|].
  cbn [fold_left]. rewrite IH. unfold observe_entry.
  destruct b; [|reflexivity]. destruct (negb _); [|reflexivity].
  apply updateCurrentSection_glitches.
Qed.

(** The glitch starts only from the idle timeout, and only with both flags
    down. *)
Lemma glitch_needs_idle cfg e w :
  glitchStarts (handle cfg e w) <> glitchStarts w ->
  isExpanded (st w) = false /\ isMenuOpen (st w) = false.
Proof.
  intros H. destruct e as [h| | | | | |k|diff|entries|]; unfold handle in H;
    try (destruct (listening cfg); [|now destruct H]); cbn [on_event] in H.
  - unfold fire in H.
    destruct (timers w !! h) as [[nt ml tf f|ct gc|d| |]|]; try now destruct H.
    + exfalso. apply H. unfold scramble_tick. split_cases; reflexivity.
    + exfalso. apply H. unfold glitch_tick. split_cases; reflexivity.
    + unfold morph_fire in H. cbn in H.
      destruct (isExpanded (st w)), (isMenuOpen (st w)); cbn in H; try now destruct H.
      now split.
    + exfalso. apply H. unfold unlock_fire. cbn zeta.
      destruct (negb _); [rewrite startIdleAnimation_glitches|]; reflexivity.
    + exfalso. apply H. now rewrite toggleExpanded_glitches.
  - exfalso. apply H. apply toggleExpanded_glitches.
  - exfalso. apply H. destruct (hasMenuButton cfg); [apply toggleMenu_glitches|reflexivity].
  - exfalso. apply H. now rewrite resetIdleTimer_glitches, navigateToSection_glitches.
  - exfalso. apply H. now rewrite resetIdleTimer_glitches, navigateToSection_glitches.
  - exfalso. apply H. destruct (hasMenuButton cfg); [|reflexivity].
    now rewrite toggleMenu_glitches, toggleExpanded_glitches.
  - exfalso. apply H. destruct k; try apply navigateToSection_glitches; [|reflexivity].
    now rewrite toggleMenu_glitches, toggleExpanded_glitches.
  - exfalso. apply H. destruct (Qltb 50 (Qabs diff)); [apply navigateToSection_glitches|reflexivity].
  - exfalso. apply H. apply observe_glitches.
  - exfalso. apply H. unfold destroy, clear_if_set. cbn zeta. split_cases; reflexivity.
Qed.

(** What the two toggles do to the idle timeout. *)

Lemma toggleMenu_timers cfg force w :
  timers (toggleMenu cfg force w) = timers w
  /\ morphTimeout (st (toggleMenu cfg force w)) = morphTimeout (st w).
Proof. unfold toggleMenu. destruct (_ || _); split; reflexivity. Qed.

Lemma expand_cancels_idle cfg w h :
  morphTimeout (st w) = Some h -> timers (toggleExpanded cfg true w) !! h = None.
Proof.
  intros Hh. unfold toggleExpanded. cbn zeta.
  assert (Hm : morphTimeout (st (resetIdleTimer
                 (with_page (set_expandedClass true) (with_st (set_isExpanded true) w))))
               = Some h).
  { unfold resetIdleTimer, clear_if_set, set_timer. cbn.
    destruct (idleTimeout (st w)); cbn; exact Hh. }
  rewrite Hm. cbn. apply lookup_delete_eq.
Qed.

Lemma idle_delay_range cfg w :
  (0 <= rng cfg (drawn w) /\ rng cfg (drawn w) < 1)%Q ->
  isExpanded (st w) = false -> isMenuOpen (st w) = false ->
  let w' := startIdleAnimation cfg w in
  exists d, timers w' !! nextTimer w = Some (MorphTimeout d)
            /\ morphTimeout (st w') = Some (nextTimer w)
            /\ (3000 <= d /\ d < 5000)%Q.
Proof.
  intros [H0 H1] He Hm. cbn zeta. unfold startIdleAnimation, clear_if_set, set_timer.
  exists (3000 + rng cfg (drawn w) * 2000)%Q.
  destruct (morphTimeout (st w)); cbn; rewrite He, Hm; cbn;
    (split; [apply lookup_insert_eq|split; [reflexivity|split; lra]]).
Qed.

Lemma collapse_rearms_idle cfg w :
  (0 <= rng cfg (drawn w) /\ rng cfg (drawn w) < 1)%Q ->
  isMenuOpen (st w) = false ->
  let w' := toggleExpanded cfg false w in
  exists d, timers w' !! nextTimer w = Some (MorphTimeout d)
            /\ morphTimeout (st w') = Some (nextTimer w)
            /\ (3000 <= d /\ d < 5000)%Q.
Proof.
  intros Hr Hm. cbn zeta. unfold toggleExpanded. cbn zeta.
  set (w3 := clear_if_set _ _).
  assert (E : nextTimer w3 = nextTimer w /\ drawn w3 = drawn w
              /\ isExpanded (st w3) = false /\ isMenuOpen (st w3) = false).
  { subst w3. unfold clear_if_set. cbn. destruct (idleTimeout (st w)); cbn; auto. }
  destruct E as (En & Ed & Ee & Em).
  rewrite <- En. apply idle_delay_range; [now rewrite Ed|exact Ee|exact Em].
Qed.

(** C6, on the code.  [toggleMenu] never touches the timer table nor
    [morphTimeout].  So opening the menu leaves the pending idle timeout in
    the table; when it fires under the open menu it neither glitches nor
    re-arms; closing the menu arms nothing, and with both flags down no idle
    timeout is left.  Expanding the island, the sibling path, cancels the
    timeout, and collapsing it arms a new one. *)
Theorem menu_leaves_idle_timer (cfg : config) (force : option bool) (w : world) :
  (timers (toggleMenu cfg force w) = timers w
   /\ morphTimeout (st (toggleMenu cfg force w)) = morphTimeout (st w))
  /\
  (let w0 := boot demo (lit "M0NARQ") in
   let w1 := handle demo ClickMenuButton w0 in
   let w2 := handle demo (Fire 1) w1 in
   let w3 := handle demo ClickMenuButton w2 in
   List.map fst (idle_armed w0) = [1%positive]
   /\ isMenuOpen (st w1) = true
   /\ List.map fst (idle_armed w1) = [1%positive]
   /\ glitchStarts w2 = 0 /\ idle_armed w2 = []
   /\ isExpanded (st w3) = false /\ isMenuOpen (st w3) = false
   /\ idle_armed w3 = []
   /\ idle_armed (handle demo ClickIsland w0) = []
   /\ List.map fst (idle_armed (handle demo ClickIsland (handle demo ClickIsland w0)))
      = [3%positive]).
Proof.
  split; [apply toggleMenu_timers|]. vm_compute. repeat split.
Qed.

(** * The boot sequence *)

(** C7, as amended.  With the animation library or the scroll library
    absent, the promise of the v6.0 [init] never rejects; the document ends
    with the class [loaded] on [html] and [body] and with its loaders
    removed; [init] resolves as soon as the critical images settle; without
    the animation library no tween is requested and [init] reaches its end;
    without the scroll library no smooth-scroll controller is created (the
    animations still run, on native scrolling). *)
Theorem boot_survives_missing_library (e : Boot.env) :
  Boot.gsap e = false \/ Boot.Lenis e = false ->
  let r := Boot.init e (Boot.start e) in
  (forall d, r <> Boot.Rejected d)
  /\ Boot.bodyLoaded (Boot.final r) = true
  /\ Boot.htmlLoaded (Boot.final r) = true
  /\ Boot.loadersLeft (Boot.final r) = 0
  /\ (Boot.criticalImages e = 0 \/ Boot.imagesSettle e = true ->
      exists d, r = Boot.Resolved d)
  /\ (Boot.gsap e = false -> Boot.tweens (Boot.final r) = 0)
  /\ (Boot.gsap e = false ->
      Boot.criticalImages e = 0 \/ Boot.imagesSettle e = true ->
      Boot.isInitialized (Boot.final r) = true)
  /\ (Boot.Lenis e = false -> Boot.lenisCreated (Boot.final r) = false).
Proof.
  intros Hmiss r. subst r.
  unfold Boot.init, Boot.init_body, Boot.removeLoaderAnimated, Boot.validateDependencies,
    Boot.initGSAP, Boot.initScrollSystem, Boot.preloadCriticalImages,
    Boot.initDynamicIsland, Boot.initNavigation, Boot.initCriticalAnimations,
    Boot.animateHero, Boot.animateAboveFold, Boot.initDeferredAnimations,
    Boot.initResizeHandler, Boot.start.
  destruct e as [g s l lo ci im isl ith mt mo ht hi hs hst af]. cbn in Hmiss |- *.
  destruct (Nat.eqb_spec lo 0) as [->|Hlo]; destruct (Nat.eqb_spec ci 0) as [->|Hci];
    destruct g, s, l, im, isl, ith, mt, mo, ht, hi; cbn;
    repeat split; try discriminate; try reflexivity; try lia;
    try (intros; eauto; fail);
    try (intros [?|?]; eauto; congruence);
    try (destruct Hmiss; congruence).
Qed.

Lemma boot_survives_missing_library_witness :
  (Boot.gsap demo_env = false \/ Boot.Lenis demo_env = false)
  /\ Boot.bodyLoaded (Boot.final (Boot.init demo_env (Boot.start demo_env))) = true.
Proof.
  assert (H : Boot.gsap demo_env = false \/ Boot.Lenis demo_env = false)
    by (left; reflexivity).
  split; [exact H|].
  exact (proj1 (proj2 (boot_survives_missing_library demo_env H))).
Defined.

(** C7, as stated, fails in two places.  With only the scroll library
    absent the v6.0 code keeps animating (here the loader fade and the hero
    title), so there is no fallback without animation; and in the v5.0 draft
    [validateDependencies] throws and [init] has no [try]: the promise
    rejects, after [removeLoader] has shown the page. *)
Lemma no_animation_counterexample :
  ~ Boot.boots_as_specified native_scroll_env
  /\ Boot.tweens (Boot.final (Boot.init native_scroll_env (Boot.start native_scroll_env))) = 2
  /\ exists d, Boot.init_v5_head native_scroll_env (Boot.start native_scroll_env)
               = Boot.Rejected d.
Proof.
  split; [|split; [reflexivity|eexists; reflexivity]].
  intros H. destruct H as (_ & Htw & _); [right; reflexivity|]. discriminate Htw.
Qed.

(** The v5.0 draft differs: its [validateDependencies] throws and [init] has
    no [try], so the promise rejects; [removeLoader] has shown the page
    before. *)
Lemma v5_init_rejects (e : Boot.env) (d : Boot.document) :
  Boot.gsap e = false \/ Boot.Lenis e = false ->
  exists d', Boot.init_v5_head e d = Boot.Rejected d'
             /\ Boot.bodyStyleVisible d' = true /\ Boot.htmlLoaded d' = true.
Proof.
  intros H. unfold Boot.init_v5_head, Boot.validateDependencies_v5. cbn.
  destruct (Boot.gsap e), (Boot.ScrollTrigger e), (Boot.Lenis e); cbn;
    try (destruct H; discriminate); eauto.
Qed.

(** * The counter *)

Lemma onUpdate_suffix d vs : forall el,
  Counter.suffix (fold_left (Counter.onUpdate d) vs el) = Counter.suffix el.
Proof. induction vs as [|v vs IH]; intros el; [reflexivity|]. cbn [fold_left]. now rewrite IH. Qed.

Lemma tween_ends_on_target d target samples el :
  Counter.text (fold_left (Counter.onUpdate d) (Counter.tween_values target samples) el)
  = Counter.toLocaleString target d ++ Counter.suffix_or_empty el.
Proof.
  unfold Counter.tween_values. rewrite fold_left_app. cbn [fold_left Counter.onUpdate Counter.text].
  unfold Counter.suffix_or_empty. now rewrite onUpdate_suffix.
Qed.

(** C8.  For the counter "1234.5" the last update of the tween writes
    "1,234.5" followed by the suffix as it is (nothing when there is none),
    whatever the updates before it were; in general the last update writes
    the target formatted with as many fraction digits as follow the point in
    the attribute.  Further targets are formatted alike. *)
Theorem counter_renders_grouped (samples : list Q) (sfx : option jsstring)
    (text0 : jsstring) (el : Counter.counter_element) :
  Counter.text (Counter.animate_counter true samples
                  {| Counter.counter := lit "1234.5"; Counter.suffix := sfx;
                     Counter.text := text0 |})
  = lit "1,234.5" ++ match sfx with Some s => s | None => [] end
  /\ Counter.decimals_of (lit "1234.5") = 1
  /\ match Counter.parseFloat (Counter.counter el) with
     | Some target =>
         Counter.text (Counter.animate_counter true samples el)
         = Counter.toLocaleString target (Counter.decimals_of (Counter.counter el))
           ++ Counter.suffix_or_empty el
     | None => Counter.animate_counter true samples el = el
     end
  /\ Counter.toLocaleString (1234567 # 1) 0 = lit "1,234,567"
  /\ Counter.toLocaleString (9950 # 100) 2 = lit "99.50"
  /\ Counter.toLocaleString (5 # 10) 1 = lit "0.5".
Proof.
  split; [|split; [reflexivity|split; [|repeat split; reflexivity]]].
  - assert (Hp : Counter.parseFloat (lit "1234.5") = Some (2469 # 2)) by reflexivity.
    unfold Counter.animate_counter. cbn [negb Counter.counter]. rewrite Hp.
    rewrite tween_ends_on_target. reflexivity.
  - unfold Counter.animate_counter. cbn [negb].
    destruct (Counter.parseFloat (Counter.counter el)) as [target|]; [|reflexivity].
    apply tween_ends_on_target.
Qed.

(** * The scroll-linked reveal *)

Lemma times_in_snoc el tweens batch :
  Reveal.times_in el (tweens ++ [batch])
  = Reveal.times_in el tweens + (if bool_decide (el ∈ batch) then 1 else 0).
Proof.
  unfold Reveal.times_in. rewrite List.filter_app, length_app. cbn.
  destruct (bool_decide (el ∈ batch)); reflexivity.
Qed.













(** * The discipline of the timer table *)

Lemma fresh_delete m n h : table_fresh m n -> table_fresh (delete h m) n.
Proof. intros H h' t Hl. apply lookup_delete_Some in Hl as [_ Hl]. eauto. Qed.

Lemma fresh_insert_next m n t : table_fresh m n -> table_fresh (<[n := t]> m) (Pos.succ n).
Proof.
  intros H h' t' Hl. apply lookup_insert_Some in Hl as [[<- _]|[_ Hl]]; [lia|].
  apply H in Hl. lia.
Qed.

Lemma fresh_replace m n h t t' :
  table_fresh m n -> m !! h = Some t -> table_fresh (<[h := t']> m) n.
Proof.
  intros H Hh h' t0 Hl. apply lookup_insert_Some in Hl as [[<- _]|[_ Hl]]; eauto.
Qed.

Lemma fresh_empty n : table_fresh ∅ n.
Proof. intros h t Hl. now rewrite lookup_empty in Hl. Qed.

Lemma wf_delete k f m n h : field_wf k f m n -> field_wf k f (delete h m) n.
Proof.
  intros (H1 & H2 & H3). split; [assumption|]. split.
  - intros h' t Hf Hl. apply lookup_delete_Some in Hl as [_ Hl]. eauto.
  - intros h' t Hl. apply lookup_delete_Some in Hl as [_ Hl]. eauto.
Qed.

Lemma wf_insert_next k f m n t :
  field_wf k f m n -> k t = false -> table_fresh m n ->
  field_wf k f (<[n := t]> m) (Pos.succ n).
Proof.
  intros (H1 & H2 & H3) Hk Hfresh. split; [|split].
  - intros h Hf. apply H1 in Hf. lia.
  - intros h t' Hf Hl. apply lookup_insert_Some in Hl as [[<- _]|[_ Hl]]; eauto.
    apply H1 in Hf. lia.
  - intros h t' Hl Hk'. apply lookup_insert_Some in Hl as [[<- <-]|[_ Hl]]; eauto;
      congruence.
Qed.

Lemma wf_replace k f m n h t t' :
  field_wf k f m n -> m !! h = Some t -> k t' = k t ->
  field_wf k f (<[h := t']> m) n.
Proof.
  intros (H1 & H2 & H3) Hh Hk. split; [assumption|]. split.
  - intros h' t0 Hf Hl. apply lookup_insert_Some in Hl as [[<- <-]|[_ Hl]]; eauto.
  - intros h' t0 Hl Hk'. apply lookup_insert_Some in Hl as [[<- <-]|[_ Hl]]; eauto.
Qed.

Lemma wf_arm k m n t :
  none_of k m -> k t = true -> field_wf k (Some n) (<[n := t]> m) (Pos.succ n).
Proof.
  intros Hnone Hk. split; [|split].
  - intros h [= <-]. lia.
  - intros h t' [= <-] Hl. rewrite lookup_insert_eq in Hl. congruence.
  - intros h t' Hl Hk'. apply lookup_insert_Some in Hl as [[<- _]|[_ Hl]]; [reflexivity|].
    apply Hnone in Hl. congruence.
Qed.

Lemma wf_unset k m n : none_of k m -> field_wf k None m n.
Proof.
  intros Hnone. split; [discriminate|]. split; [discriminate|].
  intros h t Hl Hk. apply Hnone in Hl. congruence.
Qed.

Lemma none_unset k m n : field_wf k None m n -> none_of k m.
Proof.
  intros (_ & _ & H3) h t Hl. destruct (k t) eqn:E; [|reflexivity].
  now specialize (H3 _ _ Hl E).
Qed.

Lemma none_cleared k h m n : field_wf k (Some h) m n -> none_of k (delete h m).
Proof.
  intros (_ & _ & H3) h' t Hl. apply lookup_delete_Some in Hl as [Hne Hl].
  destruct (k t) eqn:E; [|reflexivity].
  specialize (H3 _ _ Hl E). congruence.
Qed.

Lemma none_delete k h m : none_of k m -> none_of k (delete h m).
Proof. intros H h' t Hl. apply lookup_delete_Some in Hl as [_ Hl]. eauto. Qed.

Lemma none_insert k h t m : none_of k m -> k t = false -> none_of k (<[h := t]> m).
Proof.
  intros H Hk h' t' Hl. apply lookup_insert_Some in Hl as [[_ <-]|[_ Hl]]; eauto.
Qed.

Lemma none_empty k : none_of k ∅.
Proof. intros h t Hl. now rewrite lookup_empty in Hl. Qed.

Lemma lock_delete_field k a h m n :
  field_wf k (Some h) m n -> (forall t, k t = true -> is_unlock t = false) ->
  lock_ok a m -> lock_ok a (delete h m).
Proof.
  intros (_ & H2 & _) Hk [Ha Hu].
  assert (Hkeep : forall h', m !! h' = Some UnlockTimeout ->
                             delete h m !! h' = Some UnlockTimeout).
  { intros h' Hl. apply lookup_delete_Some. split; [|assumption].
    intros <-. specialize (H2 _ _ eq_refl Hl). apply Hk in H2. discriminate. }
  split.
  - rewrite Ha. split; intros [h' Hl].
    + exists h'. eauto.
    + exists h'. now apply lookup_delete_Some in Hl as [_ Hl].
  - intros h1 h2 L1 L2. apply lookup_delete_Some in L1 as [_ L1].
    apply lookup_delete_Some in L2 as [_ L2]. eauto.
Qed.

Lemma lock_delete_other a h t m :
  m !! h = Some t -> is_unlock t = false -> lock_ok a m -> lock_ok a (delete h m).
Proof.
  intros Hh Hk [Ha Hu].
  split.
  - rewrite Ha. split; intros [h' Hl].
    + exists h'. apply lookup_delete_Some. split; [|assumption].
      intros <-. rewrite Hh in Hl. injection Hl as ->. discriminate.
    + exists h'. now apply lookup_delete_Some in Hl as [_ Hl].
  - intros h1 h2 L1 L2. apply lookup_delete_Some in L1 as [_ L1].
    apply lookup_delete_Some in L2 as [_ L2]. eauto.
Qed.

Lemma lock_insert_next a m n t :
  lock_ok a m -> table_fresh m n -> is_unlock t = false -> lock_ok a (<[n := t]> m).
Proof.
  intros [Ha Hu] Hfresh Hk.
  assert (Hold : forall h, <[n := t]> m !! h = Some UnlockTimeout ->
                           m !! h = Some UnlockTimeout).
  { intros h Hl. apply lookup_insert_Some in Hl as [[_ E]|[_ Hl]]; [|easy].
    subst. discriminate. }
  split.
  - rewrite Ha. split; intros [h Hl]; [|eauto].
    exists h. rewrite lookup_insert_ne; [assumption|].
    intros <-. apply Hfresh in Hl. lia.
  - intros h1 h2 L1 L2. eauto.
Qed.

Lemma lock_replace a m h t t' :
  lock_ok a m -> m !! h = Some t -> is_unlock t = false -> is_unlock t' = false ->
  lock_ok a (<[h := t']> m).
Proof.
  intros [Ha Hu] Hh Hk Hk'.
  assert (Hold : forall h', <[h := t']> m !! h' = Some UnlockTimeout ->
                            m !! h' = Some UnlockTimeout).
  { intros h' Hl. apply lookup_insert_Some in Hl as [[_ E]|[_ Hl]]; [|easy].
    subst. discriminate. }
  split.
  - rewrite Ha. split; intros [h' Hl]; [|eauto].
    exists h'. rewrite lookup_insert_ne; [assumption|].
    intros <-. rewrite Hh in Hl. injection Hl as ->. discriminate.
  - intros h1 h2 L1 L2. eauto.
Qed.

Lemma lock_acquire m n :
  lock_ok false m -> table_fresh m n -> lock_ok true (<[n := UnlockTimeout]> m).
Proof.
  intros [Ha Hu] Hfresh.
  assert (Hno : forall h, m !! h = Some UnlockTimeout -> False).
  { intros h Hl. assert (false = true) by (apply Ha; eauto). discriminate. }
  split.
  - split; [|reflexivity]. intros _. exists n. apply lookup_insert_eq.
  - intros h1 h2 L1 L2.
    apply lookup_insert_Some in L1 as [[<- _]|[_ L1]]; [|now apply Hno in L1].
    apply lookup_insert_Some in L2 as [[<- _]|[_ L2]]; [|now apply Hno in L2].
    reflexivity.
Qed.

Lemma lock_release a m h :
  lock_ok a m -> m !! h = Some UnlockTimeout -> lock_ok false (delete h m).
Proof.
  intros [Ha Hu] Hh. split.
  - split; [discriminate|]. intros [h' Hl].
    apply lookup_delete_Some in Hl as [Hne Hl]. now specialize (Hu _ _ Hh Hl).
  - intros h1 h2 L1 L2. apply lookup_delete_Some in L1 as [_ L1].
    apply lookup_delete_Some in L2 as [_ L2]. eauto.
Qed.

Lemma lock_empty : lock_ok false ∅.
Proof.
  split.
  - split; [discriminate|]. intros [h Hl]. now rewrite lookup_empty in Hl.
  - intros h1 h2 L1. now rewrite lookup_empty in L1.
Qed.

Lemma lock_delete_collapse a h m n :
  field_wf is_collapse (Some h) m n -> lock_ok a m -> lock_ok a (delete h m).
Proof. intros H. apply (lock_delete_field _ _ _ _ _ H). now intros []. Qed.

Lemma lock_delete_scramble a h m n :
  field_wf is_scramble (Some h) m n -> lock_ok a m -> lock_ok a (delete h m).
Proof. intros H. apply (lock_delete_field _ _ _ _ _ H). now intros []. Qed.

Lemma lock_delete_morph a h m n :
  field_wf is_morph (Some h) m n -> lock_ok a m -> lock_ok a (delete h m).
Proof. intros H. apply (lock_delete_field _ _ _ _ _ H). now intros []. Qed.

Create HintDb wf.

#[local] Hint Resolve fresh_delete fresh_insert_next fresh_empty
  wf_delete wf_insert_next wf_arm none_unset none_cleared
  none_delete none_insert none_empty lock_delete_collapse lock_delete_scramble
  lock_delete_morph lock_insert_next lock_acquire lock_empty : wf.
#[local] Hint Extern 1 (is_collapse _ = _) => reflexivity : wf.
#[local] Hint Extern 1 (is_scramble _ = _) => reflexivity : wf.
#[local] Hint Extern 1 (is_morph _ = _) => reflexivity : wf.
#[local] Hint Extern 1 (is_unlock _ = _) => reflexivity : wf.

(** The projections of a world built by the setters. *)
Ltac wsimpl :=
  cbn [st page timers nextTimer drawn scrolls glitchStarts currentIndex isExpanded
       isMenuOpen isAnimating idleTimeout scrambleInterval morphTimeout
       set_currentIndex set_isExpanded set_isMenuOpen set_isAnimating set_idleTimeout
       set_scrambleInterval set_morphTimeout with_st with_page with_timers alloc_timer
       clear_timer set_timer set_drawn push_scroll count_glitch fst snd].

Ltac wf_split := split; [|split; [|split; [|split]]].

Ltac wf_auto := wf_split; solve [eauto 6 with wf nocore].

(** ** Steps that keep the table in order *)

Lemma twf_clear_idle w :
  table_wf w ->
  table_wf (clear_if_set (idleTimeout (st w)) w)
  /\ none_of is_collapse (timers (clear_if_set (idleTimeout (st w)) w)).
Proof.
  intros H. unfold clear_if_set. destruct (idleTimeout (st w)) as [h|] eqn:E;
    unfold table_wf in *; wsimpl; rewrite ?E; rewrite E in H;
    destruct H as (Hf & Hc & Hs & Hm & Hl); (split; [wf_auto|eauto with wf nocore]).
Qed.

Lemma twf_clear_scramble w :
  table_wf w ->
  table_wf (clear_if_set (scrambleInterval (st w)) w)
  /\ none_of is_scramble (timers (clear_if_set (scrambleInterval (st w)) w)).
Proof.
  intros H. unfold clear_if_set. destruct (scrambleInterval (st w)) as [h|] eqn:E;
    unfold table_wf in *; wsimpl; rewrite ?E; rewrite E in H;
    destruct H as (Hf & Hc & Hs & Hm & Hl); (split; [wf_auto|eauto with wf nocore]).
Qed.

Lemma twf_clear_morph w :
  table_wf w ->
  table_wf (clear_if_set (morphTimeout (st w)) w)
  /\ none_of is_morph (timers (clear_if_set (morphTimeout (st w)) w)).
Proof.
  intros H. unfold clear_if_set. destruct (morphTimeout (st w)) as [h|] eqn:E;
    unfold table_wf in *; wsimpl; rewrite ?E; rewrite E in H;
    destruct H as (Hf & Hc & Hs & Hm & Hl); (split; [wf_auto|eauto with wf nocore]).
Qed.

Lemma none_clear_if_set k o w :
  none_of k (timers w) -> none_of k (timers (clear_if_set o w)).
Proof. destruct o; cbn [clear_if_set]; wsimpl; eauto with wf nocore. Qed.

Lemma twf_arm_idle w :
  table_wf w -> none_of is_collapse (timers w) ->
  table_wf (with_st (set_idleTimeout (Some (nextTimer w))) (alloc_timer CollapseTimeout w)).
Proof. unfold table_wf. wsimpl. intros (Hf & Hc & Hs & Hm & Hl) Hn. wf_auto. Qed.

Lemma twf_arm_scramble t w :
  is_scramble t = true ->
  table_wf w -> none_of is_scramble (timers w) ->
  table_wf (with_st (set_scrambleInterval (Some (nextTimer w))) (alloc_timer t w)).
Proof.
  unfold table_wf. wsimpl. intros Ht (Hf & Hc & Hs & Hm & Hl) Hn.
  destruct t; try discriminate. wf_auto.
Qed.

Lemma twf_arm_morph d w :
  table_wf w -> none_of is_morph (timers w) ->
  table_wf (with_st (set_morphTimeout (Some (nextTimer w))) (alloc_timer (MorphTimeout d) w)).
Proof. unfold table_wf. wsimpl. intros (Hf & Hc & Hs & Hm & Hl) Hn. wf_auto. Qed.

Lemma twf_alloc_glitch c k w :
  table_wf w -> table_wf (alloc_timer (GlitchInterval c k) w).
Proof. unfold table_wf. wsimpl. intros (Hf & Hc & Hs & Hm & Hl). wf_auto. Qed.

Lemma twf_acquire w :
  isAnimating (st w) = false ->
  table_wf w -> table_wf (alloc_timer UnlockTimeout (with_st (set_isAnimating true) w)).
Proof.
  unfold table_wf. wsimpl. intros Ha (Hf & Hc & Hs & Hm & Hl). rewrite Ha in Hl. wf_auto.
Qed.

Lemma twf_release h w :
  timers w !! h = Some UnlockTimeout ->
  table_wf w -> table_wf (with_st (set_isAnimating false) (clear_timer h w)).
Proof.
  unfold table_wf. wsimpl. intros Hh (Hf & Hc & Hs & Hm & Hl).
  wf_split; eauto using lock_release with wf nocore.
Qed.

Lemma twf_replace h t t' w :
  timers w !! h = Some t ->
  is_collapse t' = is_collapse t -> is_scramble t' = is_scramble t ->
  is_morph t' = is_morph t -> is_unlock t = false -> is_unlock t' = false ->
  table_wf w -> table_wf (with_timers (<[h := t']>) w).
Proof.
  unfold table_wf. wsimpl. intros Hh K1 K2 K3 K4 K5 (Hf & Hc & Hs & Hm & Hl).
  wf_split; eauto using fresh_replace, wf_replace, lock_replace.
Qed.

Lemma twf_clear_fired h t w :
  timers w !! h = Some t -> is_unlock t = false ->
  table_wf w -> table_wf (clear_timer h w).
Proof.
  unfold table_wf. wsimpl. intros Hh Hk (Hf & Hc & Hs & Hm & Hl).
  wf_split; eauto using lock_delete_other with wf nocore.
Qed.

(** ** The functions of the navigator keep the table in order *)

Lemma twf_startIdleAnimation cfg w : table_wf w -> table_wf (startIdleAnimation cfg w).
Proof.
  intros H. unfold startIdleAnimation. cbv zeta.
  destruct (twf_clear_morph w H) as [H1 N1].
  set (w1 := clear_if_set (morphTimeout (st w)) w) in *.
  destruct (_ && _); [|exact H1].
  exact (twf_arm_morph _ (set_drawn (S (drawn w1)) w1) H1 N1).
Qed.

Lemma twf_glitchText w : table_wf w -> table_wf (glitchText w).
Proof.
  intros H.
  exact (twf_alloc_glitch _ _ (with_page (set_glitching true) w) H).
Qed.

Lemma twf_glitch_tick cfg h c k w :
  timers w !! h = Some (GlitchInterval c k) ->
  table_wf w -> table_wf (glitch_tick cfg h c k w).
Proof.
  intros Hh H. unfold glitch_tick. destruct (k <? 5).
  - destruct (fold_left _ _ _) as [glitched r].
    exact (twf_replace h _ (GlitchInterval c (S k))
             (with_page (set_text glitched) (set_drawn r w)) Hh
             eq_refl eq_refl eq_refl eq_refl eq_refl H).
  - exact (twf_clear_fired h _ w Hh eq_refl H).
Qed.

Lemma twf_scramble_tick cfg h newText maxLength totalFrames frame w :
  timers w !! h = Some (ScrambleInterval newText maxLength totalFrames frame) ->
  table_wf w -> table_wf (scramble_tick cfg h newText maxLength totalFrames frame w).
Proof.
  intros Hh H. unfold scramble_tick. cbv zeta.
  destruct (scramble_frame _ _ _ _ _) as [scrambled r].
  destruct (frames_done _ _).
  - exact (twf_clear_fired h _ w Hh eq_refl H).
  - exact (twf_replace h _ (ScrambleInterval newText maxLength totalFrames (S frame))
             (with_page (set_text (substring0 maxLength scrambled)) (set_drawn r w)) Hh
             eq_refl eq_refl eq_refl eq_refl eq_refl H).
Qed.

Lemma twf_morph_fire cfg w : table_wf w -> table_wf (morph_fire cfg w).
Proof.
  intros H. unfold morph_fire. destruct (_ && _); [|assumption].
  now apply twf_startIdleAnimation, twf_glitchText.
Qed.

Lemma twf_resetIdleTimer w : table_wf w -> table_wf (resetIdleTimer w).
Proof.
  intros H. unfold resetIdleTimer. cbv zeta.
  destruct (twf_clear_idle w H) as [H1 N1].
  set (w1 := clear_if_set (idleTimeout (st w)) w) in *.
  destruct (isExpanded (st w1)); [|exact H1].
  exact (twf_arm_idle w1 H1 N1).
Qed.

Lemma twf_toggleExpanded cfg b w : table_wf w -> table_wf (toggleExpanded cfg b w).
Proof.
  intros H. unfold toggleExpanded. cbv zeta. destruct b.
  - apply twf_clear_morph, twf_resetIdleTimer. exact H.
  - apply twf_startIdleAnimation.
    exact (proj1 (twf_clear_idle
             (with_page (set_expandedClass false) (with_st (set_isExpanded false) w)) H)).
Qed.

Lemma twf_toggleMenu cfg force w : table_wf w -> table_wf (toggleMenu cfg force w).
Proof. intros H. unfold toggleMenu. destruct (_ || _); exact H. Qed.

Lemma twf_navigateToSection cfg i w : table_wf w -> table_wf (navigateToSection cfg i w).
Proof.
  intros H. unfold navigateToSection.
  destruct (isAnimating _); [assumption|]. destruct (_ =? _)%Z; [assumption|].
  destruct (smoothScroll cfg); exact H.
Qed.

Lemma twf_updateProgress cfg w : table_wf w -> table_wf (updateProgress cfg w).
Proof. intros H. unfold updateProgress. destruct (negb _); exact H. Qed.

(** [updateText] sets [isAnimating] first and arms the timeout that resets
    it last; the world it leaves is the one that sets the flag last. *)
Lemma updateText_eq cfg s w :
  isAnimating (st w) = false ->
  updateText cfg s w =
  let w2 := clear_if_set (scrambleInterval (st w)) w in
  let w3 := clear_if_set (morphTimeout (st w2)) w2 in
  let w5 := with_st (set_scrambleInterval (Some (nextTimer w3)))
              (alloc_timer (ScrambleInterval (toUpperCase s)
                 (Nat.max (length (textContent (page w3))) (length (toUpperCase s)))
                 ((6 # 10) * (8 # 10) * 60)%Q 0) w3) in
  alloc_timer UnlockTimeout (with_st (set_isAnimating true) w5).
Proof.
  intros Ha. unfold updateText, scramble. rewrite Ha. unfold clear_if_set. wsimpl.
  destruct (scrambleInterval (st w)); wsimpl; destruct (morphTimeout (st w)); reflexivity.
Qed.

Lemma twf_updateText cfg s w : table_wf w -> table_wf (updateText cfg s w).
Proof.
  intros H. destruct (isAnimating (st w)) eqn:Ha; [unfold updateText; now rewrite Ha|].
  rewrite updateText_eq by exact Ha. cbv zeta.
  destruct (twf_clear_scramble w H) as [H2 N2].
  set (w2 := clear_if_set (scrambleInterval (st w)) w) in *.
  destruct (twf_clear_morph w2 H2) as [H3 _].
  assert (N3 : none_of is_scramble (timers (clear_if_set (morphTimeout (st w2)) w2)))
    by now apply none_clear_if_set.
  set (w3 := clear_if_set (morphTimeout (st w2)) w2) in *.
  apply twf_acquire; [|now apply twf_arm_scramble].
  subst w3 w2. unfold clear_if_set. wsimpl.
  destruct (scrambleInterval (st w)); wsimpl; destruct (morphTimeout (st w)); exact Ha.
Qed.

Lemma twf_unlock_fire cfg h w :
  timers w !! h = Some UnlockTimeout ->
  table_wf w -> table_wf (unlock_fire cfg (clear_timer h w)).
Proof.
  intros Hh H. unfold unlock_fire. cbv zeta.
  pose proof (twf_release h w Hh H) as H1.
  destruct (negb _); [|exact H1]. now apply twf_startIdleAnimation.
Qed.

Lemma twf_updateCurrentSection cfg k w :
  table_wf w -> table_wf (updateCurrentSection cfg k w).
Proof.
  intros H. unfold updateCurrentSection. cbv zeta.
  destruct (titles cfg !! k); [|exact H].
  apply twf_updateProgress.
  exact (twf_updateText cfg _ (with_st (set_currentIndex (Z.of_nat k)) w) H).
Qed.

Lemma twf_observe cfg entries w :
  table_wf w -> table_wf (fold_left (observe_entry cfg) entries w).
Proof.
  revert w. induction entries as [|[b k] entries IH]; intros w H; [assumption|].
  cbn [fold_left]. apply IH. unfold observe_entry.
  destruct b; [|assumption]. destruct (negb _); [|assumption].
  now apply twf_updateCurrentSection.
Qed.

Lemma twf_destroy w : table_wf w -> table_wf (destroy w).
Proof.
  intros H. unfold destroy. cbv zeta.
  apply twf_clear_scramble, twf_clear_morph, twf_clear_idle, H.
Qed.

Lemma twf_fire cfg h w : table_wf w -> table_wf (fire cfg h w).
Proof.
  intros H. unfold fire. destruct (timers w !! h) as [[]|] eqn:Hh; [| | | | |assumption].
  - now apply twf_scramble_tick.
  - now apply twf_glitch_tick.
  - apply twf_morph_fire. now apply (twf_clear_fired _ _ _ Hh).
  - now apply twf_unlock_fire.
  - apply twf_toggleExpanded. now apply (twf_clear_fired _ _ _ Hh).
Qed.

Lemma twf_on_event cfg e w : table_wf w -> table_wf (on_event cfg e w).
Proof.
  intros H. destruct e as [| | | | | |[]| | |]; cbn [on_event];
    repeat match goal with |- context [if ?b then _ else _] => destruct b end;
    auto using twf_toggleExpanded, twf_toggleMenu, twf_resetIdleTimer,
      twf_navigateToSection, twf_observe.
Qed.

Lemma twf_handle cfg e w : table_wf w -> table_wf (handle cfg e w).
Proof.
  intros H. destruct e; cbn [handle]; try (destruct (listening cfg); [|assumption]);
    auto using twf_fire, twf_destroy, twf_on_event.
Qed.

Lemma twf_blank text : table_wf (blank text).
Proof.
  unfold table_wf, blank. wsimpl.
  wf_split; try (apply wf_unset); auto using fresh_empty, lock_empty, none_empty.
Qed.

Lemma twf_boot cfg text : table_wf (boot cfg text).
Proof.
  unfold boot. destruct (titles cfg); [apply twf_blank|].
  apply twf_startIdleAnimation.
  exact (twf_updateProgress cfg (blank text) (twf_blank text)).
Qed.

(** ** No idle timeout while the island is expanded *)

Lemma kq_refl w : keeps_quiet w w.
Proof. now split. Qed.

Lemma kq_trans w1 w2 w3 : keeps_quiet w1 w2 -> keeps_quiet w2 w3 -> keeps_quiet w1 w3.
Proof.
  intros [E1 N1] [E2 N2]. split; [congruence|].
  intros He Hn. apply N2; [congruence|]. now apply N1.
Qed.

Lemma kq_same w w' :
  isExpanded (st w') = isExpanded (st w) -> timers w' = timers w -> keeps_quiet w w'.
Proof. intros E T. split; [exact E|]. now rewrite T. Qed.

Lemma kq_clear_timer h w : keeps_quiet w (clear_timer h w).
Proof. split; [reflexivity|]. intros _. apply none_delete. Qed.

Lemma kq_clear_if_set o w : keeps_quiet w (clear_if_set o w).
Proof. destruct o; [apply kq_clear_timer|apply kq_refl]. Qed.

Lemma kq_alloc t w : is_morph t = false -> keeps_quiet w (alloc_timer t w).
Proof. intros Ht. split; [reflexivity|]. intros _ Hn. now apply none_insert. Qed.

Lemma kq_replace h t w : is_morph t = false -> keeps_quiet w (with_timers (<[h := t]>) w).
Proof. intros Ht. split; [reflexivity|]. intros _ Hn. now apply none_insert. Qed.

Lemma kq_startIdleAnimation cfg w : keeps_quiet w (startIdleAnimation cfg w).
Proof.
  unfold startIdleAnimation. cbv zeta.
  pose proof (kq_clear_if_set (morphTimeout (st w)) w) as H1.
  set (w1 := clear_if_set (morphTimeout (st w)) w) in *.
  destruct (isExpanded (st w1)) eqn:E; cbn [negb andb]; [exact H1|].
  destruct (negb _); [|exact H1].
  destruct H1 as [E1 _]. split; [wsimpl; exact E1|].
  intros He. congruence.
Qed.

Lemma kq_glitchText w : keeps_quiet w (glitchText w).
Proof.
  exact (kq_alloc (GlitchInterval (textContent (page w)) 0)
           (with_page (set_glitching true) w) eq_refl).
Qed.

Lemma kq_glitch_tick cfg h c k w : keeps_quiet w (glitch_tick cfg h c k w).
Proof.
  unfold glitch_tick. destruct (k <? 5).
  - destruct (fold_left _ _ _) as [glitched r].
    exact (kq_replace h (GlitchInterval c (S k))
             (with_page (set_text glitched) (set_drawn r w)) eq_refl).
  - exact (kq_clear_timer h w).
Qed.

Lemma kq_scramble_tick cfg h newText maxLength totalFrames frame w :
  keeps_quiet w (scramble_tick cfg h newText maxLength totalFrames frame w).
Proof.
  unfold scramble_tick. cbv zeta. destruct (scramble_frame _ _ _ _ _) as [scrambled r].
  destruct (frames_done _ _).
  - exact (kq_clear_timer h w).
  - exact (kq_replace h (ScrambleInterval newText maxLength totalFrames (S frame))
             (with_page (set_text (substring0 maxLength scrambled)) (set_drawn r w))
             eq_refl).
Qed.

Lemma kq_morph_fire cfg w : keeps_quiet w (morph_fire cfg w).
Proof.
  unfold morph_fire. destruct (_ && _); [|apply kq_refl].
  eapply kq_trans; [apply kq_glitchText|apply kq_startIdleAnimation].
Qed.

Lemma kq_resetIdleTimer w : keeps_quiet w (resetIdleTimer w).
Proof.
  unfold resetIdleTimer. cbv zeta.
  pose proof (kq_clear_if_set (idleTimeout (st w)) w) as H1.
  set (w1 := clear_if_set (idleTimeout (st w)) w) in *.
  destruct (isExpanded (st w1)); [|exact H1].
  eapply kq_trans; [exact H1|]. exact (kq_alloc CollapseTimeout w1 eq_refl).
Qed.

Lemma kq_toggleMenu cfg force w : keeps_quiet w (toggleMenu cfg force w).
Proof. unfold toggleMenu. destruct (_ || _); apply kq_same; reflexivity. Qed.

Lemma kq_navigateToSection cfg i w : keeps_quiet w (navigateToSection cfg i w).
Proof. unfold navigateToSection. split_cases; apply kq_same; reflexivity. Qed.

Lemma kq_updateProgress cfg w : keeps_quiet w (updateProgress cfg w).
Proof. unfold updateProgress. destruct (negb _); apply kq_same; reflexivity. Qed.

Lemma kq_updateText cfg s w : keeps_quiet w (updateText cfg s w).
Proof.
  destruct (isAnimating (st w)) eqn:Ha; [unfold updateText; rewrite Ha; apply kq_refl|].
  rewrite updateText_eq by exact Ha. cbv zeta.
  set (w2 := clear_if_set (scrambleInterval (st w)) w).
  set (w3 := clear_if_set (morphTimeout (st w2)) w2).
  eapply kq_trans; [apply (kq_clear_if_set (scrambleInterval (st w)) w)|]. fold w2.
  eapply kq_trans; [apply (kq_clear_if_set (morphTimeout (st w2)) w2)|]. fold w3.
  eapply kq_trans; [apply (kq_alloc (ScrambleInterval (toUpperCase s)
     (Nat.max (length (textContent (page w3))) (length (toUpperCase s)))
     ((6 # 10) * (8 # 10) * 60)%Q 0) w3 eq_refl)|].
  split; [reflexivity|]. intros _ Hn. wsimpl. now apply none_insert.
Qed.

Lemma kq_unlock_body cfg w : keeps_quiet w (unlock_fire cfg w).
Proof.
  unfold unlock_fire. cbv zeta. destruct (negb _); [|apply kq_same; reflexivity].
  eapply kq_trans; [|apply kq_startIdleAnimation]. apply kq_same; reflexivity.
Qed.

Lemma kq_updateCurrentSection cfg k w : keeps_quiet w (updateCurrentSection cfg k w).
Proof.
  unfold updateCurrentSection. cbv zeta.
  destruct (titles cfg !! k); [|apply kq_same; reflexivity].
  eapply kq_trans; [|apply kq_updateProgress].
  eapply kq_trans; [|apply kq_same; reflexivity].
  eapply kq_trans; [|apply kq_updateText]. apply kq_same; reflexivity.
Qed.

Lemma kq_observe cfg entries w : keeps_quiet w (fold_left (observe_entry cfg) entries w).
Proof.
  revert w. induction entries as [|[b k] entries IH]; intros w; [apply kq_refl|].
  cbn [fold_left]. eapply kq_trans; [|apply IH]. unfold observe_entry.
  destruct b; [|apply kq_refl]. destruct (negb _); [|apply kq_refl].
  apply kq_updateCurrentSection.
Qed.

Lemma kq_destroy w : keeps_quiet w (destroy w).
Proof.
  unfold destroy. cbv zeta.
  eapply kq_trans; [apply kq_clear_if_set|].
  eapply kq_trans; apply kq_clear_if_set.
Qed.

Lemma quiet_step w w' : keeps_quiet w w' -> quiet_when_expanded w -> quiet_when_expanded w'.
Proof.
  intros [E N] Hq He. rewrite E in He. now apply N; [|apply Hq].
Qed.

Lemma toggleExpanded_flag cfg b w : isExpanded (st (toggleExpanded cfg b w)) = b.
Proof.
  unfold toggleExpanded, resetIdleTimer, startIdleAnimation, clear_if_set. wsimpl.
  destruct b; wsimpl; split_cases; reflexivity.
Qed.

Lemma wf_toggleExpanded cfg b w : timers_wf w -> timers_wf (toggleExpanded cfg b w).
Proof.
  intros [H Hq]. split; [now apply twf_toggleExpanded|].
  intros He. rewrite toggleExpanded_flag in He. subst b.
  unfold toggleExpanded. cbv zeta.
  apply twf_clear_morph, twf_resetIdleTimer. exact H.
Qed.

Lemma wf_fire cfg h w : timers_wf w -> timers_wf (fire cfg h w).
Proof.
  intros [H Hq]. split; [now apply twf_fire|].
  unfold fire. destruct (timers w !! h) as [[]|] eqn:Hh; [| | | | |assumption].
  - exact (quiet_step _ _ (kq_scramble_tick _ _ _ _ _ _ _) Hq).
  - exact (quiet_step _ _ (kq_glitch_tick _ _ _ _ _) Hq).
  - refine (quiet_step _ _ _ Hq).
    eapply kq_trans; [apply kq_clear_timer|apply kq_morph_fire].
  - refine (quiet_step _ _ _ Hq).
    eapply kq_trans; [apply kq_clear_timer|apply kq_unlock_body].
  - apply wf_toggleExpanded. split; [now apply (twf_clear_fired _ _ _ Hh)|].
    exact (quiet_step _ _ (kq_clear_timer _ _) Hq).
Qed.

Lemma wf_toggleMenu cfg force w : timers_wf w -> timers_wf (toggleMenu cfg force w).
Proof.
  intros [H Hq]. split; [now apply twf_toggleMenu|].
  exact (quiet_step _ _ (kq_toggleMenu _ _ _) Hq).
Qed.

Lemma wf_navigateToSection cfg i w : timers_wf w -> timers_wf (navigateToSection cfg i w).
Proof.
  intros [H Hq]. split; [now apply twf_navigateToSection|].
  exact (quiet_step _ _ (kq_navigateToSection _ _ _) Hq).
Qed.

Lemma wf_resetIdleTimer w : timers_wf w -> timers_wf (resetIdleTimer w).
Proof.
  intros [H Hq]. split; [now apply twf_resetIdleTimer|].
  exact (quiet_step _ _ (kq_resetIdleTimer _) Hq).
Qed.

Lemma wf_observe cfg entries w :
  timers_wf w -> timers_wf (fold_left (observe_entry cfg) entries w).
Proof.
  intros [H Hq]. split; [now apply twf_observe|].
  exact (quiet_step _ _ (kq_observe _ _ _) Hq).
Qed.

Lemma wf_destroy w : timers_wf w -> timers_wf (destroy w).
Proof.
  intros [H Hq]. split; [now apply twf_destroy|].
  exact (quiet_step _ _ (kq_destroy _) Hq).
Qed.

Lemma wf_on_event cfg e w : timers_wf w -> timers_wf (on_event cfg e w).
Proof.
  intros H. destruct e as [| | | | | |[]| | |]; cbn [on_event];
    repeat match goal with |- context [if ?b then _ else _] => destruct b end;
    auto using wf_toggleExpanded, wf_toggleMenu, wf_resetIdleTimer,
      wf_navigateToSection, wf_observe.
Qed.

Lemma wf_handle cfg e w : timers_wf w -> timers_wf (handle cfg e w).
Proof.
  intros H. destruct e; cbn [handle]; try (destruct (listening cfg); [|assumption]);
    auto using wf_fire, wf_destroy, wf_on_event.
Qed.

Lemma wf_run cfg evs w : timers_wf w -> timers_wf (run cfg evs w).
Proof.
  unfold run. revert w. induction evs as [|e evs IH]; intros w H; [assumption|].
  cbn [fold_left]. now apply IH, wf_handle.
Qed.

Lemma wf_boot cfg text : timers_wf (boot cfg text).
Proof.
  split; [apply twf_boot|].
  unfold boot. destruct (titles cfg); [intros He; discriminate He|].
  refine (quiet_step _ _ (kq_startIdleAnimation _ _) _).
  intros He. unfold updateProgress in He. destruct (negb _) in He; discriminate He.
Qed.

(** * Further properties of the navigator (v6.0) *)

(** ** The timer table in the states the page can reach *)

Lemma wf_reachable cfg text evs : timers_wf (run cfg evs (boot cfg text)).
Proof. apply wf_run, wf_boot. Qed.

Ltac reachable_wf cfg text evs :=
  let H := fresh in
  pose proof (wf_reachable cfg text evs) as H; unfold timers_wf, table_wf in H;
  destruct H as [(Hf & Hc & Hs & Hm & Hl) Hq].

Lemma field_wf_one k w f :
  field_wf k f (timers w) (nextTimer w) -> at_most_one k w.
Proof.
  intros (_ & _ & H3) h1 h2 t1 t2 L1 K1 L2 K2.
  pose proof (H3 _ _ L1 K1). pose proof (H3 _ _ L2 K2). congruence.
Qed.

Lemma unlock_is t : is_unlock t = true -> t = UnlockTimeout.
Proof. now destruct t. Qed.

(** X1.  In every state the page can reach, whatever the order in which
    listeners and timers ran: the timer table holds at most one idle timeout
    (the one whose handle is [morphTimeout]), at most one auto-collapse
    timeout (the one whose handle is [idleTimeout]) and at most one timeout
    that resets [isAnimating]; and every handle in the table was handed out
    before. *)
Theorem timeouts_are_single cfg text evs :
  let w := run cfg evs (boot cfg text) in
  at_most_one is_morph w /\ at_most_one is_collapse w /\ at_most_one is_unlock w
  /\ (forall h t, timers w !! h = Some t -> is_morph t = true ->
        morphTimeout (st w) = Some h)
  /\ (forall h t, timers w !! h = Some t -> is_collapse t = true ->
        idleTimeout (st w) = Some h)
  /\ (forall h t, timers w !! h = Some t -> (h < nextTimer w)%positive).
Proof.
  intros w. reachable_wf cfg text evs. fold w in Hf, Hc, Hs, Hm, Hl, Hq.
  split; [now apply field_wf_one with (f := morphTimeout (st w))|].
  split; [now apply field_wf_one with (f := idleTimeout (st w))|].
  split.
  - intros h1 h2 t1 t2 L1 K1 L2 K2.
    apply unlock_is in K1, K2. subst. now apply (proj2 Hl).
  - split; [apply Hm|]. split; [apply Hc|]. exact Hf.
Qed.

Lemma startIdleAnimation_absent cfg h w :
  timers w !! h = None -> (h < nextTimer w)%positive ->
  timers (startIdleAnimation cfg w) !! h = None.
Proof.
  intros Hh Hlt. unfold startIdleAnimation, clear_if_set, set_timer.
  destruct (morphTimeout (st w)) as [hm|]; wsimpl; destruct (_ && _); wsimpl;
    rewrite ?lookup_insert_ne by lia; rewrite ?lookup_delete_None; auto.
Qed.

Lemma unlock_fire_animating cfg w : isAnimating (st (unlock_fire cfg w)) = false.
Proof.
  unfold unlock_fire, startIdleAnimation, clear_if_set, set_timer. cbn.
  split_cases; reflexivity.
Qed.

(** X2.  In every state the page can reach, [isAnimating] is set exactly
    while the timeout of [updateText] that resets it is pending; and when
    that timeout fires, [isAnimating] is false again.  So the guard of
    [updateText] and [navigateToSection] never stays closed. *)
Theorem animating_iff_unlock_pending cfg text evs :
  let w := run cfg evs (boot cfg text) in
  (isAnimating (st w) = true <-> exists h, timers w !! h = Some UnlockTimeout)
  /\ (forall h, timers w !! h = Some UnlockTimeout ->
        isAnimating (st (fire cfg h w)) = false
        /\ timers (fire cfg h w) !! h = None).
Proof.
  intros w. reachable_wf cfg text evs. fold w in Hf, Hc, Hs, Hm, Hl, Hq.
  split; [exact (proj1 Hl)|].
  intros h Hh. unfold fire. rewrite Hh. split; [apply unlock_fire_animating|].
  unfold unlock_fire. cbv zeta.
  assert (Hgone : timers (with_st (set_isAnimating false) (clear_timer h w)) !! h = None)
    by apply lookup_delete_eq.
  destruct (negb _); [|exact Hgone].
  apply startIdleAnimation_absent; [exact Hgone|]. exact (Hf _ _ Hh).
Qed.

(** X3.  In every state the page can reach, no idle timeout is pending while
    the island is expanded. *)
Theorem expanded_has_no_idle_timeout cfg text evs :
  let w := run cfg evs (boot cfg text) in
  isExpanded (st w) = true -> none_of is_morph (timers w).
Proof.
  intros w. exact (proj2 (wf_reachable cfg text evs)).
Qed.

Lemma expanded_has_no_idle_timeout_witness :
  isExpanded (st (run demo [ClickIsland] (boot demo (lit "M0NARQ")))) = true
  /\ none_of is_morph (timers (run demo [ClickIsland] (boot demo (lit "M0NARQ")))).
Proof.
  split; [reflexivity|].
  exact (expanded_has_no_idle_timeout demo (lit "M0NARQ") [ClickIsland] eq_refl).
Defined.

Lemma destroy_lookup w h t :
  timers (destroy w) !! h = Some t <->
  timers w !! h = Some t /\ idleTimeout (st w) <> Some h
  /\ morphTimeout (st w) <> Some h /\ scrambleInterval (st w) <> Some h.
Proof.
  unfold destroy, clear_if_set, clear_timer.
  destruct (idleTimeout (st w)) as [hi|]; cbn;
    destruct (morphTimeout (st w)) as [hm|]; cbn;
    destruct (scrambleInterval (st w)) as [hs|]; cbn;
    rewrite ?lookup_delete_Some; intuition congruence.
Qed.

(** X4.  [destroy] in a state the page can reach removes every idle
    timeout, auto-collapse timeout and scramble interval, and nothing else:
    the interval of a glitch that is running and the timeout that resets
    [isAnimating] stay in the table and still fire. *)
Theorem destroy_clears_held_timers cfg text evs h t :
  let w := run cfg evs (boot cfg text) in
  timers (destroy w) !! h = Some t <->
  timers w !! h = Some t /\ (is_glitch t = true \/ is_unlock t = true).
Proof.
  intros w. reachable_wf cfg text evs. fold w in Hf, Hc, Hs, Hm, Hl, Hq.
  destruct Hc as (_ & Hc2 & Hc3), Hs as (_ & Hs2 & Hs3), Hm as (_ & Hm2 & Hm3).
  rewrite destroy_lookup. split.
  - intros (Hh & Hi & Hmm & Hss). split; [assumption|].
    destruct t; cbn; auto; exfalso.
    + now apply Hss, (Hs3 _ _ Hh).
    + now apply Hmm, (Hm3 _ _ Hh).
    + now apply Hi, (Hc3 _ _ Hh).
  - intros (Hh & Hk). split; [assumption|].
    repeat split; intros E.
    + specialize (Hc2 _ _ E Hh). destruct t, Hk; discriminate.
    + specialize (Hm2 _ _ E Hh). destruct t, Hk; discriminate.
    + specialize (Hs2 _ _ E Hh). destruct t, Hk; discriminate.
Qed.

(** ** Scroll requests *)

Lemma startIdleAnimation_scrolls cfg w : scrolls (startIdleAnimation cfg w) = scrolls w.
Proof. unfold startIdleAnimation, clear_if_set, set_timer. split_cases; reflexivity. Qed.

Lemma updateText_scrolls cfg s w : scrolls (updateText cfg s w) = scrolls w.
Proof. unfold updateText, scramble, clear_if_set, set_timer. split_cases; reflexivity. Qed.

Lemma toggleExpanded_scrolls cfg b w : scrolls (toggleExpanded cfg b w) = scrolls w.
Proof.
  unfold toggleExpanded, resetIdleTimer, startIdleAnimation, clear_if_set, set_timer.
  cbn. split_cases; reflexivity.
Qed.

Lemma toggleMenu_scrolls cfg f w : scrolls (toggleMenu cfg f w) = scrolls w.
Proof. unfold toggleMenu. split_cases; reflexivity. Qed.

Lemma updateCurrentSection_scrolls cfg k w :
  scrolls (updateCurrentSection cfg k w) = scrolls w.
Proof.
  unfold updateCurrentSection. cbv zeta. destruct (titles cfg !! k); [|reflexivity].
  unfold updateProgress. destruct (negb _); cbn; now rewrite updateText_scrolls.
Qed.

Lemma observe_scrolls cfg entries w :
  scrolls (fold_left (observe_entry cfg) entries w) = scrolls w.
Proof.
  revert w. induction entries as [|[b k] entries IH]; intros w; [reflexivity|].
  cbn [fold_left]. rewrite IH. unfold observe_entry.
  destruct b; [|reflexivity]. destruct (negb _); [|reflexivity].
  apply updateCurrentSection_scrolls.
Qed.

Lemma fire_scrolls cfg h w : scrolls (fire cfg h w) = scrolls w.
Proof.
  unfold fire. destruct (timers w !! h) as [[nt ml tf f|ct gc|d| |]|]; [| | | | |reflexivity].
  - unfold scramble_tick. split_cases; reflexivity.
  - unfold glitch_tick. split_cases; reflexivity.
  - unfold morph_fire. destruct (_ && _); [|reflexivity].
    now rewrite startIdleAnimation_scrolls.
  - unfold unlock_fire. cbv zeta. destruct (negb _); [|reflexivity].
    now rewrite startIdleAnimation_scrolls.
  - now rewrite toggleExpanded_scrolls.
Qed.

Lemma destroy_scrolls w : scrolls (destroy w) = scrolls w.
Proof. unfold destroy, clear_if_set. split_cases; reflexivity. Qed.

Lemma navigateToSection_in_range cfg i w :
  titles cfg <> [] -> scrolls_in_range cfg w ->
  scrolls_in_range cfg (navigateToSection cfg i w).
Proof.
  intros Hne H. unfold scrolls_in_range.
  pose proof (clamp_index_range cfg i Hne) as Hr.
  destruct (navigateToSection_scrolls cfg i w) as [E|[E|E]]; rewrite E; [exact H| |];
    apply Forall_app; (split; [exact H|]); constructor; cbn; try lia; constructor.
Qed.

Lemma same_scrolls_in_range cfg w w' :
  scrolls w' = scrolls w -> scrolls_in_range cfg w -> scrolls_in_range cfg w'.
Proof. unfold scrolls_in_range. now intros ->. Qed.

Lemma handle_in_range cfg e w :
  scrolls_in_range cfg w -> scrolls_in_range cfg (handle cfg e w).
Proof.
  intros H. unfold handle.
  destruct e as [h| | | | | |k|diff|entries|];
    try (apply (same_scrolls_in_range cfg w); [apply fire_scrolls|exact H]);
    try (apply (same_scrolls_in_range cfg w); [apply destroy_scrolls|exact H]);
    (destruct (listening cfg) eqn:Hl; [|exact H]);
    assert (Hne : titles cfg <> [])
      by (unfold listening in Hl; destruct (titles cfg); [discriminate|discriminate]);
    cbn [on_event].
  - apply (same_scrolls_in_range cfg w); [apply toggleExpanded_scrolls|exact H].
  - destruct (hasMenuButton cfg); [|exact H].
    apply (same_scrolls_in_range cfg w); [apply toggleMenu_scrolls|exact H].
  - eapply same_scrolls_in_range; [apply resetIdleTimer_scrolls|].
    now apply navigateToSection_in_range.
  - eapply same_scrolls_in_range; [apply resetIdleTimer_scrolls|].
    now apply navigateToSection_in_range.
  - destruct (hasMenuButton cfg); [|exact H].
    apply (same_scrolls_in_range cfg w); [|exact H].
    now rewrite toggleMenu_scrolls, toggleExpanded_scrolls.
  - destruct k; try (now apply navigateToSection_in_range); [|exact H].
    apply (same_scrolls_in_range cfg w); [|exact H].
    now rewrite toggleMenu_scrolls, toggleExpanded_scrolls.
  - destruct (Qltb 50 (Qabs diff)); [now apply navigateToSection_in_range|exact H].
  - apply (same_scrolls_in_range cfg w); [apply observe_scrolls|exact H].
Qed.

Lemma boot_scrolls cfg text : scrolls (boot cfg text) = [].
Proof.
  unfold boot. destruct (titles cfg); [reflexivity|].
  rewrite startIdleAnimation_scrolls. unfold updateProgress. now destruct (negb _).
Qed.

(** X5.  Every scroll request the navigator has issued, in any state the
    page can reach, asks for a section that exists: the arrows, the arrow
    keys and a swipe never scroll past the first or the last section, and
    nothing but [navigateToSection] scrolls. *)
Theorem scroll_requests_in_range cfg text evs :
  scrolls_in_range cfg (run cfg evs (boot cfg text)).
Proof.
  unfold run.
  assert (H0 : scrolls_in_range cfg (boot cfg text))
    by (unfold scrolls_in_range; rewrite boot_scrolls; constructor).
  revert H0. generalize (boot cfg text).
  induction evs as [|e evs IH]; intros w H; [exact H|].
  cbn [fold_left]. now apply IH, handle_in_range.
Qed.

(** ** The glitch of the idle label *)

Lemma glitch_tick_frame cfg h c k w :
  k < 5 ->
  let w' := glitch_tick cfg h c k w in
  timers w' !! h = Some (GlitchInterval c (S k))
  /\ glitching (page w') = glitching (page w)
  /\ nextTimer w' = nextTimer w.
Proof.
  intros Hk. unfold glitch_tick. apply Nat.ltb_lt in Hk. rewrite Hk.
  destruct (fold_left _ _ _) as [glitched r]. cbn.
  split; [apply lookup_insert_eq|]. now split.
Qed.

Lemma glitch_tick_last cfg h c k w :
  5 <= k ->
  let w' := glitch_tick cfg h c k w in
  timers w' !! h = None /\ textContent (page w') = c /\ glitching (page w') = false.
Proof.
  intros Hk. unfold glitch_tick. apply Nat.ltb_ge in Hk. rewrite Hk. cbn.
  split; [apply lookup_delete_eq|]. now split.
Qed.

Lemma glitch_frames cfg h c w k :
  timers w !! h = Some (GlitchInterval c 0) -> k <= 5 ->
  timers (fires cfg h k w) !! h = Some (GlitchInterval c k)
  /\ glitching (page (fires cfg h k w)) = glitching (page w).
Proof.
  intros Hh. induction k as [|k IH]; intros Hk; [now split|].
  destruct IH as [IH1 IH2]; [lia|].
  rewrite fires_S. unfold fire. rewrite IH1.
  destruct (glitch_tick_frame cfg h c k (fires cfg h k w)) as (H1 & H2 & _); [lia|].
  split; [exact H1|]. now rewrite H2.
Qed.

(** X6.  A glitch ends where it began: [glitchText] marks the label as
    glitching and starts one interval; its first five ticks show glitch
    frames and keep the mark, and the sixth writes back the text the label
    had when the glitch started, removes the mark and clears the interval,
    whatever [Math.random()] returned. *)
Theorem glitch_restores_text cfg w :
  let h := nextTimer w in
  let w0 := glitchText w in
  glitching (page w0) = true
  /\ (forall k, k <= 5 ->
        timers (fires cfg h k w0) !! h = Some (GlitchInterval (textContent (page w)) k)
        /\ glitching (page (fires cfg h k w0)) = true)
  /\ textContent (page (fires cfg h 6 w0)) = textContent (page w)
  /\ glitching (page (fires cfg h 6 w0)) = false
  /\ timers (fires cfg h 6 w0) !! h = None.
Proof.
  intros h w0.
  assert (H0 : timers w0 !! h = Some (GlitchInterval (textContent (page w)) 0))
    by (unfold w0, glitchText; cbn; apply lookup_insert_eq).
  split; [reflexivity|]. split.
  - intros k Hk. destruct (glitch_frames cfg h _ w0 k H0 Hk) as [H1 H2].
    split; [exact H1|]. now rewrite H2.
  - destruct (glitch_frames cfg h _ w0 5 H0 (le_n 5)) as [H1 _].
    change (fires cfg h 6 w0) with (fire cfg h (fires cfg h 5 w0)).
    unfold fire. rewrite H1.
    destruct (glitch_tick_last cfg h (textContent (page w)) 5 (fires cfg h 5 w0))
      as (G1 & G2 & G3); [lia|]. auto.
Qed.

Lemma glitch_symbol_in cfg r :
  (0 <= rng cfg r)%Q -> (rng cfg r < 1)%Q ->
  exists c, js_at glitchChars (random_index cfg r (length glitchChars)) = Some c
            /\ In c glitchChars.
Proof.
  intros H0 H1. unfold js_at.
  destruct (random_index_range cfg r (length glitchChars) H0 H1) as [[Hlo Hhi]|Hz];
    [|discriminate Hz].
  destruct (random_index cfg r (length glitchChars) <? 0)%Z eqn:E;
    [apply Z.ltb_lt in E; lia|].
  destruct (nth_error glitchChars (Z.to_nat (random_index cfg r (length glitchChars))))
    as [c|] eqn:Hc.
  - exists c. split; [reflexivity|]. eapply nth_error_In, Hc.
  - apply nth_error_None in Hc. lia.
Qed.

(** What the loop of a glitch frame has built after its first [n] turns. *)
Lemma glitch_prefix cfg c r0 n :
  (forall r, 0 <= rng cfg r /\ rng cfg r < 1)%Q ->
  n <= length c ->
  exists out r,
    fold_left (glitch_char cfg c) (seq 0 n) ([], r0) = (out, r)
    /\ length out = n
    /\ forall i, i < n ->
         nth_error out i = nth_error c i
         \/ exists s, nth_error out i = Some s /\ In s glitchChars.
Proof.
  intros Hrng. induction n as [|n IH]; intros Hn.
  - exists [], r0. cbn. repeat split. lia.
  - destruct IH as (out & r & Hfold & Hlen & Hchars); [lia|].
    rewrite seq_S, fold_left_app, Hfold. cbn [fold_left Nat.add]. unfold glitch_char.
    destruct (Qltb (rng cfg r) (1 # 10)).
    + destruct (Hrng (S r)) as [H0 H1].
      destruct (glitch_symbol_in cfg (S r) H0 H1) as (s & Hs & Hin).
      unfold js_append_at. rewrite Hs.
      exists (out ++ [s]), (S (S r)). split; [reflexivity|].
      split; [rewrite length_app; cbn; lia|].
      intros i Hi. destruct (Nat.eq_dec i n) as [->|Hne].
      * right. exists s. rewrite nth_error_app2 by lia.
        rewrite Hlen, Nat.sub_diag. now split.
      * rewrite nth_error_app1 by lia. apply Hchars. lia.
    + unfold js_append_at, js_at.
      destruct (Z.of_nat n <? 0)%Z eqn:E; [apply Z.ltb_lt in E; lia|].
      rewrite Nat2Z.id.
      destruct (nth_error c n) as [a|] eqn:Ha; [|apply nth_error_None in Ha; lia].
      exists (out ++ [a]), (S r). split; [reflexivity|].
      split; [rewrite length_app; cbn; lia|].
      intros i Hi. destruct (Nat.eq_dec i n) as [->|Hne].
      * left. rewrite nth_error_app2 by lia. rewrite Hlen, Nat.sub_diag. now rewrite Ha.
      * rewrite nth_error_app1 by lia. apply Hchars. lia.
Qed.

(** X7.  A glitch frame has the length of the text the glitch started from,
    and shows at every position the character of that text or one of the
    twelve glitch symbols, as long as [Math.random()] stays in [0, 1). *)
Theorem glitch_frame_shape cfg h c k w :
  (forall r, 0 <= rng cfg r /\ rng cfg r < 1)%Q ->
  timers w !! h = Some (GlitchInterval c k) -> k < 5 ->
  let shown := textContent (page (fire cfg h w)) in
  length shown = length c
  /\ forall i, i < length c ->
       nth_error shown i = nth_error c i
       \/ exists s, nth_error shown i = Some s /\ In s glitchChars.
Proof.
  intros Hrng Hh Hk shown. unfold shown, fire. rewrite Hh. unfold glitch_tick.
  apply Nat.ltb_lt in Hk. rewrite Hk.
  destruct (glitch_prefix cfg c (drawn w) (length c) Hrng (le_n _))
    as (out & r & Hfold & Hlen & Hchars).
  rewrite Hfold. cbn. now split.
Qed.

Lemma glitch_frame_shape_witness :
  (forall r, 0 <= rng demo r /\ rng demo r < 1)%Q
  /\ timers (glitchText (blank (lit "HOME"))) !! 1%positive
     = Some (GlitchInterval (lit "HOME") 0)
  /\ length (textContent (page (fire demo 1 (glitchText (blank (lit "HOME")))))) = 4.
Proof.
  assert (Hrng : (forall r, 0 <= rng demo r /\ rng demo r < 1)%Q)
    by (intros r; cbn; split; [apply Qle_refl|reflexivity]).
  split; [exact Hrng|]. split; [reflexivity|].
  exact (proj1 (glitch_frame_shape demo 1 (lit "HOME") 0
                  (glitchText (blank (lit "HOME"))) Hrng eq_refl (le_n_S _ _ (Nat.le_0_l 4)))).
Defined.

(** ** Idle, expansion and the menu *)

(** X8.  A glitch starts only from the idle timeout, and only while the
    island is collapsed and the menu is closed: whatever the event, if it
    made a call of [glitchText], both flags were down when it was handled. *)
Theorem glitch_only_when_idle cfg e w :
  glitchStarts (handle cfg e w) <> glitchStarts w ->
  (exists h d, e = Fire h /\ timers w !! h = Some (MorphTimeout d))
  /\ isExpanded (st w) = false /\ isMenuOpen (st w) = false.
Proof.
  intros H. split; [|now apply (glitch_needs_idle cfg e)].
  destruct e as [h| | | | | |k|diff|entries|]; unfold handle in H;
    try (destruct (listening cfg); [|now destruct H]); cbn [on_event] in H.
  - unfold fire in H.
    destruct (timers w !! h) as [[nt ml tf f|ct gc|d| |]|] eqn:Hh; [| |eauto| | |now destruct H];
      exfalso; apply H.
    + unfold scramble_tick. split_cases; reflexivity.
    + unfold glitch_tick. split_cases; reflexivity.
    + unfold unlock_fire. cbv zeta.
      destruct (negb _); rewrite ?startIdleAnimation_glitches; reflexivity.
    + now rewrite toggleExpanded_glitches.
  - exfalso. apply H. now rewrite toggleExpanded_glitches.
  - exfalso. apply H. destruct (hasMenuButton cfg); [|reflexivity].
    now rewrite toggleMenu_glitches.
  - exfalso. apply H. now rewrite resetIdleTimer_glitches, navigateToSection_glitches.
  - exfalso. apply H. now rewrite resetIdleTimer_glitches, navigateToSection_glitches.
  - exfalso. apply H. destruct (hasMenuButton cfg); [|reflexivity].
    now rewrite toggleMenu_glitches, toggleExpanded_glitches.
  - exfalso. apply H. destruct k; rewrite ?navigateToSection_glitches; try reflexivity.
    now rewrite toggleMenu_glitches, toggleExpanded_glitches.
  - exfalso. apply H. destruct (Qltb 50 (Qabs diff)); [|reflexivity].
    now rewrite navigateToSection_glitches.
  - exfalso. apply H. apply observe_glitches.
  - exfalso. apply H. unfold destroy, clear_if_set. split_cases; reflexivity.
Qed.

Lemma glitch_only_when_idle_witness :
  glitchStarts (handle demo (Fire 1) (boot demo (lit "M0NARQ")))
    <> glitchStarts (boot demo (lit "M0NARQ"))
  /\ isExpanded (st (boot demo (lit "M0NARQ"))) = false.
Proof.
  assert (H : glitchStarts (handle demo (Fire 1) (boot demo (lit "M0NARQ")))
              <> glitchStarts (boot demo (lit "M0NARQ"))) by (vm_compute; lia).
  split; [exact H|].
  exact (proj1 (proj2 (glitch_only_when_idle demo (Fire 1) (boot demo (lit "M0NARQ")) H))).
Defined.

(** ** Expanding, collapsing and closing *)

Lemma toggleExpanded_class cfg b w : expandedClass (page (toggleExpanded cfg b w)) = b.
Proof.
  unfold toggleExpanded, resetIdleTimer, startIdleAnimation, clear_if_set. wsimpl.
  destruct b; wsimpl; split_cases; reflexivity.
Qed.

Lemma toggleExpanded_menu cfg b w :
  isMenuOpen (st (toggleExpanded cfg b w)) = isMenuOpen (st w)
  /\ menuOpenClass (page (toggleExpanded cfg b w)) = menuOpenClass (page w).
Proof.
  unfold toggleExpanded, resetIdleTimer, startIdleAnimation, clear_if_set. wsimpl.
  destruct b; wsimpl; split_cases; split; reflexivity.
Qed.

Lemma expand_arms_collapse cfg w :
  table_wf w ->
  let w1 := toggleExpanded cfg true w in
  idleTimeout (st w1) = Some (nextTimer w)
  /\ timers w1 !! nextTimer w = Some CollapseTimeout
  /\ nextTimer w1 = Pos.succ (nextTimer w)
  /\ drawn w1 = drawn w.
Proof.
  intros (Hf & Hc & Hs & (Hm & _ & _) & Hl).
  unfold toggleExpanded, resetIdleTimer, clear_if_set, set_timer. wsimpl.
  destruct (idleTimeout (st w)) as [hi|]; wsimpl;
    destruct (morphTimeout (st w)) as [hm|]; wsimpl;
    repeat split; try (specialize (Hm hm eq_refl));
    rewrite ?lookup_delete_ne by lia; apply lookup_insert_eq.
Qed.

Lemma toggleExpanded_absent cfg h w :
  timers w !! h = None -> (h < nextTimer w)%positive ->
  timers (toggleExpanded cfg false w) !! h = None.
Proof.
  intros Hh Hlt. unfold toggleExpanded. cbv zeta.
  apply startIdleAnimation_absent.
  - unfold clear_if_set. wsimpl. destruct (idleTimeout (st w)); wsimpl;
      rewrite ?lookup_delete_None; auto.
  - unfold clear_if_set. wsimpl. now destruct (idleTimeout (st w)).
Qed.

(** X9.  An expanded island collapses by itself.  In any state the page
    can reach, expanding the island arms one timeout under the handle it
    stores in [idleTimeout]; when that timeout fires the island is collapsed
    again, the class is removed, and with the menu closed an idle timeout is
    armed whose delay is at least 3000 and at most 5000 milliseconds (the
    sum [3000 + Math.random() * 2000] of the code is a rounded one: the
    upper end is included). *)
Theorem auto_collapse cfg text evs :
  (forall r, 0 <= rng cfg r /\ rng cfg r < 1)%Q ->
  let w := run cfg evs (boot cfg text) in
  let h := nextTimer w in
  let w1 := toggleExpanded cfg true w in
  let w2 := fire cfg h w1 in
  (isExpanded (st w1) = true /\ expandedClass (page w1) = true
   /\ idleTimeout (st w1) = Some h /\ timers w1 !! h = Some CollapseTimeout)
  /\ (isExpanded (st w2) = false /\ expandedClass (page w2) = false
      /\ timers w2 !! h = None)
  /\ (isMenuOpen (st w) = false ->
      exists d, timers w2 !! Pos.succ h = Some (MorphTimeout d)
                /\ morphTimeout (st w2) = Some (Pos.succ h)
                /\ (3000 <= d /\ d <= 5000)%Q).
Proof.
  intros Hrng w h w1 w2. subst w2 w1 h.
  pose proof (proj1 (wf_reachable cfg text evs)) as Hwf. fold w in Hwf.
  destruct (expand_arms_collapse cfg w Hwf) as (Hi & Ht & Hn & Hd).
  split; [now rewrite toggleExpanded_flag, toggleExpanded_class|].
  unfold fire. rewrite Ht. split.
  - rewrite toggleExpanded_flag, toggleExpanded_class. repeat split.
    apply toggleExpanded_absent; [apply lookup_delete_eq|]. wsimpl. rewrite Hn. lia.
  - intros Hmenu.
    destruct (collapse_rearms_idle cfg (clear_timer (nextTimer w) (toggleExpanded cfg true w))
                (Hrng _)) as (d & H1 & H2 & H3).
    + wsimpl. now rewrite (proj1 (toggleExpanded_menu cfg true w)).
    + exists d. revert H1 H2. wsimpl. rewrite Hn.
      intros H1 H2. repeat split; try assumption; [apply H3|apply Qlt_le_weak, H3].
Qed.

Lemma auto_collapse_witness :
  (forall r, 0 <= rng demo r /\ rng demo r < 1)%Q
  /\ isExpanded (st (fire demo 2 (toggleExpanded demo true (boot demo (lit "M0NARQ")))))
     = false.
Proof.
  assert (Hrng : (forall r, 0 <= rng demo r /\ rng demo r < 1)%Q)
    by (intros r; cbn; split; [apply Qle_refl|reflexivity]).
  split; [exact Hrng|].
  exact (proj1 (proj1 (proj2 (auto_collapse demo (lit "M0NARQ") [] Hrng)))).
Defined.

(** X10.  Escape, and a click outside the island when the page has a menu
    button, close everything: the island is collapsed and loses its class,
    and when the page has both the menu button and the menu panel the menu
    is closed too.  Without one of the two, [toggleMenu] returns at once and
    the menu flag keeps its value. *)
Theorem escape_closes_both cfg e w :
  listening cfg = true ->
  e = KeyDown Escape \/ (e = ClickOutside /\ hasMenuButton cfg = true) ->
  let w' := handle cfg e w in
  isExpanded (st w') = false /\ expandedClass (page w') = false
  /\ (if hasMenuButton cfg && hasMenuPanel cfg
      then isMenuOpen (st w') = false /\ menuOpenClass (page w') = false
      else isMenuOpen (st w') = isMenuOpen (st w)
           /\ menuOpenClass (page w') = menuOpenClass (page w)).
Proof.
  intros Hl He w'.
  assert (E : w' = toggleMenu cfg (Some false) (toggleExpanded cfg false w)).
  { unfold w', handle. destruct He as [->|[-> Hb]]; rewrite Hl; cbn [on_event];
      [reflexivity|now rewrite Hb]. }
  rewrite E. clear E w' He.
  pose proof (toggleExpanded_flag cfg false w) as H1.
  pose proof (toggleExpanded_class cfg false w) as H2.
  destruct (toggleExpanded_menu cfg false w) as [H3 H4].
  unfold toggleMenu.
  destruct (hasMenuButton cfg), (hasMenuPanel cfg); cbn [negb orb andb]; wsimpl; auto.
Qed.

Lemma escape_closes_both_witness :
  listening demo = true
  /\ isExpanded (st (handle demo (KeyDown Escape)
                       (run demo [ClickIsland; ClickMenuButton] (boot demo (lit "M0NARQ")))))
     = false.
Proof.
  split; [reflexivity|].
  exact (proj1 (escape_closes_both demo (KeyDown Escape)
                  (run demo [ClickIsland; ClickMenuButton] (boot demo (lit "M0NARQ")))
                  eq_refl (or_introl eq_refl))).
Defined.

(** ** Progress and the label *)

(** X11.  When the observer confirms section [k] of [n], the progress bar
    is set to [(k + 1) / n * 100] percent: more than 0, at most 100, and 100
    exactly at the last section. *)
Theorem progress_within_bounds cfg k title w :
  hasProgressBar cfg = true -> titles cfg !! k = Some title ->
  exists q,
    progressWidth (page (updateCurrentSection cfg k w)) = Some (JFin q)
    /\ (q == inject_Z (Z.of_nat (S k)) / inject_Z (Z.of_nat (length (titles cfg))) * 100)%Q
    /\ (0 < q /\ q <= 100)%Q
    /\ (q == 100 <-> S k = length (titles cfg))%Q.
Proof.
  intros Hbar Htitle.
  assert (Hk : k < length (titles cfg)) by (apply lookup_lt_is_Some; eauto).
  set (n := length (titles cfg)) in *.
  assert (Hn : Qeq_bool (inject_Z (Z.of_nat n)) 0 = false)
    by (apply Qeq_bool_inject_nonzero; lia).
  exists (inject_Z (Z.of_nat k + 1) / inject_Z (Z.of_nat n) * 100)%Q.
  assert (Hpos : (0 < inject_Z (Z.of_nat n))%Q)
    by (rewrite <- (Zlt_Qlt 0); lia).
  assert (Hle : (inject_Z (Z.of_nat k + 1) <= inject_Z (Z.of_nat n))%Q)
    by (rewrite <- Zle_Qle; lia).
  assert (Hnum : (0 < inject_Z (Z.of_nat k + 1))%Q)
    by (rewrite <- (Zlt_Qlt 0); lia).
  split; [|split; [|split; [split|]]].
  - unfold updateCurrentSection. cbv zeta. rewrite Htitle.
    unfold updateProgress. rewrite Hbar. cbn [negb]. wsimpl. cbn [progressWidth set_progressWidth].
    rewrite updateText_index. wsimpl. fold n.
    unfold js_div, js_of_nat. rewrite Hn. reflexivity.
  - replace (Z.of_nat (S k)) with (Z.of_nat k + 1)%Z by lia. reflexivity.
  - apply Qmult_lt_0_compat; [|reflexivity].
    apply Qlt_shift_div_l; [exact Hpos|]. now rewrite Qmult_0_l.
  - assert (H1 : (inject_Z (Z.of_nat k + 1) / inject_Z (Z.of_nat n) <= 1)%Q)
      by (apply Qle_shift_div_r; [exact Hpos|now rewrite Qmult_1_l]).
    lra.
  - split.
    + intros Hq.
      assert (H1 : (inject_Z (Z.of_nat k + 1) / inject_Z (Z.of_nat n) == 1)%Q) by lra.
      assert (H2 : (inject_Z (Z.of_nat k + 1) == inject_Z (Z.of_nat n))%Q).
      { rewrite <- (Qmult_1_l (inject_Z (Z.of_nat n))), <- H1. field.
        intros Hz. rewrite Hz in Hpos. now apply Qlt_irrefl in Hpos. }
      unfold Qeq in H2. cbn in H2. lia.
    + intros Hs. replace (Z.of_nat k + 1)%Z with (Z.of_nat n) by lia.
      field. intros Hz. rewrite Hz in Hpos. now apply Qlt_irrefl in Hpos.
Qed.

Lemma progress_within_bounds_witness :
  hasProgressBar demo = true /\ titles demo !! 1 = Some (lit "About")
  /\ exists q, progressWidth (page (updateCurrentSection demo 1 (boot demo (lit "M0NARQ"))))
               = Some (JFin q).
Proof.
  split; [reflexivity|]. split; [reflexivity|].
  destruct (progress_within_bounds demo 1 (lit "About") (boot demo (lit "M0NARQ"))
              eq_refl eq_refl) as (q & Hq & _).
  exists q. exact Hq.
Defined.

(** X12.  A report of the observer that arrives while [isAnimating] is set
    moves the section state but not the label: the index, the active
    section and the progress follow the report, while the text, the timer
    table and the draws stay as they were; no run to the new title is
    started and none is queued. *)
Theorem label_update_dropped cfg k title w :
  isAnimating (st w) = true -> titles cfg !! k = Some title ->
  let w' := updateCurrentSection cfg k w in
  currentIndex (st w') = Z.of_nat k /\ activeSection (page w') = Some k
  /\ textContent (page w') = textContent (page w)
  /\ timers w' = timers w /\ nextTimer w' = nextTimer w /\ drawn w' = drawn w
  /\ isAnimating (st w') = true.
Proof.
  intros Ha Htitle w'. unfold w', updateCurrentSection. cbv zeta. rewrite Htitle.
  unfold updateText. wsimpl. rewrite Ha.
  unfold updateProgress. destruct (negb _); wsimpl; repeat split; assumption.
Qed.

Lemma label_update_dropped_witness :
  isAnimating (st (run demo [Observe [(true, 1)]] (boot demo (lit "M0NARQ")))) = true
  /\ titles demo !! 0 = Some (lit "Home")
  /\ currentIndex (st (updateCurrentSection demo 0
                         (run demo [Observe [(true, 1)]] (boot demo (lit "M0NARQ"))))) = 0%Z.
Proof.
  split; [reflexivity|]. split; [reflexivity|].
  exact (proj1 (label_update_dropped demo 0 (lit "Home")
                  (run demo [Observe [(true, 1)]] (boot demo (lit "M0NARQ")))
                  eq_refl eq_refl)).
Defined.

(** * PerformanceManager *)

(** ** [debounce] *)

Lemma single_slot_step {A} (s : Perf.debounced A) (e : Perf.call A) :
  Perf.single_slot s -> Perf.single_slot (Perf.step s e).
Proof.
  intros [Hp Ht]. destruct e as [args|h]; cbn [Perf.step].
  - split; cbn.
    + intros h a Hl. apply lookup_insert_Some in Hl as [[<- _]|[Hne Hl]]; [reflexivity|].
      exfalso. unfold Perf.clearTimeout in Hl.
      destruct (Perf.timeout s) as [h0|] eqn:E.
      * apply lookup_delete_Some in Hl as [Hne' Hl]. apply Hp in Hl. congruence.
      * apply Hp in Hl. congruence.
    + intros h [= <-]. lia.
  - unfold Perf.expire. destruct (Perf.pending s !! h) as [args|] eqn:E; [|now split].
    split; cbn.
    + intros h' a Hl. unfold Perf.clearTimeout in Hl.
      destruct (Perf.timeout s) as [h0|] eqn:E0.
      * apply lookup_delete_Some in Hl as [_ Hl].
        apply lookup_delete_Some in Hl as [_ Hl]. apply Hp in Hl. congruence.
      * apply lookup_delete_Some in Hl as [_ Hl]. apply Hp in Hl. congruence.
    + exact Ht.
Qed.

Lemma single_slot_steps {A} (es : list (Perf.call A)) (s : Perf.debounced A) :
  Perf.single_slot s -> Perf.single_slot (Perf.steps es s).
Proof.
  unfold Perf.steps. revert s. induction es as [|e es IH]; intros s H; [exact H|].
  cbn [fold_left]. now apply IH, single_slot_step.
Qed.

Lemma single_slot_debounce {A} : Perf.single_slot (Perf.debounce A).
Proof.
  split; cbn.
  - intros h a Hl. now rewrite lookup_empty in Hl.
  - discriminate.
Qed.

(** Every pending and every passed argument comes from a call. *)
Lemma debounce_args_step {A} (P : A -> Prop) (s : Perf.debounced A) (e : Perf.call A) :
  (forall args, e = Perf.Invoke args -> P args) ->
  (forall h a, Perf.pending s !! h = Some a -> P a) /\ Forall P (Perf.invoked s) ->
  (forall h a, Perf.pending (Perf.step s e) !! h = Some a -> P a)
  /\ Forall P (Perf.invoked (Perf.step s e)).
Proof.
  intros He [Hp Hi]. destruct e as [args|h]; cbn [Perf.step].
  - split; cbn; [|exact Hi].
    intros h a Hl. apply lookup_insert_Some in Hl as [[_ <-]|[_ Hl]]; [now apply He|].
    unfold Perf.clearTimeout in Hl. destruct (Perf.timeout s).
    + apply lookup_delete_Some in Hl as [_ Hl]. eauto.
    + eauto.
  - unfold Perf.expire. destruct (Perf.pending s !! h) as [args|] eqn:E; [|now split].
    split; cbn.
    + intros h' a Hl. unfold Perf.clearTimeout in Hl. destruct (Perf.timeout s).
      * apply lookup_delete_Some in Hl as [_ Hl].
        apply lookup_delete_Some in Hl as [_ Hl]. eauto.
      * apply lookup_delete_Some in Hl as [_ Hl]. eauto.
    + apply Forall_app. split; [exact Hi|]. constructor; [eauto|constructor].
Qed.

Lemma debounce_args_steps {A} (P : A -> Prop) (es : list (Perf.call A)) :
  forall s : Perf.debounced A,
  (forall args, In (Perf.Invoke args) es -> P args) ->
  (forall h a, Perf.pending s !! h = Some a -> P a) /\ Forall P (Perf.invoked s) ->
  Forall P (Perf.invoked (Perf.steps es s)).
Proof.
  unfold Perf.steps. induction es as [|e es IH]; intros s He H; [exact (proj2 H)|].
  cbn [fold_left]. apply IH.
  - intros args Hin. apply He. now right.
  - apply debounce_args_step; [|exact H]. intros args ->. apply He. now left.
Qed.

(** X13.  A debounced function holds one timeout at most: in any state
    its calls and its timeouts can lead to, every pending timeout is the one
    the closure holds in [timeout], so two pending timeouts are the same;
    and [func] is only ever called with the arguments of a call that was
    made. *)
Theorem debounce_one_pending {A} (es : list (Perf.call A)) :
  let s := Perf.steps es (Perf.debounce A) in
  (forall h args, Perf.pending s !! h = Some args -> Perf.timeout s = Some h)
  /\ (forall h1 h2 a1 a2,
        Perf.pending s !! h1 = Some a1 -> Perf.pending s !! h2 = Some a2 -> h1 = h2)
  /\ (forall args, In args (Perf.invoked s) -> In (Perf.Invoke args) es).
Proof.
  intros s.
  destruct (single_slot_steps es _ (@single_slot_debounce A)) as [Hp _]. fold s in Hp.
  split; [exact Hp|]. split.
  - intros h1 h2 a1 a2 L1 L2. apply Hp in L1, L2. congruence.
  - intros args Hin.
    assert (HF : Forall (fun a => In (Perf.Invoke a) es) (Perf.invoked s)).
    { apply debounce_args_steps; [auto|]. split; cbn; [|constructor].
      intros h a Hl. now rewrite lookup_empty in Hl. }
    rewrite Forall_forall in HF. now apply HF, list_elem_of_In.
Qed.

Lemma invoked_burst {A} (burst : list A) : forall s : Perf.debounced A,
  Perf.invoked (Perf.steps (List.map Perf.Invoke burst) s) = Perf.invoked s.
Proof.
  unfold Perf.steps. induction burst as [|a burst IH]; intros s; [reflexivity|].
  cbn [List.map fold_left]. now rewrite IH.
Qed.

Lemma clearTimeout_single {A} (s : Perf.debounced A) :
  Perf.single_slot s -> Perf.clearTimeout A (Perf.timeout s) (Perf.pending s) = ∅.
Proof.
  intros [Hp _]. apply map_eq. intros h. rewrite lookup_empty.
  unfold Perf.clearTimeout. destruct (Perf.timeout s) as [h0|] eqn:E.
  - destruct (decide (h0 = h)) as [->|Hne]; [apply lookup_delete_eq|].
    rewrite lookup_delete_ne by exact Hne.
    destruct (Perf.pending s !! h) as [a|] eqn:El; [|reflexivity].
    apply Hp in El. congruence.
  - destruct (Perf.pending s !! h) as [a|] eqn:El; [|reflexivity].
    apply Hp in El. congruence.
Qed.

(** X14.  A burst of calls ends in one call of [func], with the arguments
    of the last call of the burst: after the burst, whatever happened before
    it, exactly one timeout is pending; when it expires [func] is called
    once, with the last arguments, and nothing stays pending. *)
Theorem debounce_trailing {A} (es : list (Perf.call A)) (burst : list A) (last : A) :
  let s0 := Perf.steps es (Perf.debounce A) in
  let s1 := Perf.steps (List.map Perf.Invoke (burst ++ [last])) s0 in
  exists h,
    Perf.timeout s1 = Some h
    /\ Perf.pending s1 = {[h := last]}
    /\ Perf.invoked s1 = Perf.invoked s0
    /\ Perf.invoked (Perf.expire h s1) = Perf.invoked s0 ++ [last]
    /\ Perf.pending (Perf.expire h s1) = ∅.
Proof.
  intros s0 s1.
  set (s' := Perf.steps (List.map Perf.Invoke burst) s0).
  assert (Hs' : Perf.single_slot s')
    by (apply single_slot_steps, single_slot_steps, single_slot_debounce).
  assert (E1 : s1 = Perf.executedFunction last s').
  { unfold s1, s', Perf.steps. rewrite List.map_app, fold_left_app. reflexivity. }
  assert (Ep : Perf.pending s1 = {[Perf.nextHandle s' := last]}).
  { rewrite E1. cbn. rewrite clearTimeout_single by exact Hs'. apply insert_empty. }
  assert (Ei : Perf.invoked s1 = Perf.invoked s0).
  { rewrite E1. cbn. apply invoked_burst. }
  exists (Perf.nextHandle s'). split; [now rewrite E1|]. split; [exact Ep|].
  split; [exact Ei|].
  unfold Perf.expire. rewrite Ep, lookup_singleton_eq. cbn.
  split; [now rewrite Ei|].
  rewrite E1. cbn. rewrite delete_singleton_eq. apply delete_empty.
Qed.

(** ** [throttleRAF] *)

Lemma queue_is_set_throttle cb s :
  Perf.queue_is_set s -> Perf.queue_is_set (Perf.throttleRAF cb s).
Proof.
  intros [Hnd Hset]. unfold Perf.throttleRAF.
  destruct (bool_decide (cb ∈ Perf.rafCallbacks s)) eqn:B; [now split|].
  apply bool_decide_eq_false in B. split; cbn.
  - apply NoDup_app. split; [exact Hnd|]. split.
    + intros x Hx Hin. apply list_elem_of_singleton in Hin. subst x.
      apply B, Hset. exact Hx.
    + apply NoDup_singleton.
  - intros x. rewrite elem_of_union, elem_of_singleton, elem_of_app, list_elem_of_singleton.
    now rewrite Hset.
Qed.

Lemma run_callbacks l : forall s,
  let s' := fold_left Perf.run_callback l s in
  Perf.ran s' = Perf.ran s ++ l
  /\ Perf.frameQueue s' = Perf.frameQueue s
  /\ forall x, x ∈ Perf.rafCallbacks s' <-> x ∈ Perf.rafCallbacks s /\ x ∉ l.
Proof.
  induction l as [|cb l IH]; intros s; cbn [fold_left].
  - split; [now rewrite app_nil_r|]. split; [reflexivity|].
    intros x. split; [intros H; split; [exact H|apply not_elem_of_nil]|tauto].
  - destruct (IH (Perf.run_callback s cb)) as (H1 & H2 & H3).
    split; [rewrite H1; cbn; now rewrite <- app_assoc|]. split; [exact H2|].
    intros x. rewrite H3. cbn. rewrite elem_of_difference, elem_of_singleton, elem_of_cons.
    tauto.
Qed.

Lemma frame_runs_queue s :
  Perf.queue_is_set s ->
  Perf.frame s = {| Perf.rafCallbacks := ∅; Perf.frameQueue := [];
                    Perf.ran := Perf.ran s ++ Perf.frameQueue s |}.
Proof.
  intros [Hnd Hset]. unfold Perf.frame.
  destruct (run_callbacks (Perf.frameQueue s)
              {| Perf.rafCallbacks := Perf.rafCallbacks s; Perf.frameQueue := [];
                 Perf.ran := Perf.ran s |}) as (H1 & H2 & H3).
  cbn in H1, H2, H3.
  destruct (fold_left _ _ _) as [set queue r]. cbn in H1, H2, H3. subst queue r.
  f_equal. apply set_eq. intros x. rewrite H3, Hset.
  split; [tauto|]. intros Hx. now apply not_elem_of_empty in Hx.
Qed.

Lemma queue_is_set_steps es : forall s,
  Perf.queue_is_set s -> Perf.queue_is_set (Perf.raf_steps es s).
Proof.
  unfold Perf.raf_steps. induction es as [|e es IH]; intros s H; [exact H|].
  cbn [fold_left]. apply IH. destruct e as [cb|]; cbn [Perf.raf_step].
  - now apply queue_is_set_throttle.
  - rewrite frame_runs_queue by exact H. split; cbn; [constructor|].
    intros x. split; intros Hx.
    + now apply not_elem_of_empty in Hx.
    + now apply not_elem_of_nil in Hx.
Qed.

Lemma queue_is_set_idle : Perf.queue_is_set Perf.idle.
Proof.
  split; cbn; [constructor|]. intros x. split; intros Hx.
  - now apply not_elem_of_empty in Hx.
  - now apply not_elem_of_nil in Hx.
Qed.

(** X15.  [throttleRAF] lets a function run once per frame: in any state
    requests and frames can lead to, the queue for the next frame holds no
    function twice and holds exactly the functions of the set; a request for
    a function that is queued changes nothing; and a frame runs the queued
    functions once each, in the order of their first requests, and leaves
    the set and the queue empty. *)
Theorem throttle_once_per_frame (es : list Perf.raf_event) :
  let s := Perf.raf_steps es Perf.idle in
  NoDup (Perf.frameQueue s)
  /\ (forall cb, cb ∈ Perf.rafCallbacks s <-> cb ∈ Perf.frameQueue s)
  /\ (forall cb, cb ∈ Perf.frameQueue s -> Perf.throttleRAF cb s = s)
  /\ Perf.frame s = {| Perf.rafCallbacks := ∅; Perf.frameQueue := [];
                       Perf.ran := Perf.ran s ++ Perf.frameQueue s |}.
Proof.
  intros s.
  assert (H : Perf.queue_is_set s) by apply queue_is_set_steps, queue_is_set_idle.
  destruct H as [Hnd Hset]. split; [exact Hnd|]. split; [exact Hset|]. split.
  - intros cb Hin. unfold Perf.throttleRAF.
    rewrite bool_decide_eq_true_2; [reflexivity|]. now apply Hset.
  - apply frame_runs_queue. now split.
Qed.

(** ** The bloom effect *)

Lemma onUpdate_queues p b :
  Perf.closures_fresh b ->
  let b' := Perf.onUpdate p b in
  Perf.closures_fresh b'
  /\ Perf.frameQueue (Perf.perf b') = Perf.frameQueue (Perf.perf b) ++ [Perf.nextClosure b]
  /\ Perf.progress b' = p /\ Perf.writes b' = Perf.writes b.
Proof.
  intros Hf. unfold Perf.onUpdate, Perf.throttleRAF. cbn.
  rewrite bool_decide_eq_false_2.
  - cbn. split; [|now split]. intros cb Hin. cbn in Hin |- *.
    apply elem_of_union in Hin as [Hin|Hin].
    + apply Hf in Hin. lia.
    + apply elem_of_singleton in Hin. lia.
  - intros Hin. apply Hf in Hin. lia.
Qed.

Lemma last_nonempty {A} (l : list A) : forall a d d',
  List.last (a :: l) d = List.last (a :: l) d'.
Proof.
  induction l as [|x l IH]; intros a d d'; [reflexivity|].
  change (List.last (x :: l) d = List.last (x :: l) d'). apply IH.
Qed.

Lemma updates_queue ps : forall b,
  Perf.closures_fresh b ->
  let b' := Perf.updates ps b in
  Perf.closures_fresh b'
  /\ length (Perf.frameQueue (Perf.perf b'))
     = length (Perf.frameQueue (Perf.perf b)) + length ps
  /\ Perf.progress b' = List.last ps (Perf.progress b)
  /\ Perf.writes b' = Perf.writes b.
Proof.
  unfold Perf.updates. induction ps as [|p ps IH]; intros b Hf; cbn [fold_left].
  - cbn. repeat split; [exact Hf|lia].
  - destruct (onUpdate_queues p b Hf) as (H1 & H2 & H3 & H4).
    destruct (IH _ H1) as (I1 & I2 & I3 & I4).
    split; [exact I1|]. split; [rewrite I2, H2, length_app; cbn; lia|].
    split; [|now rewrite I4].
    rewrite I3, H3. destruct ps as [|q ps]; [reflexivity|].
    change (List.last (p :: q :: ps) (Perf.progress b))
      with (List.last (q :: ps) (Perf.progress b)).
    apply last_nonempty.
Qed.

Lemma bloom_callbacks l : forall b,
  let b' := fold_left Perf.bloom_callback l b in
  Perf.writes b' = Perf.writes b + length l
  /\ Perf.progress b' = Perf.progress b
  /\ Perf.brightness b' =
       match l with
       | [] => Perf.brightness b
       | _ => Some (1 + Perf.progress b * (2 # 10))%Q
       end.
Proof.
  induction l as [|cb l IH]; intros b; cbn [fold_left].
  - cbn. repeat split. lia.
  - destruct (IH (Perf.bloom_callback b cb)) as (H1 & H2 & H3).
    split; [rewrite H1; cbn; lia|]. split; [now rewrite H2|].
    rewrite H3. now destruct l.
Qed.

(** X16.  The bloom effect is not throttled.  [onUpdate] passes a function
    made anew at every call, so no request of [throttleRAF] finds its
    function in the set: after [n] updates the next frame runs [n] functions
    more, each of which writes the same brightness, the one of the progress
    of the last update, a factor between 1 and 1.2 for a progress between 0
    and 1. *)
Theorem bloom_not_throttled (b : Perf.bloom) (ps : list Q) (p : Q) :
  Perf.closures_fresh b ->
  let b' := Perf.bloom_frame (Perf.updates (ps ++ [p]) b) in
  Perf.writes b' = Perf.writes b + length (Perf.frameQueue (Perf.perf b)) + S (length ps)
  /\ Perf.brightness b' = Some (1 + p * (2 # 10))%Q
  /\ ((0 <= p /\ p <= 1)%Q -> (1 <= 1 + p * (2 # 10) /\ 1 + p * (2 # 10) <= 12 # 10)%Q).
Proof.
  intros Hf b'.
  destruct (updates_queue (ps ++ [p]) b Hf) as (_ & Hq & Hp & Hw).
  rewrite last_last in Hp. rewrite length_app in Hq. cbn in Hq.
  set (u := Perf.updates (ps ++ [p]) b) in *.
  destruct (bloom_callbacks (Perf.frameQueue (Perf.perf u))
              {| Perf.progress := Perf.progress u; Perf.brightness := Perf.brightness u;
                 Perf.writes := Perf.writes u;
                 Perf.perf := {| Perf.rafCallbacks := Perf.rafCallbacks (Perf.perf u);
                                 Perf.frameQueue := []; Perf.ran := Perf.ran (Perf.perf u) |};
                 Perf.nextClosure := Perf.nextClosure u |}) as (H1 & H2 & H3).
  cbn in H1, H2, H3. fold (Perf.bloom_frame u) in H1, H2, H3. fold b' in H1, H2, H3.
  split; [rewrite H1, Hw, Hq; lia|]. split.
  - rewrite H3, Hp. destruct (Perf.frameQueue (Perf.perf u)); [cbn in Hq; lia|reflexivity].
  - intros [H0 Hle]. split; lra.
Qed.

Lemma bloom_not_throttled_witness :
  Perf.closures_fresh
    {| Perf.progress := 0; Perf.brightness := None; Perf.writes := 0;
       Perf.perf := Perf.idle; Perf.nextClosure := 1 |}
  /\ Perf.writes
       (Perf.bloom_frame
          (Perf.updates ([1 # 4; 1 # 2] ++ [3 # 4])
             {| Perf.progress := 0; Perf.brightness := None; Perf.writes := 0;
                Perf.perf := Perf.idle; Perf.nextClosure := 1 |})) = 3.
Proof.
  assert (Hf : Perf.closures_fresh
                 {| Perf.progress := 0; Perf.brightness := None; Perf.writes := 0;
                    Perf.perf := Perf.idle; Perf.nextClosure := 1 |}).
  { intros cb Hin. cbn in Hin. now apply not_elem_of_empty in Hin. }
  split; [exact Hf|].
  exact (proj1 (bloom_not_throttled _ [1 # 4; 1 # 2] (3 # 4) Hf)).
Defined.

(** ** [isInViewport] *)

(** X17.  [isInViewport] tests whether the rectangle of the element and
    the viewport share a point, borders included, for a rectangle and a
    viewport of sizes that are not negative; an element that only touches an
    edge of the viewport counts as inside.  The parameter [threshold] plays
    no part, and without an element the answer is no. *)
Theorem isInViewport_overlap (r : Perf.rect) (threshold : Q) (v : Perf.window) :
  (0 <= Perf.width r)%Q -> (0 <= Perf.height r)%Q ->
  (0 <= Perf.or_else (Perf.innerWidth v) (Perf.clientWidth v))%Q ->
  (0 <= Perf.or_else (Perf.innerHeight v) (Perf.clientHeight v))%Q ->
  (Perf.isInViewport (Some r) threshold v = true
   <-> exists x y, Perf.shared_point r v x y)
  /\ Perf.isInViewport (Some r) threshold v = Perf.isInViewport (Some r) 0 v
  /\ Perf.isInViewport None threshold v = false.
Proof.
  intros Hw Hh HW HH. split; [|split; reflexivity].
  unfold Perf.isInViewport, Perf.shared_point.
  set (W := Perf.or_else (Perf.innerWidth v) (Perf.clientWidth v)) in *.
  set (H := Perf.or_else (Perf.innerHeight v) (Perf.clientHeight v)) in *.
  cbv zeta. rewrite !andb_true_iff, !Qle_bool_iff. split.
  - intros [[T1 T2] [L1 L2]].
    exists (if Qlt_le_dec (Perf.left r) 0 then 0 else Perf.left r)%Q,
           (if Qlt_le_dec (Perf.top r) 0 then 0 else Perf.top r)%Q.
    destruct (Qlt_le_dec (Perf.left r) 0), (Qlt_le_dec (Perf.top r) 0);
      repeat split; lra.
  - intros (x & y & X1 & X2 & Y1 & Y2 & X3 & X4 & Y3 & Y4). repeat split; lra.
Qed.

Lemma isInViewport_overlap_witness :
  Perf.isInViewport
    (Some {| Perf.top := 600; Perf.left := 0; Perf.width := 100; Perf.height := 50 |})
    (1 # 10)
    {| Perf.innerHeight := 600; Perf.innerWidth := 800;
       Perf.clientHeight := 0; Perf.clientWidth := 0 |} = true
  /\ exists x y,
       Perf.shared_point
         {| Perf.top := 600; Perf.left := 0; Perf.width := 100; Perf.height := 50 |}
         {| Perf.innerHeight := 600; Perf.innerWidth := 800;
            Perf.clientHeight := 0; Perf.clientWidth := 0 |} x y.
Proof.
  split; [reflexivity|].
  apply (proj1 (isInViewport_overlap
           {| Perf.top := 600; Perf.left := 0; Perf.width := 100; Perf.height := 50 |}
           (1 # 10)
           {| Perf.innerHeight := 600; Perf.innerWidth := 800;
              Perf.clientHeight := 0; Perf.clientWidth := 0 |}
           ltac:(discriminate) ltac:(discriminate) ltac:(discriminate)
           ltac:(discriminate))).
  reflexivity.
Defined.

(** ** [observe] *)

Lemma observe_other {K} `{Countable K} (m : gmap K Perf.observer)
    (c : positive * positive * K) (key : K) :
  snd c <> key -> Perf.observe m c !! key = m !! key.
Proof.
  destruct c as [[el cb] k]. cbn. intros Hne. rewrite lookup_alter_ne by exact Hne.
  destruct (m !! k); [reflexivity|]. now rewrite lookup_insert_ne.
Qed.

Lemma observe_same {K} `{Countable K} (m : gmap K Perf.observer) (el cb : positive)
    (key : K) :
  Perf.observe m (el, cb, key) !! key =
  Some match m !! key with
       | Some o => Perf.add_element el o
       | None => {| Perf.callback := cb; Perf.observed := ∅ ∪ {[el]} |}
       end.
Proof.
  cbn. rewrite lookup_alter_eq. destruct (m !! key) as [o|] eqn:E.
  - now rewrite E.
  - now rewrite lookup_insert_eq.
Qed.

Lemma observe_fold {K} `{Countable K} (calls : list (positive * positive * K)) (key : K) :
  forall m : gmap K Perf.observer,
  fold_left Perf.observe calls m !! key =
  match m !! key with
  | Some o => Some {| Perf.callback := Perf.callback o;
                      Perf.observed := Perf.observed o ∪ Perf.elements_of key calls |}
  | None =>
      match Perf.first_callback key calls with
      | Some cb => Some {| Perf.callback := cb;
                           Perf.observed := Perf.elements_of key calls |}
      | None => None
      end
  end.
Proof.
  induction calls as [|[[el cb] k] calls IH]; intros m.
  - cbn. destruct (m !! key) as [[cb0 els]|]; [|reflexivity].
    cbn. f_equal. f_equal. unfold Perf.elements_of. cbn. now rewrite (right_id_L ∅ (∪)).
  - cbn [fold_left]. rewrite IH. clear IH.
    unfold Perf.first_callback, Perf.elements_of. cbn [List.filter snd].
    destruct (decide (k = key)) as [->|Hne].
    + rewrite observe_same. rewrite bool_decide_eq_true_2 by reflexivity.
      cbn [List.map fst snd list_to_set].
      destruct (m !! key) as [[cb0 els]|]; cbn; f_equal; f_equal.
      * now rewrite (assoc_L (∪)).
      * now rewrite (left_id_L ∅ (∪)).
    + rewrite observe_other by exact Hne.
      rewrite bool_decide_eq_false_2 by exact Hne. reflexivity.
Qed.

(** X18.  The cache of [observe] keeps the first callback.  After any
    calls, the observer stored under a key is the one constructed by the
    first call with that key: it has the callback of that call, whatever
    callbacks the later calls with the same key brought, and it observes the
    elements of all calls with the key. *)
Theorem observe_first_callback_wins {K} `{Countable K}
    (calls : list (positive * positive * K)) (key : K) :
  fold_left Perf.observe calls ∅ !! key =
  match Perf.first_callback key calls with
  | Some cb => Some {| Perf.callback := cb; Perf.observed := Perf.elements_of key calls |}
  | None => None
  end.
Proof. rewrite observe_fold. now rewrite lookup_empty. Qed.

(** * Hover effects *)

Lemma alternates_snoc l b : forall next,
  Hover.alternates next (l ++ [b]) =
  match Hover.alternates next l with
  | Some e => if Bool.eqb b e then Some (negb e) else None
  | None => None
  end.
Proof.
  induction l as [|a l IH]; intros next; cbn.
  - destruct (Bool.eqb b next); reflexivity.
  - destruct (Bool.eqb a next); [apply IH|reflexivity].
Qed.

Lemma calls_for_snoc el s h k x b :
  Hover.calls_for el {| Hover.hovering := h; Hover.calls := Hover.calls s ++ [(k, x, b)] |}
  = Hover.calls_for el s ++ (if bool_decide (x = el) then [b] else []).
Proof.
  unfold Hover.calls_for. cbn. rewrite List.filter_app, List.map_app. cbn.
  destruct (bool_decide (x = el)); reflexivity.
Qed.

Lemma in_step_over k target s : Hover.in_step s -> Hover.in_step (Hover.over_one k target s).
Proof.
  intros H. destruct target as [x|]; [|exact H]. cbn.
  destruct (bool_decide (x ∈ Hover.hovering s)) eqn:B; [exact H|].
  intros el. rewrite calls_for_snoc. cbn [Hover.hovering].
  destruct (bool_decide (x = el)) eqn:E.
  - apply bool_decide_eq_true in E. subst el.
    rewrite alternates_snoc, H, B. cbn.
    rewrite bool_decide_eq_true_2; [reflexivity|].
    apply elem_of_union. right. now apply elem_of_singleton.
  - apply bool_decide_eq_false in E. rewrite app_nil_r, H. do 2 f_equal.
    apply bool_decide_ext. rewrite elem_of_union, elem_of_singleton. intuition congruence.
Qed.

Lemma in_step_out k target s : Hover.in_step s -> Hover.in_step (Hover.out_one k target s).
Proof.
  intros H. destruct target as [[x inside]|]; [|exact H]. cbn.
  destruct (bool_decide (x ∈ Hover.hovering s)) eqn:B; [|exact H].
  destruct inside; [exact H|]. cbn [negb andb].
  intros el. rewrite calls_for_snoc. cbn [Hover.hovering].
  destruct (bool_decide (x = el)) eqn:E.
  - apply bool_decide_eq_true in E. subst el.
    rewrite alternates_snoc, H, B. cbn.
    rewrite bool_decide_eq_false_2; [reflexivity|].
    intros Hin. apply elem_of_difference in Hin as [_ Hn]. apply Hn.
    now apply elem_of_singleton.
  - apply bool_decide_eq_false in E. rewrite app_nil_r, H. do 2 f_equal.
    apply bool_decide_ext. rewrite elem_of_difference, elem_of_singleton.
    intuition congruence.
Qed.

(** X19.  The hover calls of an element alternate.  Whatever the order of
    [mouseover] and [mouseout] events, the calls of [handleCardHover] and
    [handleButtonHover] made for one element start with an entry and then
    alternate between leaving and entering, and the element carries
    [dataset.hovering] exactly when the last of them was an entry: moving
    inside a card neither enters it again nor leaves it. *)
Theorem hover_calls_alternate (evs : list Hover.event) (el : positive) :
  let s := Hover.run evs Hover.init in
  Hover.alternates true (Hover.calls_for el s)
  = Some (negb (bool_decide (el ∈ Hover.hovering s))).
Proof.
  intros s. revert el.
  assert (H : forall evs s0, Hover.in_step s0 -> Hover.in_step (Hover.run evs s0)).
  { clear. unfold Hover.run. induction evs as [|e evs IH]; intros s0 H0; [exact H0|].
    cbn [fold_left]. apply IH. destruct e as [card button|card button]; cbn [Hover.handle].
    - now apply in_step_over, in_step_over.
    - now apply in_step_out, in_step_out. }
  apply H. intros el. reflexivity.
Qed.

(** * Page transitions (v5.0) *)

(** X20.  A transition whose fetch fails keeps the lock.  [transitionToPage]
    has no [try]: when the fetch rejects, its promise rejects after the exit
    animation has faded the content out and with [isTransitioning] still
    set.  From then on every call returns at once, so a click on an internal
    link, whose default the listener has prevented, does nothing. *)
Theorem failed_fetch_locks (fetch : jsstring -> option Transition.fetched)
    (url : jsstring) (updateHistory : bool) (d : Transition.doc) :
  Transition.isTransitioning d = false -> fetch url = None ->
  let r := Transition.transitionToPage fetch url updateHistory d in
  (exists d', r = Transition.Rejected d')
  /\ Transition.isTransitioning (Transition.final r) = true
  /\ Transition.shown (Transition.final r) = false
  /\ Transition.content (Transition.final r) = Transition.content d
  /\ Transition.history (Transition.final r) = Transition.history d
  /\ (forall fetch' url' b,
        Transition.transitionToPage fetch' url' b (Transition.final r)
        = Transition.Resolved (Transition.final r))
  /\ (forall fetch' href,
        Transition.click_link fetch' href (Transition.final r) = None
        \/ Transition.click_link fetch' href (Transition.final r)
           = Some (Transition.Resolved (Transition.final r))).
Proof.
  intros Hd Hf r. unfold r, Transition.transitionToPage. rewrite Hd, Hf. cbn.
  split; [eauto|]. repeat split.
  intros fetch' href. unfold Transition.click_link.
  destruct (_ || _); [now left|now right].
Qed.

Lemma failed_fetch_locks_witness :
  Transition.isTransitioning
    {| Transition.isTransitioning := false; Transition.content := Some (lit "home");
       Transition.title := lit "Home"; Transition.history := []; Transition.shown := true;
       Transition.reinitialized := 0 |} = false
  /\ Transition.isTransitioning
       (Transition.final
          (Transition.transitionToPage (fun _ => None) (lit "about.html") true
             {| Transition.isTransitioning := false; Transition.content := Some (lit "home");
                Transition.title := lit "Home"; Transition.history := [];
                Transition.shown := true; Transition.reinitialized := 0 |})) = true.
Proof.
  split; [reflexivity|].
  exact (proj1 (proj2 (failed_fetch_locks (fun _ => None) (lit "about.html") true
                         {| Transition.isTransitioning := false;
                            Transition.content := Some (lit "home");
                            Transition.title := lit "Home"; Transition.history := [];
                            Transition.shown := true; Transition.reinitialized := 0 |}
                         eq_refl eq_refl))).
Defined.

(** X21.  A transition to a document without [.page-content] leaves the
    page faded out.  The exit animation runs before the fetched document is
    looked at; when it has no content, or the current page has none, the
    content, the title and the history stay as they were, nothing is
    reinitialised, the enter animation does not run, and the promise
    resolves with [isTransitioning] reset.  With the content on both
    sides the content and the title are replaced, the URL is pushed when
    asked for, and the page is shown again. *)
Theorem transition_without_content (fetch : jsstring -> option Transition.fetched)
    (url : jsstring) (updateHistory : bool) (d : Transition.doc) (f : Transition.fetched) :
  Transition.isTransitioning d = false -> fetch url = Some f ->
  let r := Transition.transitionToPage fetch url updateHistory d in
  (exists d', r = Transition.Resolved d')
  /\ Transition.isTransitioning (Transition.final r) = false
  /\ match Transition.newContent f, Transition.content d with
     | Some c, Some _ =>
         Transition.content (Transition.final r) = Some c
         /\ Transition.title (Transition.final r) = Transition.newTitle f
         /\ Transition.history (Transition.final r)
            = (if updateHistory then Transition.history d ++ [url]
               else Transition.history d)
         /\ Transition.shown (Transition.final r) = true
         /\ Transition.reinitialized (Transition.final r) = S (Transition.reinitialized d)
     | _, _ =>
         Transition.content (Transition.final r) = Transition.content d
         /\ Transition.title (Transition.final r) = Transition.title d
         /\ Transition.history (Transition.final r) = Transition.history d
         /\ Transition.shown (Transition.final r) = false
         /\ Transition.reinitialized (Transition.final r) = Transition.reinitialized d
     end.
Proof.
  intros Hd Hf r. unfold r, Transition.transitionToPage. rewrite Hd, Hf. cbn.
  split; [eauto|].
  destruct (Transition.newContent f), (Transition.content d) eqn:E; cbn; rewrite ?E;
    repeat split.
Qed.

Lemma transition_without_content_witness :
  Transition.isTransitioning
    {| Transition.isTransitioning := false; Transition.content := Some (lit "home");
       Transition.title := lit "Home"; Transition.history := []; Transition.shown := true;
       Transition.reinitialized := 0 |} = false
  /\ Transition.shown
       (Transition.final
          (Transition.transitionToPage
             (fun _ => Some {| Transition.newTitle := lit "404";
                               Transition.newContent := None |})
             (lit "missing.html") true
             {| Transition.isTransitioning := false; Transition.content := Some (lit "home");
                Transition.title := lit "Home"; Transition.history := [];
                Transition.shown := true; Transition.reinitialized := 0 |})) = false.
Proof.
  split; [reflexivity|].
  exact (proj1 (proj2 (proj2 (proj2 (proj2 (proj2
    (transition_without_content
       (fun _ => Some {| Transition.newTitle := lit "404"; Transition.newContent := None |})
       (lit "missing.html") true
       {| Transition.isTransitioning := false; Transition.content := Some (lit "home");
          Transition.title := lit "Home"; Transition.history := [];
          Transition.shown := true; Transition.reinitialized := 0 |}
       {| Transition.newTitle := lit "404"; Transition.newContent := None |}
       eq_refl eq_refl))))))).
Defined.

(** * The boot sequence, whatever the page offers *)

(** X22.  How [init] of v6.0 ends, for every page.  Its promise never
    rejects and the document always ends loaded, with its loaders removed.
    It stays pending exactly when a critical image never settles; nothing
    after the preload is then set up.  It reaches its end, and sets
    [isInitialized], exactly when the images settle and no step throws; the
    one step that throws is [initGSAP], when the animation library is there
    without its scroll plugin, and then the [catch] makes the page visible
    and the smooth scroll, the island, the menu, the deferred animations and
    the resize handler are all left out. *)
Theorem boot_outcome (e : Boot.env) :
  let r := Boot.init e (Boot.start e) in
  let throws := Boot.gsap e && negb (Boot.ScrollTrigger e) in
  let waits := negb (Boot.criticalImages e =? 0) && negb (Boot.imagesSettle e) in
  (forall d, r <> Boot.Rejected d)
  /\ (Boot.bodyLoaded (Boot.final r) = true /\ Boot.htmlLoaded (Boot.final r) = true
      /\ Boot.loadersLeft (Boot.final r) = 0)
  /\ ((exists d, r = Boot.Pending d) <-> throws = false /\ waits = true)
  /\ (Boot.isInitialized (Boot.final r) = true <-> throws = false /\ waits = false)
  /\ (throws = true ->
      Boot.bodyStyleVisible (Boot.final r) = true
      /\ Boot.lenisCreated (Boot.final r) = false)
  /\ (throws = true \/ waits = true ->
      Boot.islandCreated (Boot.final r) = false
      /\ Boot.menuWired (Boot.final r) = false
      /\ Boot.deferredScheduled (Boot.final r) = false
      /\ Boot.resizeWired (Boot.final r) = false).
Proof.
  intros r throws waits. subst r throws waits.
  unfold Boot.init, Boot.init_body, Boot.removeLoaderAnimated, Boot.validateDependencies,
    Boot.initGSAP, Boot.initScrollSystem, Boot.preloadCriticalImages,
    Boot.initDynamicIsland, Boot.initNavigation, Boot.initCriticalAnimations,
    Boot.animateHero, Boot.animateAboveFold, Boot.initDeferredAnimations,
    Boot.initResizeHandler, Boot.start.
  destruct e as [g s l lo ci im isl ith mt mo ht hi hs hst af]. cbn.
  destruct (Nat.eqb_spec lo 0) as [->|Hlo]; destruct (Nat.eqb_spec ci 0) as [->|Hci];
    destruct g, s, l, im, isl, ith, mt, mo, ht, hi; cbn;
    (split; [discriminate|]);
    (split; [repeat split; try reflexivity; lia|]);
    (split; [split; [intros [d Hd]; (discriminate Hd || (split; reflexivity))
                    |intros [H1 H2]; (discriminate H1 || discriminate H2 || eauto)]|]);
    (split; [split; [intros Hi; (discriminate Hi || (split; reflexivity))
                    |intros [H1 H2]; (discriminate H1 || discriminate H2 || reflexivity)]|]);
    (split; [intros Ht; (discriminate Ht || (split; reflexivity))|]);
    (intros [Ht|Ht]; (discriminate Ht || (repeat split; reflexivity))).
Qed.

(** * The card batch of the scroll-linked reveal *)

Lemma enter_cards_count el els s :
  Reveal.card_count el (Reveal.enter_cards els s)
  = Reveal.card_count el s
    + (if bool_decide (el ∈ els ∩ Reveal.cardLive s)
          && negb (bool_decide (el ∈ Reveal.animated s)) then 1 else 0).
Proof.
  unfold Reveal.enter_cards. cbn zeta.
  destruct (length (elements (els ∩ Reveal.cardLive s)) =? 0) eqn:E.
  - apply Nat.eqb_eq in E. apply length_zero_iff_nil in E.
    apply elements_empty_inv in E. apply leibniz_equiv in E. rewrite E.
    rewrite bool_decide_eq_false_2; [cbn; lia|]. apply not_elem_of_empty.
  - unfold Reveal.card_onEnter. cbn zeta. cbn [Reveal.animated].
    set (toAnimate := List.filter _ _).
    assert (Hin : el ∈ toAnimate <->
                  el ∈ els ∩ Reveal.cardLive s /\ el ∉ Reveal.animated s).
    { unfold toAnimate. rewrite list_elem_of_In, filter_In, <- list_elem_of_In.
      rewrite elem_of_elements, negb_true_iff, bool_decide_eq_false. reflexivity. }
    assert (Hb : bool_decide (el ∈ toAnimate)
                 = bool_decide (el ∈ els ∩ Reveal.cardLive s)
                   && negb (bool_decide (el ∈ Reveal.animated s))).
    { destruct (bool_decide (el ∈ toAnimate)) eqn:B.
      - apply bool_decide_eq_true, Hin in B as [B1 B2].
        rewrite bool_decide_eq_true_2 by exact B1.
        now rewrite bool_decide_eq_false_2 by exact B2.
      - apply bool_decide_eq_false in B.
        destruct (bool_decide (el ∈ els ∩ Reveal.cardLive s)) eqn:B1; [|reflexivity].
        destruct (bool_decide (el ∈ Reveal.animated s)) eqn:B2; [reflexivity|].
        apply bool_decide_eq_true in B1. apply bool_decide_eq_false in B2.
        exfalso. apply B, Hin. now split. }
    rewrite <- Hb.
    destruct (length toAnimate =? 0) eqn:E2.
    + apply Nat.eqb_eq in E2. apply length_zero_iff_nil in E2.
      unfold Reveal.card_count. cbn [Reveal.cardTweens]. rewrite E2.
      rewrite bool_decide_eq_false_2; [lia|]. apply not_elem_of_nil.
    + unfold Reveal.card_count. cbn [Reveal.cardTweens]. now rewrite times_in_snoc.
Qed.

Lemma enter_cards_live els s :
  Reveal.cardLive (Reveal.enter_cards els s) = Reveal.cardLive s ∖ els.
Proof.
  unfold Reveal.enter_cards. cbn zeta.
  destruct (length (elements (els ∩ Reveal.cardLive s)) =? 0) eqn:E.
  - apply Nat.eqb_eq in E. apply length_zero_iff_nil in E.
    apply elements_empty_inv in E. apply leibniz_equiv in E.
    apply set_eq. intros x. rewrite elem_of_difference. split; [|tauto].
    intros Hx. split; [exact Hx|]. intros Hin.
    assert (Hboth : x ∈ els ∩ Reveal.cardLive s) by (apply elem_of_intersection; tauto).
    rewrite E in Hboth. now apply not_elem_of_empty in Hboth.
  - unfold Reveal.card_onEnter. cbn zeta.
    match goal with |- context [if ?b then _ else _] => destruct b end; reflexivity.
Qed.

Lemma cards_once_handle (C : gset nat) e s :
  (forall el, Reveal.card_count el s <= 1
              /\ (el ∈ Reveal.cardLive s -> Reveal.card_count el s = 0)
              /\ (0 < Reveal.card_count el s -> el ∈ C)
              /\ (el ∈ Reveal.cardLive s -> el ∈ C)) ->
  forall el, Reveal.card_count el (Reveal.handle e s) <= 1
             /\ (el ∈ Reveal.cardLive (Reveal.handle e s) ->
                 Reveal.card_count el (Reveal.handle e s) = 0)
             /\ (0 < Reveal.card_count el (Reveal.handle e s) -> el ∈ C)
             /\ (el ∈ Reveal.cardLive (Reveal.handle e s) -> el ∈ C).
Proof.
  intros H el. destruct (H el) as (H1 & H0 & HC & HL).
  destruct e as [els|els|k]; cbn [Reveal.handle].
  - unfold Reveal.enter_reveal, Reveal.reveal_onEnter. cbn zeta.
    match goal with |- context [if ?b then _ else _] => destruct b end; cbn; auto.
  - rewrite enter_cards_count, enter_cards_live.
    destruct (bool_decide (el ∈ els ∩ Reveal.cardLive s)) eqn:B; cbn [andb].
    + apply bool_decide_eq_true, elem_of_intersection in B as [Hels Hlive].
      rewrite (H0 Hlive).
      split; [destruct (negb _); lia|]. split; [|split; [auto|]].
      * intros Hin. apply elem_of_difference in Hin as [_ Hout]. contradiction.
      * intros Hin. apply elem_of_difference in Hin as [Hin _]. auto.
    + rewrite Nat.add_0_r. split; [exact H1|]. split; [|split; [exact HC|]].
      * intros Hin. apply elem_of_difference in Hin as [Hin _]. auto.
      * intros Hin. apply elem_of_difference in Hin as [Hin _]. auto.
  - unfold Reveal.tween_start. destruct (Reveal.waiting s !! k); cbn; auto.
Qed.

Lemma no_trigger_handle e s :
  Reveal.revealLive s = ∅ -> Reveal.cardLive s = ∅ -> Reveal.waiting s = [] ->
  Reveal.handle e s = s.
Proof.
  intros HR HC HW. destruct e as [els|els|k]; cbn [Reveal.handle].
  - unfold Reveal.enter_reveal. cbn zeta. rewrite HR.
    replace (els ∩ ∅) with (∅ : gset nat); [now rewrite elements_empty|].
    apply set_eq. intros x. rewrite elem_of_intersection. split; [|tauto].
    intros Hx. now apply not_elem_of_empty in Hx.
  - unfold Reveal.enter_cards. cbn zeta. rewrite HC.
    replace (els ∩ ∅) with (∅ : gset nat); [now rewrite elements_empty|].
    apply set_eq. intros x. rewrite elem_of_intersection. split; [|tauto].
    intros Hx. now apply not_elem_of_empty in Hx.
  - unfold Reveal.tween_start. rewrite HW. now rewrite lookup_nil.
Qed.

Lemma cards_once_run (C : gset nat) evs : forall s,
  (forall el, Reveal.card_count el s <= 1
              /\ (el ∈ Reveal.cardLive s -> Reveal.card_count el s = 0)
              /\ (0 < Reveal.card_count el s -> el ∈ C)
              /\ (el ∈ Reveal.cardLive s -> el ∈ C)) ->
  forall el, Reveal.card_count el (Reveal.run evs s) <= 1
             /\ (el ∈ Reveal.cardLive (Reveal.run evs s) ->
                 Reveal.card_count el (Reveal.run evs s) = 0)
             /\ (0 < Reveal.card_count el (Reveal.run evs s) -> el ∈ C)
             /\ (el ∈ Reveal.cardLive (Reveal.run evs s) -> el ∈ C).
Proof.
  induction evs as [|e evs IH]; intros s H; [exact H|].
  cbn [Reveal.run fold_left]. apply IH. now apply cards_once_handle.
Qed.

Lemma cards_once_init b page el :
  let s := Reveal.initScrollAnimations b page in
  Reveal.card_count el s <= 1
  /\ (el ∈ Reveal.cardLive s -> Reveal.card_count el s = 0)
  /\ (0 < Reveal.card_count el s -> el ∈ Reveal.matching Reveal.projectCard page)
  /\ (el ∈ Reveal.cardLive s -> el ∈ Reveal.matching Reveal.projectCard page).
Proof.
  cbv zeta. unfold Reveal.initScrollAnimations. destruct (negb b); cbn;
    repeat split; auto; try lia; intros Hx; now apply not_elem_of_empty in Hx.
Qed.

(** X23.  The card batch animates a card at most once, and only cards: in
    any state entries and tween starts can lead to, an element is in at most
    one tween of the card handler, it is in none while its trigger is alive,
    and it is in one only if the page has it as a project card.  Without the
    scroll plugin [initScrollAnimations] registers nothing, and no entry
    ever animates or flags anything. *)
Theorem cards_run_once (hasScrollTrigger : bool) (page : list Reveal.element)
    (evs : list Reveal.event) (el : nat) :
  let s := Reveal.run evs (Reveal.initScrollAnimations hasScrollTrigger page) in
  Reveal.card_count el s <= 1
  /\ (el ∈ Reveal.cardLive s -> Reveal.card_count el s = 0)
  /\ (0 < Reveal.card_count el s -> el ∈ Reveal.matching Reveal.projectCard page)
  /\ (hasScrollTrigger = false -> s = Reveal.initScrollAnimations false page).
Proof.
  intros s.
  destruct (cards_once_run _ evs _ (cards_once_init hasScrollTrigger page) el)
    as (H1 & H2 & H3 & _).
  split; [exact H1|]. split; [exact H2|]. split; [exact H3|].
  clear H1 H2 H3. intros ->. subst s. cbn [Reveal.initScrollAnimations negb].
  set (s0 := {| Reveal.animated := ∅; Reveal.revealLive := ∅; Reveal.cardLive := ∅;
                Reveal.revealTweens := []; Reveal.cardTweens := []; Reveal.waiting := [] |}).
  induction evs as [|e evs IH]; [reflexivity|].
  cbn [Reveal.run fold_left]. rewrite no_trigger_handle by reflexivity. exact IH.
Qed.

(** * The resize listener of the v4.0 draft *)

Lemma resize_inv_handle s e :
  Resize.requested s = (if Resize.ticking s then 1 else 0) ->
  let s' := Resize.handle s e in
  Resize.requested s' = (if Resize.ticking s' then 1 else 0)
  /\ Resize.refreshes s' <= Resize.refreshes s
                            + match e with Resize.Frame => 1 | Resize.ResizeEvent => 0 end.
Proof.
  intros H. destruct e; cbn [Resize.handle].
  - unfold Resize.on_resize. destruct (Resize.ticking s) eqn:T; cbn.
    + rewrite T. split; [exact H|lia].
    + split; [lia|lia].
  - unfold Resize.frame. rewrite H. destruct (Resize.ticking s); cbn; split; lia.
Qed.

Lemma resize_burst n s :
  Resize.requested s = (if Resize.ticking s then 1 else 0) ->
  let s' := Nat.iter (S n) Resize.on_resize s in
  Resize.ticking s' = true /\ Resize.requested s' = 1
  /\ Resize.refreshes s' = Resize.refreshes s.
Proof.
  intros H. induction n as [|n IH].
  - cbn. unfold Resize.on_resize. destruct (Resize.ticking s) eqn:T; cbn; auto.
  - destruct IH as (I1 & I2 & I3).
    change (Nat.iter (S (S n)) Resize.on_resize s)
      with (Resize.on_resize (Nat.iter (S n) Resize.on_resize s)).
    cbv zeta. unfold Resize.on_resize at 1 3 5. rewrite I1. auto.
Qed.

(** X24.  The resize listener of the v4.0 draft refreshes once per frame:
    in any state resize events and frames can lead to, at most one callback
    waits for the next frame, and one waits exactly while [ticking] is set;
    there are never more refreshes than frames; and a burst of resize
    events, however long and whether or not a callback was waiting before,
    ends in exactly one refresh at the next frame, after which [ticking] is
    reset. *)
Theorem resize_refreshes_once (evs : list Resize.event) (n : nat) :
  let s := Resize.run evs Resize.init in
  Resize.requested s = (if Resize.ticking s then 1 else 0)
  /\ Resize.refreshes s <= Resize.frames evs
  /\ (let s' := Resize.frame (Nat.iter (S n) Resize.on_resize s) in
      Resize.refreshes s' = S (Resize.refreshes s)
      /\ Resize.ticking s' = false /\ Resize.requested s' = 0).
Proof.
  intros s.
  assert (H : forall evs s0,
            Resize.requested s0 = (if Resize.ticking s0 then 1 else 0) ->
            Resize.requested (Resize.run evs s0)
            = (if Resize.ticking (Resize.run evs s0) then 1 else 0)
            /\ Resize.refreshes (Resize.run evs s0)
               <= Resize.refreshes s0 + Resize.frames evs).
  { clear. unfold Resize.run. induction evs as [|e evs IH]; intros s0 H0.
    - cbn. split; [exact H0|lia].
    - cbn [fold_left]. destruct (resize_inv_handle s0 e H0) as [H1 H2].
      destruct (IH _ H1) as [I1 I2]. split; [exact I1|].
      unfold Resize.frames in *. cbn [List.filter]. destruct e; cbn [length]; lia. }
  destruct (H evs Resize.init eq_refl) as [H1 H2]. fold s in H1, H2. cbn in H2.
  split; [exact H1|]. split; [exact H2|].
  destruct (resize_burst n s H1) as (B1 & B2 & B3).
  cbv zeta. set (b := Nat.iter (S n) Resize.on_resize s) in *. clearbody b.
  unfold Resize.frame. rewrite B2. cbn. now rewrite B3.
Qed.
